(** * xsd2proto: the conversion engine, embedded and verified

    A shallow embedding of [internal/converter] (the type mapper and the
    converter) and of the data model of [internal/model], with the
    properties of the conversion stated over it.

    Conventions of the embedding.
    - A Go [string] is a [string] (a sequence of bytes).  The case functions
      of package [strings] are modelled on ASCII letters; every other byte is
      carried through unchanged.
    - A Go [map[string]bool] that only ever stores [true] is a [gset string];
      the other maps are [gmap]s.
    - A Go [int] counter is a [nat]: the counters count declarations or
      fields of one schema and stay far below the 64-bit bound.
    - A Go [(T, error)] is a [result T].
    - The decoder builds a tree: every pointer of the schema points to an
      object of its own.  A pointer field is an [option].  The converter
      keeps a pointer to the caller's schema in [currentSchema]; the model
      keeps the schema object itself there, so that the one write that goes
      through a pointer of the schema ([convertElementToMessage]) lands in
      it, and the caller's schema after the call is read from that field. *)

From Stdlib Require Import Ascii String.
From stdpp Require Import base tactics option list gmap strings pretty.

Local Open Scope string_scope.
Set Warnings "-register-all,-clear-no-such-hyp".

(** ** Package [strings] of the Go library, as far as the converter uses it *)

Module strings.

Definition upperChar (c : ascii) : ascii :=
  let n := nat_of_ascii c in
  if (97 <=? n)%nat && (n <=? 122)%nat then ascii_of_nat (n - 32) else c.

Definition lowerChar (c : ascii) : ascii :=
  let n := nat_of_ascii c in
  if (65 <=? n)%nat && (n <=? 90)%nat then ascii_of_nat (n + 32) else c.

Fixpoint mapChars (f : ascii -> ascii) (s : string) : string :=
  match s with
  | EmptyString => EmptyString
  | String c s' => String (f c) (mapChars f s')
  end.

(** Go's [ToUpper] and [ToLower] map every Unicode letter; the model maps
    the ASCII letters and agrees with them on ASCII strings ([isASCII]
    below), which is where the properties of letter case are stated. *)
Definition ToUpper : string -> string := mapChars upperChar.
Definition ToLower : string -> string := mapChars lowerChar.

Definition HasPrefix (s pre : string) : bool := String.prefix pre s.

Fixpoint dropChars (n : nat) (s : string) : string :=
  match n, s with
  | O, _ => s
  | S n', String _ s' => dropChars n' s'
  | S _, EmptyString => EmptyString
  end.

Definition TrimPrefix (s pre : string) : string :=
  if HasPrefix s pre then dropChars (String.length pre) s else s.

(** [LastIndex s sep] for a one-byte separator; [None] stands for [-1]. *)
Fixpoint LastIndex (s : string) (sep : ascii) : option nat :=
  match s with
  | EmptyString => None
  | String c s' =>
      match LastIndex s' sep with
      | Some i => Some (S i)
      | None => if decide (c = sep) then Some 0 else None
      end
  end.

(** [Split s sep] for a one-byte separator: the pieces between the
    separators, empty pieces included; one piece when there is none. *)
Fixpoint Split (s : string) (sep : ascii) : list string :=
  match s with
  | EmptyString => [EmptyString]
  | String c s' =>
      if decide (c = sep) then EmptyString :: Split s' sep
      else match Split s' sep with
           | p :: ps => String c p :: ps
           | [] => [String c EmptyString]
           end
  end.

Fixpoint Join (parts : list string) (sep : string) : string :=
  match parts with
  | [] => EmptyString
  | [p] => p
  | p :: ps => p +:+ sep +:+ Join ps sep
  end.

(** [ReplaceAll s old new] for one-byte [old] and [new]. *)
Definition ReplaceAll (s : string) (old new : ascii) : string :=
  mapChars (fun c => if decide (c = old) then new else c) s.

(** [FieldsFunc s f]: the maximal runs of bytes on which [f] is false. *)
Fixpoint FieldsFunc_from (f : ascii -> bool) (s : string) (cur : string)
  : list string :=
  match s with
  | EmptyString => if decide (cur = EmptyString) then [] else [String.rev cur]
  | String c s' =>
      if f c then
        (if decide (cur = EmptyString) then [] else [String.rev cur])
          ++ FieldsFunc_from f s' EmptyString
      else FieldsFunc_from f s' (String c cur)
  end.

Definition FieldsFunc (s : string) (f : ascii -> bool) : list string :=
  FieldsFunc_from f s EmptyString.

End strings.

(** [fmt.Sprintf("%s%d", s, n)] *)
Definition Sprintf_sd (s : string) (n : nat) : string := s +:+ pretty n.

(** ** Results of fallible functions *)

Inductive result (A : Type) : Type :=
| Ok (a : A)
| Err (msg : string).
Arguments Ok {A} a.
Arguments Err {A} msg.

(** ** The type mapper ([type_mapper.go]) *)

Record TypeMapper : Type := mkTypeMapper {
  customMappings : gmap string string
}.

Definition NewTypeMapper : TypeMapper :=
  {| customMappings := ∅ |}.

Definition oneOf (s : string) (cases : list string) : bool :=
  bool_decide (s ∈ cases).

Module TM.

Definition CleanTypeName (typeName : string) : string :=
  match strings.LastIndex typeName ":" with
  | Some idx => strings.dropChars (idx + 1) typeName
  | None => typeName
  end.

Definition MapXSDType (tm : TypeMapper) (xsdType : string) : result string :=
  let cleanType := CleanTypeName xsdType in
  match customMappings tm !! cleanType with
  | Some protoType => Ok protoType
  | None =>
      if oneOf cleanType ["string"; "normalizedString"; "token"; "NMTOKEN";
                          "Name"; "NCName"; "ID"; "IDREF"] then Ok "string"
      else if oneOf cleanType ["boolean"] then Ok "bool"
      else if oneOf cleanType ["int"; "integer"; "short"; "byte";
                               "unsignedByte"] then Ok "int32"
      else if oneOf cleanType ["long"; "unsignedInt"] then Ok "int64"
      else if oneOf cleanType ["float"] then Ok "float"
      else if oneOf cleanType ["double"; "decimal"] then Ok "double"
      else if oneOf cleanType ["dateTime"; "date"; "time"]
           then Ok "google.protobuf.Timestamp"
      else if oneOf cleanType ["duration"] then Ok "google.protobuf.Duration"
      else if oneOf cleanType ["anyURI"] then Ok "string"
      else if oneOf cleanType ["base64Binary"; "hexBinary"] then Ok "bytes"
      else if oneOf cleanType ["unsignedLong"] then Ok "uint64"
      else if oneOf cleanType ["unsignedShort"] then Ok "uint32"
      else Ok cleanType
  end.

Definition AddCustomMapping (tm : TypeMapper) (xsdType protoType : string)
  : TypeMapper :=
  {| customMappings := <[xsdType := protoType]> (customMappings tm) |}.

Definition builtInTypes : list (string * bool) :=
  [("string", true); ("normalizedString", true); ("token", true);
   ("NMTOKEN", true); ("Name", true); ("NCName", true); ("ID", true);
   ("IDREF", true); ("boolean", true); ("int", true); ("integer", true);
   ("short", true); ("byte", true); ("unsignedByte", true); ("long", true);
   ("unsignedInt", true); ("unsignedLong", true); ("unsignedShort", true);
   ("float", true); ("double", true); ("decimal", true); ("dateTime", true);
   ("date", true); ("time", true); ("duration", true); ("anyURI", true);
   ("base64Binary", true); ("hexBinary", true)].

(** The map literal of [IsBuiltInType]; a missing key reads [false]. *)
Definition IsBuiltInType (tm : TypeMapper) (typeName : string) : bool :=
  let cleanType := CleanTypeName typeName in
  default false ((list_to_map builtInTypes : gmap string bool) !! cleanType).

(** The import paths, as a set: the Go code collects them in a map and
    ranges over it, which leaves the order of the slice unspecified. *)
Definition importOf (protoType : string) : option string :=
  if oneOf protoType ["google.protobuf.Timestamp"]
    then Some "google/protobuf/timestamp.proto"
  else if oneOf protoType ["google.protobuf.Duration"]
    then Some "google/protobuf/duration.proto"
  else if oneOf protoType ["google.protobuf.Any"]
    then Some "google/protobuf/any.proto"
  else if oneOf protoType ["google.protobuf.Empty"]
    then Some "google/protobuf/empty.proto"
  else if oneOf protoType ["google.protobuf.Struct"]
    then Some "google/protobuf/struct.proto"
  else if oneOf protoType ["google.protobuf.Value"]
    then Some "google/protobuf/struct.proto"
  else if oneOf protoType ["google.protobuf.ListValue"]
    then Some "google/protobuf/struct.proto"
  else if oneOf protoType ["google.protobuf.FieldMask"]
    then Some "google/protobuf/field_mask.proto"
  else None.

Definition GetRequiredImports (tm : TypeMapper) (mappedTypes : list string)
  : gset string :=
  foldl (fun imports protoType =>
           match importOf protoType with
           | Some imp => {[ imp ]} ∪ imports
           | None => imports
           end) ∅ mappedTypes.

End TM.

(** ** The input model ([internal/model/xsd.go]) *)

Record XMLName : Type := mkXMLName { Space : string; Local : string }.

Record Import : Type := mkImport {
  Import_Namespace : string;
  Import_SchemaLocation : string
}.

Record Include : Type := mkInclude { Include_SchemaLocation : string }.

Record Attribute : Type := mkAttribute {
  Attribute_Name : string;
  Attribute_Type : string;
  Attribute_Use : string
}.

Record Enumeration : Type := mkEnumeration { Enumeration_Value : string }.
Record Pattern : Type := mkPattern { Pattern_Value : string }.
Record Length : Type := mkLength { Length_Value : Z }.
Record Union : Type := mkUnion { MemberTypes : string }.
Record List : Type := mkList { ItemType : string }.

Record Restriction : Type := mkRestriction {
  Base : string;
  Enumerations : list Enumeration;
  Restriction_Pattern : option Pattern;
  MinLength : option Length;
  MaxLength : option Length
}.

Record SimpleType : Type := mkSimpleType {
  SimpleType_Name : string;
  SimpleType_Restriction : option Restriction;
  SimpleType_Union : option Union;
  SimpleType_List : option List
}.

Inductive Element : Type := mkElement {
  Element_Name : string;
  Element_Type : string;
  Element_MinOccurs : string;
  Element_MaxOccurs : string;
  Element_ComplexType : option ComplexType;
  Element_SimpleType : option SimpleType
}
with ComplexType : Type := mkComplexType {
  ComplexType_Name : string;
  ComplexType_Sequence : option Sequence;
  ComplexType_Choice : option Choice;
  ComplexType_Attributes : list Attribute
}
with Sequence : Type := mkSequence {
  Sequence_Elements : list Element;
  Sequence_MinOccurs : string;
  Sequence_MaxOccurs : string
}
with Choice : Type := mkChoice {
  Choice_Elements : list Element;
  Choice_MinOccurs : string;
  Choice_MaxOccurs : string
}.

Inductive Schema : Type := mkSchema {
  Schema_XMLName : XMLName;
  TargetNamespace : string;
  ElementFormDefault : string;
  AttributeFormDefault : string;
  Imports : list Import;
  Includes : list Include;
  Elements : list Element;
  ComplexTypes : list ComplexType;
  SimpleTypes : list SimpleType;
  ImportedSchemas : list Schema
}.

(** ** The output model ([internal/model/proto.go]) *)

Inductive FieldLabel : Type :=
| FieldLabelOptional
| FieldLabelRequired
| FieldLabelRepeated.

Record ProtoField : Type := mkProtoField {
  ProtoField_Name : string;
  ProtoField_Type : string;
  ProtoField_Number : nat;
  ProtoField_Label : FieldLabel;
  ProtoField_Options : gmap string string
}.

Record ProtoEnumValue : Type := mkProtoEnumValue {
  ProtoEnumValue_Name : string;
  ProtoEnumValue_Number : nat
}.

Record ProtoEnum : Type := mkProtoEnum {
  ProtoEnum_Name : string;
  ProtoEnum_Values : list ProtoEnumValue
}.

Inductive ProtoMessage : Type := mkProtoMessage {
  ProtoMessage_Name : string;
  ProtoMessage_Fields : list ProtoField;
  ProtoMessage_Messages : list ProtoMessage;
  ProtoMessage_Enums : list ProtoEnum
}.

Record ProtoFile : Type := mkProtoFile {
  ProtoFile_Syntax : string;
  ProtoFile_Package : string;
  ProtoFile_Imports : gset string;
  ProtoFile_Options : gmap string string;
  ProtoFile_Messages : list ProtoMessage;
  ProtoFile_Enums : list ProtoEnum
}.

(** ** The converter ([converter.go]) *)

Record Converter : Type := mkConverter {
  typeMapper : TypeMapper;
  fieldCounter : nat;
  usedEnumValues : gset string;
  enumValueCounters : gmap string nat;
  usedMessageNames : gset string;
  usedEnumNames : gset string;
  typeRenameMap : gmap string string;
  useCamelCase : bool;
  usePascalCase : bool;
  (** the schema object [currentSchema] points to; [None] is the nil pointer *)
  currentSchema : option Schema
}.

Definition New : Converter :=
  {| typeMapper := NewTypeMapper;
     fieldCounter := 1;
     usedEnumValues := ∅;
     enumValueCounters := ∅;
     usedMessageNames := ∅;
     usedEnumNames := ∅;
     typeRenameMap := ∅;
     useCamelCase := false;
     usePascalCase := false;
     currentSchema := None |}.

(** Field assignments [c.f = v]. *)
Definition with_fieldCounter (n : nat) (c : Converter) : Converter :=
  mkConverter (typeMapper c) n (usedEnumValues c) (enumValueCounters c)
    (usedMessageNames c) (usedEnumNames c) (typeRenameMap c)
    (useCamelCase c) (usePascalCase c) (currentSchema c).

Definition with_usedEnumValues (u : gset string) (c : Converter) : Converter :=
  mkConverter (typeMapper c) (fieldCounter c) u (enumValueCounters c)
    (usedMessageNames c) (usedEnumNames c) (typeRenameMap c)
    (useCamelCase c) (usePascalCase c) (currentSchema c).

Definition with_enumValueCounters (m : gmap string nat) (c : Converter)
  : Converter :=
  mkConverter (typeMapper c) (fieldCounter c) (usedEnumValues c) m
    (usedMessageNames c) (usedEnumNames c) (typeRenameMap c)
    (useCamelCase c) (usePascalCase c) (currentSchema c).

Definition with_usedMessageNames (u : gset string) (c : Converter) : Converter :=
  mkConverter (typeMapper c) (fieldCounter c) (usedEnumValues c)
    (enumValueCounters c) u (usedEnumNames c) (typeRenameMap c)
    (useCamelCase c) (usePascalCase c) (currentSchema c).

Definition with_usedEnumNames (u : gset string) (c : Converter) : Converter :=
  mkConverter (typeMapper c) (fieldCounter c) (usedEnumValues c)
    (enumValueCounters c) (usedMessageNames c) u (typeRenameMap c)
    (useCamelCase c) (usePascalCase c) (currentSchema c).

Definition with_typeRenameMap (m : gmap string string) (c : Converter)
  : Converter :=
  mkConverter (typeMapper c) (fieldCounter c) (usedEnumValues c)
    (enumValueCounters c) (usedMessageNames c) (usedEnumNames c) m
    (useCamelCase c) (usePascalCase c) (currentSchema c).

Definition with_currentSchema (s : option Schema) (c : Converter) : Converter :=
  mkConverter (typeMapper c) (fieldCounter c) (usedEnumValues c)
    (enumValueCounters c) (usedMessageNames c) (usedEnumNames c)
    (typeRenameMap c) (useCamelCase c) (usePascalCase c) s.

Definition SetFieldNamingStyle (useCamel usePascal : bool) (c : Converter)
  : Converter :=
  mkConverter (typeMapper c) (fieldCounter c) (usedEnumValues c)
    (enumValueCounters c) (usedMessageNames c) (usedEnumNames c)
    (typeRenameMap c) useCamel usePascal (currentSchema c).

(** The converter's methods run in a state-and-error monad: the state is
    the receiver [c], an error ends the call. *)
Definition M (A : Type) : Type := Converter -> result A * Converter.

Definition ret {A : Type} (a : A) : M A := fun c => (Ok a, c).
Definition fail {A : Type} (msg : string) : M A := fun c => (Err msg, c).
Definition bind {A B : Type} (m : M A) (k : A -> M B) : M B :=
  fun c => match m c with
           | (Ok a, c') => k a c'
           | (Err msg, c') => (Err msg, c')
           end.
Definition gets {A : Type} (f : Converter -> A) : M A := fun c => (Ok (f c), c).
Definition modify (f : Converter -> Converter) : M unit := fun c => (Ok tt, f c).
Definition liftResult {A : Type} (r : result A) : M A := fun c => (r, c).
(** [fmt.Errorf("... %s: %w", name, err)] around a call *)
Definition wrapErr {A : Type} (pre : string) (m : M A) : M A :=
  fun c => match m c with
           | (Ok a, c') => (Ok a, c')
           | (Err msg, c') => (Err (pre +:+ ": " +:+ msg), c')
           end.

Declare Scope conv_scope.
Delimit Scope conv_scope with conv.
Notation "x <- m ;; k" := (bind m (fun x => k))
  (at level 100, m at next level, right associativity) : conv_scope.
Notation "m ;;; k" := (bind m (fun _ => k))
  (at level 100, right associativity) : conv_scope.
Local Open Scope conv_scope.

Definition isUpperAZ (r : ascii) : bool :=
  (65 <=? nat_of_ascii r)%nat && (nat_of_ascii r <=? 90)%nat.

Definition isSeparator (r : ascii) : bool :=
  bool_decide (r = "_"%char) || bool_decide (r = "-"%char)
  || bool_decide (r = "."%char).

Fixpoint splitCamelCase_loop (i : nat) (s current : string) : list string :=
  match s with
  | EmptyString =>
      if (0 <? String.length current)%nat then [current] else []
  | String r s' =>
      if (0 <? i)%nat && isUpperAZ r then
        if (0 <? String.length current)%nat
        then current :: splitCamelCase_loop (S i) s' (String r EmptyString)
        else splitCamelCase_loop (S i) s' (current +:+ String r EmptyString)
      else splitCamelCase_loop (S i) s' (current +:+ String r EmptyString)
  end.

Definition splitCamelCase (s : string) : list string :=
  if decide (String.length s = 0)%nat then []
  else splitCamelCase_loop 0 s EmptyString.

(** [ToUpper(part[:1])] followed by [ToLower(part[1:])] *)
Definition capitalize (part : string) : string :=
  match part with
  | EmptyString => EmptyString
  | String r rest => String (strings.upperChar r) (strings.ToLower rest)
  end.

Definition toPascalCase (s : string) : string :=
  let parts := strings.FieldsFunc s isSeparator in
  let finalParts := concat (map splitCamelCase parts) in
  foldl (fun result part => result +:+ capitalize part) EmptyString finalParts.

Fixpoint toSnakeCase_loop (i : nat) (s : string) : string :=
  match s with
  | EmptyString => EmptyString
  | String r s' =>
      (if (0 <? i)%nat && isUpperAZ r then "_" else "")
      +:+ String (if bool_decide (r = "-"%char) || bool_decide (r = "."%char)
                  then "_"%char else r)
            (toSnakeCase_loop (S i) s')
  end.

Definition toSnakeCase (s : string) : string :=
  strings.ToLower (toSnakeCase_loop 0 s).

Fixpoint toCamelCase_loop (i : nat) (finalParts : list string) : string :=
  match finalParts with
  | [] => EmptyString
  | part :: rest =>
      (if (0 <? String.length part)%nat then
         if decide (i = 0)%nat then strings.ToLower part else capitalize part
       else EmptyString)
      +:+ toCamelCase_loop (S i) rest
  end.

Definition toCamelCase (s : string) : string :=
  let parts := strings.FieldsFunc s isSeparator in
  let finalParts := concat (map splitCamelCase parts) in
  toCamelCase_loop 0 finalParts.

Definition formatMessageName (name : string) : string := toPascalCase name.
Definition formatEnumName (name : string) : string := toPascalCase name.

Definition formatFieldName (c : Converter) (name : string) : string :=
  if usePascalCase c then toPascalCase name
  else if useCamelCase c then toCamelCase name
  else toSnakeCase name.

(** [parts[i]] where the code has checked that [i] is in range. *)
Definition at_index (parts : list string) (i : nat) : string :=
  default EmptyString (parts !! i).

Definition nonEmpty (s : string) : bool := negb (bool_decide (s = EmptyString)).

Definition generatePackageName (targetNamespace : string) : string :=
  if bool_decide (targetNamespace = "") then "generated"
  else if strings.HasPrefix targetNamespace "http://"
          || strings.HasPrefix targetNamespace "https://" then
    let path := strings.TrimPrefix targetNamespace "http://" in
    let path := strings.TrimPrefix path "https://" in
    let parts := strings.Split path "/" in
    if bool_decide (length parts = 2%nat) then at_index parts 1
    else if (1 <? length parts)%nat
            && nonEmpty (at_index parts (length parts - 1)) then
      at_index parts (length parts - 1)
    else
      let domain := at_index parts 0 in
      let packageParts :=
        if nonEmpty domain then strings.Split domain "." else [] in
      let packageParts :=
        if (1 <? length parts)%nat
        then (packageParts
              ++ filter (fun part => part <> EmptyString) (drop 1 parts))%list
        else packageParts in
      strings.Join packageParts "."
  else if strings.HasPrefix targetNamespace "./" then
    let path := strings.TrimPrefix targetNamespace "./" in
    let parts := strings.Split path "/" in
    let packageParts := filter (fun part => part <> EmptyString) parts in
    strings.Join packageParts "."
  else if strings.HasPrefix targetNamespace "urn:"
          && (0 <? length (strings.Split targetNamespace ":"))%nat then
    let parts := strings.Split targetNamespace ":" in
    at_index parts (length parts - 1)
  else
    let result := strings.ReplaceAll targetNamespace "/" "." in
    let result := strings.ReplaceAll result "_" "." in
    strings.TrimPrefix result ".".

Definition determineFieldLabel (minOccurs maxOccurs : string) : FieldLabel :=
  if bool_decide (maxOccurs = "unbounded")
     || (nonEmpty maxOccurs && negb (bool_decide (maxOccurs = "1")))
  then FieldLabelRepeated
  else if bool_decide (minOccurs = "0") then FieldLabelOptional
  else FieldLabelRequired.

Definition determineAttributeLabel (use : string) : FieldLabel :=
  if bool_decide (use = "required") then FieldLabelRequired
  else FieldLabelOptional.

Definition isArrayOfPattern (c : Converter) (complexType : ComplexType) : bool :=
  let cleanName := TM.CleanTypeName (ComplexType_Name complexType) in
  if negb (strings.HasPrefix cleanName "ArrayOf") then false
  else match ComplexType_Sequence complexType with
       | None => false
       | Some sq =>
           if negb (bool_decide (length (Sequence_Elements sq) = 1%nat)) then false
           else match Sequence_Elements sq !! 0%nat with
                | Some element =>
                    bool_decide (Element_MaxOccurs element = "unbounded")
                    || (nonEmpty (Element_MaxOccurs element)
                        && negb (bool_decide (Element_MaxOccurs element = "1")))
                | None => false (* excluded by the length test *)
                end
       end.

(** The element type of one matching wrapper; the caller has checked
    [isArrayOfPattern], which makes [Sequence.Elements[0]] defined. *)
Definition arrayOfInnerType (c : Converter) (complexType : ComplexType) : string :=
  match ComplexType_Sequence complexType with
  | Some sq =>
      match Sequence_Elements sq !! 0%nat with
      | Some element =>
          let elementType := TM.CleanTypeName (Element_Type element) in
          if TM.IsBuiltInType (typeMapper c) (Element_Type element) then
            match TM.MapXSDType (typeMapper c) (Element_Type element) with
            | Ok protoType => protoType
            | Err _ => EmptyString
            end
          else toPascalCase elementType
      | None => EmptyString
      end
  | None => EmptyString
  end.

Fixpoint getArrayOfElementType_scan (c : Converter) (cleanType : string)
  (complexTypes : list ComplexType) : string :=
  match complexTypes with
  | [] => EmptyString
  | complexType :: rest =>
      if bool_decide (TM.CleanTypeName (ComplexType_Name complexType) = cleanType)
         && isArrayOfPattern c complexType
      then arrayOfInnerType c complexType
      else getArrayOfElementType_scan c cleanType rest
  end.

Definition getArrayOfElementType (c : Converter) (typeName : string) : string :=
  let cleanType := TM.CleanTypeName typeName in
  if negb (strings.HasPrefix cleanType "ArrayOf") then EmptyString
  else match currentSchema c with
       | None => EmptyString
       | Some schema => getArrayOfElementType_scan c cleanType (ComplexTypes schema)
       end.

(** The [for] loops of the name generators: the counter at which the loop
    returns.  The loop leaves at the first unused candidate; [fuel] bounds the
    number of rounds, and one more round than there are used names is
    always enough ([searchCounter_spec] below), so that the bound is never
    what ends the search. *)
Fixpoint searchCounter (isUsed : string -> bool) (name : string)
  (fuel counter : nat) : nat :=
  match fuel with
  | O => counter
  | S fuel' =>
      if isUsed (Sprintf_sd name counter)
      then searchCounter isUsed name fuel' (S counter)
      else counter
  end.

Definition nameUsed (c : Converter) (name : string) : bool :=
  bool_decide (name ∈ usedMessageNames c) || bool_decide (name ∈ usedEnumNames c).

Definition nameRounds (c : Converter) : nat :=
  S (size (usedMessageNames c ∪ usedEnumNames c)).

Definition generateUniqueEnumValueName (enumName valueName : string)
  (isFirstValue : bool) : M string := fun c =>
  let enumSnakeCase := toSnakeCase enumName in
  let enumPrefix := strings.ToUpper enumSnakeCase in
  let prefixedName :=
    if isFirstValue then enumPrefix +:+ "_UNSPECIFIED"
    else enumPrefix +:+ "_" +:+ strings.ToUpper valueName in
  if negb (bool_decide (prefixedName ∈ usedEnumValues c)) then
    (Ok prefixedName,
     with_usedEnumValues ({[ prefixedName ]} ∪ usedEnumValues c) c)
  else
    let baseKey := prefixedName in
    let counter := default 0%nat (enumValueCounters c !! baseKey) in
    (* each round starts with [counter++] *)
    let counter :=
      searchCounter (fun n => bool_decide (n ∈ usedEnumValues c)) prefixedName
        (S (size (usedEnumValues c))) (counter + 1) in
    let candidateName := Sprintf_sd prefixedName counter in
    (Ok candidateName,
     with_enumValueCounters (<[baseKey := counter]> (enumValueCounters c))
       (with_usedEnumValues ({[ candidateName ]} ∪ usedEnumValues c) c)).

Definition generateUniqueMessageName (originalName : string) : M string := fun c =>
  let formattedName := formatMessageName originalName in
  if negb (bool_decide (formattedName ∈ usedMessageNames c))
     && negb (bool_decide (formattedName ∈ usedEnumNames c)) then
    (Ok formattedName,
     with_typeRenameMap (<[originalName := formattedName]> (typeRenameMap c))
       (with_usedMessageNames ({[ formattedName ]} ∪ usedMessageNames c) c))
  else
    let counter := searchCounter (nameUsed c) formattedName (nameRounds c) 2 in
    let candidateName := Sprintf_sd formattedName counter in
    (Ok candidateName,
     with_typeRenameMap (<[originalName := candidateName]> (typeRenameMap c))
       (with_usedMessageNames ({[ candidateName ]} ∪ usedMessageNames c) c)).

Definition generateUniqueEnumName (originalName : string) : M string := fun c =>
  let formattedName := formatEnumName originalName in
  if negb (bool_decide (formattedName ∈ usedEnumNames c))
     && negb (bool_decide (formattedName ∈ usedMessageNames c)) then
    (Ok formattedName,
     with_typeRenameMap (<[originalName := formattedName]> (typeRenameMap c))
       (with_usedEnumNames ({[ formattedName ]} ∪ usedEnumNames c) c))
  else
    let counter := searchCounter (nameUsed c) formattedName (nameRounds c) 2 in
    let candidateName := Sprintf_sd formattedName counter in
    (Ok candidateName,
     with_typeRenameMap (<[originalName := candidateName]> (typeRenameMap c))
       (with_usedEnumNames ({[ candidateName ]} ∪ usedEnumNames c) c)).

(** The lookup in the rename map shared by elements and attributes: the
    cleaned name first, its PascalCase form second, else [protoType]. *)
Definition renamedType (c : Converter) (typeName protoType : string) : string :=
  if negb (TM.IsBuiltInType (typeMapper c) typeName) then
    let cleanType := TM.CleanTypeName typeName in
    match typeRenameMap c !! cleanType with
    | Some renamed => renamed
    | None =>
        let pascalCaseType := toPascalCase cleanType in
        match typeRenameMap c !! pascalCaseType with
        | Some renamed => renamed
        | None => protoType
        end
    end
  else protoType.

Definition convertElementToField (element : Element) : M ProtoField :=
  protoType <- (fun c => (TM.MapXSDType (typeMapper c) (Element_Type element), c)) ;;
  arrayElementType <- gets (fun c => getArrayOfElementType c (Element_Type element)) ;;
  if nonEmpty arrayElementType then
    field <- gets (fun c =>
      {| ProtoField_Name := formatFieldName c (Element_Name element);
         ProtoField_Type := arrayElementType;
         ProtoField_Number := fieldCounter c;
         ProtoField_Label := FieldLabelRepeated;
         ProtoField_Options := ∅ |}) ;;
    modify (fun c => with_fieldCounter (fieldCounter c + 1) c) ;;;
    ret field
  else
    protoType <- gets (fun c => renamedType c (Element_Type element) protoType) ;;
    field <- gets (fun c =>
      {| ProtoField_Name := formatFieldName c (Element_Name element);
         ProtoField_Type := protoType;
         ProtoField_Number := fieldCounter c;
         ProtoField_Label :=
           determineFieldLabel (Element_MinOccurs element)
                               (Element_MaxOccurs element);
         ProtoField_Options := ∅ |}) ;;
    modify (fun c => with_fieldCounter (fieldCounter c + 1) c) ;;;
    ret field.

Definition convertAttributeToField (attribute : Attribute) : M ProtoField :=
  protoType <- (fun c => (TM.MapXSDType (typeMapper c) (Attribute_Type attribute), c)) ;;
  protoType <- gets (fun c => renamedType c (Attribute_Type attribute) protoType) ;;
  field <- gets (fun c =>
    {| ProtoField_Name := formatFieldName c (Attribute_Name attribute);
       ProtoField_Type := protoType;
       ProtoField_Number := fieldCounter c;
       ProtoField_Label := determineAttributeLabel (Attribute_Use attribute);
       ProtoField_Options := ∅ |}) ;;
  modify (fun c => with_fieldCounter (fieldCounter c + 1) c) ;;;
  ret field.

(** [for _, x := range xs { y, err := f(x); if err != nil { return nil, err };
    ys = append(ys, y) }] *)
Fixpoint forEach {A B : Type} (f : A -> M B) (xs : list A) : M (list B) :=
  match xs with
  | [] => ret []
  | x :: rest =>
      y <- f x ;;
      ys <- forEach f rest ;;
      ret (y :: ys)
  end.

Definition with_Label (l : FieldLabel) (f : ProtoField) : ProtoField :=
  mkProtoField (ProtoField_Name f) (ProtoField_Type f) (ProtoField_Number f) l
    (ProtoField_Options f).

Definition convertChoiceElement (element : Element) : M ProtoField :=
  field <- convertElementToField element ;;
  ret (with_Label FieldLabelOptional field).

Definition convertComplexType (complexType : ComplexType) : M ProtoMessage :=
  name <- generateUniqueMessageName (ComplexType_Name complexType) ;;
  modify (with_fieldCounter 1) ;;;
  sequenceFields <-
    match ComplexType_Sequence complexType with
    | Some sq => forEach convertElementToField (Sequence_Elements sq)
    | None => ret []
    end ;;
  choiceFields <-
    match ComplexType_Choice complexType with
    | Some ch => forEach convertChoiceElement (Choice_Elements ch)
    | None => ret []
    end ;;
  attributeFields <-
    forEach convertAttributeToField (ComplexType_Attributes complexType) ;;
  ret {| ProtoMessage_Name := name;
         ProtoMessage_Fields :=
           (sequenceFields ++ choiceFields ++ attributeFields)%list;
         ProtoMessage_Messages := [];
         ProtoMessage_Enums := [] |}.

Definition with_ComplexType_Name (name : string) (ct : ComplexType) : ComplexType :=
  mkComplexType name (ComplexType_Sequence ct) (ComplexType_Choice ct)
    (ComplexType_Attributes ct).

Definition with_Element_ComplexType (ct : option ComplexType) (e : Element)
  : Element :=
  mkElement (Element_Name e) (Element_Type e) (Element_MinOccurs e)
    (Element_MaxOccurs e) ct (Element_SimpleType e).

Definition with_Elements (els : list Element) (s : Schema) : Schema :=
  mkSchema (Schema_XMLName s) (TargetNamespace s) (ElementFormDefault s)
    (AttributeFormDefault s) (Imports s) (Includes s) els (ComplexTypes s)
    (SimpleTypes s) (ImportedSchemas s).

(** [element.ComplexType.Name = messageName] for the [i]-th top-level
    element: the pointer leads to the inline type of the caller's schema. *)
Definition writeInlineName (i : nat) (messageName : string) (c : Converter)
  : Converter :=
  match currentSchema c with
  | Some schema =>
      let rename (e : Element) :=
        with_Element_ComplexType
          (with_ComplexType_Name messageName <$> Element_ComplexType e) e in
      with_currentSchema
        (Some (with_Elements (alter rename i (Elements schema)) schema)) c
  | None => c
  end.

Definition convertElementToMessage (i : nat) (element : Element) : M ProtoMessage :=
  match Element_ComplexType element with
  | None => fail ("element " +:+ Element_Name element +:+ " has no complex type")
  | Some inline =>
      let messageName :=
        if nonEmpty (ComplexType_Name inline) then ComplexType_Name inline
        else Element_Name element in
      modify (writeInlineName i messageName) ;;;
      convertComplexType (with_ComplexType_Name messageName inline)
  end.

Fixpoint convertEnumerations (uniqueEnumName : string) (i : nat)
  (enumerations : list Enumeration) : M (list ProtoEnumValue) :=
  match enumerations with
  | [] => ret []
  | enumeration :: rest =>
      name <- generateUniqueEnumValueName uniqueEnumName
                (Enumeration_Value enumeration) false ;;
      values <- convertEnumerations uniqueEnumName (S i) rest ;;
      ret ({| ProtoEnumValue_Name := name; ProtoEnumValue_Number := i + 1 |}
             :: values)
  end.

(** A nil [Restriction] would make the Go function panic on
    [simpleType.Restriction.Enumerations]; the panic is an [Err]. *)
Definition convertSimpleTypeToEnum (simpleType : SimpleType) : M ProtoEnum :=
  uniqueEnumName <- generateUniqueEnumName (SimpleType_Name simpleType) ;;
  unspecifiedName <-
    generateUniqueEnumValueName uniqueEnumName "UNSPECIFIED" true ;;
  let unspecifiedValue :=
    {| ProtoEnumValue_Name := unspecifiedName; ProtoEnumValue_Number := 0 |} in
  match SimpleType_Restriction simpleType with
  | None => fail "panic: nil pointer dereference"
  | Some restriction =>
      values <- convertEnumerations uniqueEnumName 0 (Enumerations restriction) ;;
      ret {| ProtoEnum_Name := uniqueEnumName;
             ProtoEnum_Values := unspecifiedValue :: values |}
  end.

Definition hasEnumerations (simpleType : SimpleType) : bool :=
  match SimpleType_Restriction simpleType with
  | Some restriction => (0 <? length (Enumerations restriction))%nat
  | None => false
  end.

(** First pass *)
Fixpoint convertSimpleTypes (simpleTypes : list SimpleType) : M (list ProtoEnum) :=
  match simpleTypes with
  | [] => ret []
  | simpleType :: rest =>
      if hasEnumerations simpleType then
        enum <- convertSimpleTypeToEnum simpleType ;;
        enums <- convertSimpleTypes rest ;;
        ret (enum :: enums)
      else convertSimpleTypes rest
  end.

(** Second pass *)
Fixpoint convertComplexTypes (complexTypes : list ComplexType)
  : M (list ProtoMessage) :=
  match complexTypes with
  | [] => ret []
  | complexType :: rest =>
      skip <- gets (fun c => isArrayOfPattern c complexType) ;;
      if (skip : bool) then convertComplexTypes rest
      else
        message <-
          wrapErr ("failed to convert complex type "
                   +:+ ComplexType_Name complexType)
            (convertComplexType complexType) ;;
        messages <- convertComplexTypes rest ;;
        ret (message :: messages)
  end.

(** Third pass; [i] is the index of the element in [schema.Elements]. *)
Fixpoint convertElements (i : nat) (elements : list Element)
  : M (list ProtoMessage) :=
  match elements with
  | [] => ret []
  | element :: rest =>
      match Element_ComplexType element with
      | Some _ =>
          message <-
            wrapErr ("failed to convert element " +:+ Element_Name element)
              (convertElementToMessage i element) ;;
          messages <- convertElements (S i) rest ;;
          ret (message :: messages)
      | None => convertElements (S i) rest
      end
  end.

Definition Convert (schema : Schema) : M ProtoFile :=
  modify (with_currentSchema (Some schema)) ;;;
  let package := generatePackageName (TargetNamespace schema) in
  enums <- convertSimpleTypes (SimpleTypes schema) ;;
  messages2 <- convertComplexTypes (ComplexTypes schema) ;;
  messages3 <- convertElements 0 (Elements schema) ;;
  let messages := (messages2 ++ messages3)%list in
  let mappedTypes :=
    concat (map (fun m => map ProtoField_Type (ProtoMessage_Fields m)) messages) in
  imports <- gets (fun c => TM.GetRequiredImports (typeMapper c) mappedTypes) ;;
  ret {| ProtoFile_Syntax := "proto3";
         ProtoFile_Package := package;
         ProtoFile_Imports := imports;
         ProtoFile_Options := ∅;
         ProtoFile_Messages := messages;
         ProtoFile_Enums := enums |}.

(** The caller's schema once [Convert] has returned. *)
Definition schemaAfter (c : Converter) (schema : Schema) : option Schema :=
  currentSchema (snd (Convert schema c)).

(** *** Sample schemas *)

Definition el (name type minOccurs maxOccurs : string) : Element :=
  mkElement name type minOccurs maxOccurs None None.

Definition ct (name : string) (sequence : list Element) : ComplexType :=
  mkComplexType name (Some (mkSequence sequence "" "")) None [].

Definition enumType (name : string) (values : list string) : SimpleType :=
  mkSimpleType name
    (Some (mkRestriction "xs:string" (map mkEnumeration values) None None None))
    None None.

Definition schemaOf (ns : string) (elements : list Element)
  (complexTypes : list ComplexType) (simpleTypes : list SimpleType) : Schema :=
  mkSchema (mkXMLName "http://www.w3.org/2001/XMLSchema" "schema") ns
    "qualified" "" [] [] elements complexTypes simpleTypes [].

(** The schema of [examples/001_simple] (README and end-to-end test). *)
Definition simpleSchema : Schema :=
  schemaOf "http://example.com/simple"
    [el "person" "tns:Person" "" ""]
    [ct "Address" [el "street" "xs:string" "" ""; el "city" "xs:string" "" "";
                   el "postalCode" "xs:string" "" ""; el "country" "xs:string" "" ""];
     mkComplexType "Person"
       (Some (mkSequence
         [el "firstName" "xs:string" "" ""; el "lastName" "xs:string" "" "";
          el "age" "xs:int" "" ""; el "email" "xs:string" "0" "";
          el "address" "tns:Address" "" ""; el "status" "tns:Status" "" "";
          el "tags" "xs:string" "0" "unbounded"] "" ""))
       None [mkAttribute "id" "xs:string" "required"]]
    [enumType "Status" ["ACTIVE"; "INACTIVE"; "PENDING"]].

(** * Vocabulary of the properties *)

(** The table of built-in types as the specification gives it (§4.1):
    XSD name, Protobuf type. *)
Definition xsdTable : list (string * string) :=
  [("string", "string"); ("normalizedString", "string"); ("token", "string");
   ("NMTOKEN", "string"); ("Name", "string"); ("NCName", "string");
   ("ID", "string"); ("IDREF", "string");
   ("boolean", "bool");
   ("int", "int32"); ("integer", "int32"); ("short", "int32");
   ("byte", "int32"); ("unsignedByte", "int32");
   ("long", "int64"); ("unsignedInt", "int64");
   ("unsignedLong", "uint64");
   ("unsignedShort", "uint32");
   ("float", "float");
   ("double", "double"); ("decimal", "double");
   ("dateTime", "google.protobuf.Timestamp");
   ("date", "google.protobuf.Timestamp");
   ("time", "google.protobuf.Timestamp");
   ("duration", "google.protobuf.Duration");
   ("anyURI", "string");
   ("base64Binary", "bytes"); ("hexBinary", "bytes")].

(** "The last non-empty segment", in the words of the specification. *)
Definition lastNonEmpty (parts : list string) : option string :=
  last (filter (fun part => part <> EmptyString) parts).

(** The names reserved so far: messages and enums share one name space. *)
Definition usedNames (c : Converter) : gset string :=
  usedMessageNames c ∪ usedEnumNames c.

(** [name] is what a declaration formatted as [formatted] receives against
    the reserved names [used]: [formatted] itself when it is free, else
    [formatted] followed by the least counter from [from] on that makes a
    free name. *)
Definition assigned (from : nat) (used : gset string) (formatted name : string)
  : Prop :=
  ((formatted ∉ used) /\ name = formatted)
  \/ ((formatted ∈ used)
      /\ exists k : nat, (from <= k)%nat /\ name = Sprintf_sd formatted k
         /\ (name ∉ used)
         /\ forall j : nat, (from <= j < k)%nat -> Sprintf_sd formatted j ∈ used).

(** The declarations [originals], taken in order, receive [names]. *)
Fixpoint namesAssigned (used : gset string) (originals names : list string)
  : Prop :=
  match originals, names with
  | [], [] => True
  | original :: originals', name :: names' =>
      assigned 2 used (toPascalCase original) name
      /\ namesAssigned ({[ name ]} ∪ used) originals' names'
  | _, _ => False
  end.

(** The state after [generateUniqueMessageName] / [generateUniqueEnumName]
    has handed out [name] for [original]. *)
Definition registerMessage (original name : string) (c : Converter) : Converter :=
  with_typeRenameMap (<[original := name]> (typeRenameMap c))
    (with_usedMessageNames ({[ name ]} ∪ usedMessageNames c) c).

Definition registerEnum (original name : string) (c : Converter) : Converter :=
  with_typeRenameMap (<[original := name]> (typeRenameMap c))
    (with_usedEnumNames ({[ name ]} ∪ usedEnumNames c) c).

Definition sequenceElements (complexType : ComplexType) : list Element :=
  match ComplexType_Sequence complexType with
  | Some sq => Sequence_Elements sq
  | None => []
  end.

Definition choiceElements (complexType : ComplexType) : list Element :=
  match ComplexType_Choice complexType with
  | Some ch => Choice_Elements ch
  | None => []
  end.

(** The member names of a complex type in declaration order: sequence
    elements, choice elements, attributes. *)
Definition memberNames (complexType : ComplexType) : list string :=
  (map Element_Name (sequenceElements complexType)
   ++ map Element_Name (choiceElements complexType)
   ++ map Attribute_Name (ComplexType_Attributes complexType))%list.

(** *** State-free readings of the field conversions

    What [convertElementToField], [convertAttributeToField] and
    [convertComplexType] return, as functions of the state they start in
    and of the field number ([convertElementToField_run] and the lemmas
    after it relate them to the monadic code). *)

Definition mappedType (tm : TypeMapper) (typeName : string) : string :=
  match TM.MapXSDType tm typeName with
  | Ok protoType => protoType
  | Err _ => EmptyString
  end.

Definition fieldOfElement (c : Converter) (number : nat) (element : Element)
  : ProtoField :=
  let arrayElementType := getArrayOfElementType c (Element_Type element) in
  if nonEmpty arrayElementType then
    mkProtoField (formatFieldName c (Element_Name element)) arrayElementType
      number FieldLabelRepeated ∅
  else
    mkProtoField (formatFieldName c (Element_Name element))
      (renamedType c (Element_Type element)
         (mappedType (typeMapper c) (Element_Type element)))
      number
      (determineFieldLabel (Element_MinOccurs element) (Element_MaxOccurs element))
      ∅.

Definition fieldOfAttribute (c : Converter) (number : nat) (attribute : Attribute)
  : ProtoField :=
  mkProtoField (formatFieldName c (Attribute_Name attribute))
    (renamedType c (Attribute_Type attribute)
       (mappedType (typeMapper c) (Attribute_Type attribute)))
    number (determineAttributeLabel (Attribute_Use attribute)) ∅.

Definition sequenceFields (c : Converter) (complexType : ComplexType)
  : list ProtoField :=
  imap (fun i => fieldOfElement c (1 + i)) (sequenceElements complexType).

Definition choiceFields (c : Converter) (complexType : ComplexType)
  : list ProtoField :=
  imap (fun i e =>
          with_Label FieldLabelOptional
            (fieldOfElement c (1 + length (sequenceElements complexType) + i) e))
       (choiceElements complexType).

Definition attributeFields (c : Converter) (complexType : ComplexType)
  : list ProtoField :=
  imap (fun i =>
          fieldOfAttribute c
            (1 + length (sequenceElements complexType)
             + length (choiceElements complexType) + i))
       (ComplexType_Attributes complexType).

Definition messageOf (c : Converter) (name : string) (complexType : ComplexType)
  : ProtoMessage :=
  mkProtoMessage name
    (sequenceFields c complexType ++ choiceFields c complexType
     ++ attributeFields c complexType)%list
    [] [].

(** *** Enum values *)

(** The prefix of the value names of an enum: its final name in
    SCREAMING_SNAKE_CASE. *)
Definition enumPrefixOf (enumName : string) : string :=
  strings.ToUpper (toSnakeCase enumName).

Definition enumerationsOf (simpleType : SimpleType) : list Enumeration :=
  match SimpleType_Restriction simpleType with
  | Some restriction => Enumerations restriction
  | None => []
  end.

(** [name] is what a value formatted as [base] receives against the value
    names [used] of the file so far: [base] when it is free, else [base]
    followed by a counter from 1 on; the name received is free. *)
Definition valueAssigned (used : gset string) (base name : string) : Prop :=
  (name ∉ used)
  /\ (((base ∉ used) /\ name = base)
      \/ ((base ∈ used) /\ exists k : nat, (1 <= k)%nat /\ name = Sprintf_sd base k)).

(** The values after the sentinel: numbered from [number] on in source
    order, each named after its enumeration entry. *)
Fixpoint valuesAssigned (used : gset string) (pre : string) (number : nat)
  (enumerations : list Enumeration) (values : list ProtoEnumValue) : Prop :=
  match enumerations, values with
  | [], [] => True
  | enumeration :: enumerations', value :: values' =>
      ProtoEnumValue_Number value = number
      /\ valueAssigned used
           (pre +:+ "_" +:+ strings.ToUpper (Enumeration_Value enumeration))
           (ProtoEnumValue_Name value)
      /\ valuesAssigned ({[ ProtoEnumValue_Name value ]} ∪ used) pre (S number)
           enumerations' values'
  | _, _ => False
  end.

(** [enum] is the conversion of [simpleType] against the value names [used]. *)
Definition enumAssigned (used : gset string) (simpleType : SimpleType)
  (enum : ProtoEnum) : Prop :=
  exists first rest,
    ProtoEnum_Values enum = first :: rest
    /\ ProtoEnumValue_Number first = 0%nat
    /\ valueAssigned used (enumPrefixOf (ProtoEnum_Name enum) +:+ "_UNSPECIFIED")
         (ProtoEnumValue_Name first)
    /\ valuesAssigned ({[ ProtoEnumValue_Name first ]} ∪ used)
         (enumPrefixOf (ProtoEnum_Name enum)) 1 (enumerationsOf simpleType) rest.

Definition valueNames (enum : ProtoEnum) : gset string :=
  list_to_set (map ProtoEnumValue_Name (ProtoEnum_Values enum)).

Fixpoint enumsAssigned (used : gset string) (simpleTypes : list SimpleType)
  (enums : list ProtoEnum) : Prop :=
  match simpleTypes, enums with
  | [], [] => True
  | simpleType :: simpleTypes', enum :: enums' =>
      enumAssigned used simpleType enum
      /\ enumsAssigned (valueNames enum ∪ used) simpleTypes' enums'
  | _, _ => False
  end.

(** The state after [generateUniqueEnumValueName] has handed out [name]. *)
Definition registerValue (name : string) (counters : gmap string nat)
  (c : Converter) : Converter :=
  with_enumValueCounters counters
    (with_usedEnumValues ({[ name ]} ∪ usedEnumValues c) c).

(** *** The declarations a conversion emits *)

(** The inline type of a top-level element as the third pass names it:
    by its own name when it has one, else by the element's name. *)
Definition namedInline (element : Element) : option ComplexType :=
  (fun inline =>
     with_ComplexType_Name
       (if nonEmpty (ComplexType_Name inline) then ComplexType_Name inline
        else Element_Name element) inline)
  <$> Element_ComplexType element.

(** The element once the third pass has gone over it. *)
Definition nameInline (element : Element) : Element :=
  with_Element_ComplexType (namedInline element) element.

(** The complex types that become messages, in the order of the passes:
    the top-level ones that are no array wrappers, then the inline types
    of the top-level elements. *)
Definition emittedTypes (c : Converter) (schema : Schema) : list ComplexType :=
  (filter (fun complexType => isArrayOfPattern c complexType = false)
     (ComplexTypes schema)
   ++ omap namedInline (Elements schema))%list.

Definition emittedSimpleTypes (schema : Schema) : list SimpleType :=
  filter (fun simpleType => hasEnumerations simpleType = true) (SimpleTypes schema).

(** The source names of the emitted declarations, in processing order. *)
Definition declaredNames (c : Converter) (schema : Schema) : list string :=
  (map SimpleType_Name (emittedSimpleTypes schema)
   ++ map ComplexType_Name (emittedTypes c schema))%list.

(** What the field conversions read of the state, the rename map apart. *)
Definition sameEnv (c c' : Converter) : Prop :=
  typeMapper c' = typeMapper c
  /\ useCamelCase c' = useCamelCase c
  /\ usePascalCase c' = usePascalCase c
  /\ ComplexTypes <$> currentSchema c' = ComplexTypes <$> currentSchema c.

(** [name] is the PascalCase form of [original], or that form followed by
    a counter from 2 on. *)
Definition derivedName (original name : string) : Prop :=
  name = toPascalCase original
  \/ exists k : nat, (2 <= k)%nat /\ name = Sprintf_sd (toPascalCase original) k.

(** [message] is the conversion of [complexType] in a state that agrees
    with [c] on what the field conversions read, the rename map apart. *)
Definition converted (c : Converter) (message : ProtoMessage)
  (complexType : ComplexType) : Prop :=
  exists c1, sameEnv c c1
             /\ derivedName (ComplexType_Name complexType)
                  (ProtoMessage_Name message)
             /\ message = messageOf c1 (ProtoMessage_Name message) complexType.

(** *** Array wrappers and labels, in the words of the specification *)

(** The wrapper a declared type refers to: the first top-level complex type
    with the array-wrapper pattern whose cleaned name is the cleaned
    declared type. *)
Definition wrapperOf (c : Converter) (schema : Schema) (typeName : string)
  : option ComplexType :=
  head (filter
          (fun w => isArrayOfPattern c w = true
                    /\ TM.CleanTypeName (ComplexType_Name w)
                       = TM.CleanTypeName typeName)
          (ComplexTypes schema)).

(** The inner element type of a wrapper: a built-in type goes through the
    type mapper, a custom one is PascalCase-formatted. *)
Definition innerTypeOf (tm : TypeMapper) (w : ComplexType) : string :=
  match sequenceElements w with
  | inner :: _ =>
      if TM.IsBuiltInType tm (Element_Type inner)
      then mappedType tm (Element_Type inner)
      else toPascalCase (TM.CleanTypeName (Element_Type inner))
  | [] => EmptyString
  end.

(** The type a reference collapses to, when it does: the inner type of the
    wrapper it refers to, provided that type has a non-empty name. *)
Definition collapsedType (c : Converter) (schema : Schema) (typeName : string)
  : option string :=
  match wrapperOf c schema typeName with
  | Some w =>
      if nonEmpty (innerTypeOf (typeMapper c) w)
      then Some (innerTypeOf (typeMapper c) w) else None
  | None => None
  end.

(** The label policy for occurrence bounds. *)
Definition occurrenceLabel (minOccurs maxOccurs : string) : FieldLabel :=
  if decide (maxOccurs = "unbounded" \/ (maxOccurs <> "" /\ maxOccurs <> "1"))
  then FieldLabelRepeated
  else if decide (minOccurs = "0") then FieldLabelOptional
  else FieldLabelRequired.

(** The label policy for attributes. *)
Definition attributeLabel (use : string) : FieldLabel :=
  if decide (use = "required") then FieldLabelRequired else FieldLabelOptional.

(** *** Schemas of the examples *)

(** The collision scenario: a top-level type [Person] and an element
    [person] with an anonymous inline type. *)
Definition collisionSchema : Schema :=
  schemaOf "http://example.com/collision"
    [mkElement "person" "" "" ""
       (Some (ct "" [el "firstName" "xs:string" "" ""; el "lastName" "xs:string" "" ""]))
       None]
    [ct "Person" [el "name" "xs:string" "" ""; el "age" "xs:int" "" ""]]
    [].

(** Two enums: a value of the first takes the sentinel name of the second. *)
Definition sentinelSchema : Schema :=
  schemaOf "" [] []
    [enumType "Foo" ["BAR_UNSPECIFIED"]; enumType "FooBar" ["X"]].

Definition arrayOfFoo : ComplexType :=
  ct "ArrayOfFoo" [el "Foo" "tns:Foo" "0" "unbounded"].

(** A wrapper referred to by a sequence element with [minOccurs="0"]. *)
Definition wrapperSchema : Schema :=
  schemaOf "" []
    [arrayOfFoo; ct "Foo" [el "id" "xs:string" "" ""];
     ct "Bar" [el "items" "tns:ArrayOfFoo" "0" ""]]
    [].

(** A wrapper referred to by a choice element. *)
Definition choiceSchema : Schema :=
  schemaOf "" []
    [arrayOfFoo; ct "Foo" [el "id" "xs:string" "" ""];
     mkComplexType "Bar" None
       (Some (mkChoice [el "items" "tns:ArrayOfFoo" "" ""] "" "")) []]
    [].

(** A type declared twice, with a reference between the declarations. *)
Definition redeclaredSchema : Schema :=
  schemaOf "" []
    [ct "Person" [el "name" "xs:string" "" ""];
     ct "Document" [el "owner" "tns:Person" "" ""];
     ct "Person" [el "firstName" "xs:string" "" ""];
     ct "Archive" [el "owner" "tns:Person" "" ""]]
    [].

(** A readable digest of a file: enums with values, messages with fields. *)
Definition digest (r : result ProtoFile * Converter)
  : option (list (string * list (string * nat))
            * list (string * list (FieldLabel * string * string * nat))) :=
  match fst r with
  | Ok pf =>
      Some (map (fun e => (ProtoEnum_Name e,
                           map (fun v => (ProtoEnumValue_Name v,
                                          ProtoEnumValue_Number v))
                               (ProtoEnum_Values e)))
                (ProtoFile_Enums pf),
            map (fun m => (ProtoMessage_Name m,
                           map (fun f => (ProtoField_Label f, ProtoField_Type f,
                                          ProtoField_Name f, ProtoField_Number f))
                               (ProtoMessage_Fields m)))
                (ProtoFile_Messages pf))
  | Err _ => None
  end.

(** *** Characters of a name *)

Definition chars (s : string) : list ascii := list_ascii_of_string s.

Definition isLowerAZ (r : ascii) : bool :=
  (97 <=? nat_of_ascii r)%nat && (nat_of_ascii r <=? 122)%nat.

Definition firstChar (s : string) : option ascii :=
  match s with
  | String r _ => Some r
  | EmptyString => None
  end.

(** [s] with its first character in upper, respectively lower, case. *)
Definition upperFirst (s : string) : string :=
  match s with
  | String r rest => String (strings.upperChar r) rest
  | EmptyString => EmptyString
  end.

Definition lowerFirst (s : string) : string :=
  match s with
  | String r rest => String (strings.lowerChar r) rest
  | EmptyString => EmptyString
  end.

(** The characters [toSnakeCase] rewrites: upper-case letters, [-] and [.]. *)
Definition snakeRewrites (r : ascii) : bool :=
  isUpperAZ r || bool_decide (r = "-"%char) || bool_decide (r = "."%char).

(** The names on which the byte model of the case functions is the code:
    those made of ASCII characters only. *)
Definition isASCII (s : string) : bool :=
  forallb (fun r => (nat_of_ascii r <? 128)%nat) (chars s).

(** A word that starts with an upper-case letter. *)
Definition startsUpper (p : string) : Prop :=
  exists r rest, p = String r rest /\ isUpperAZ r = true.

(** A word with no upper-case letter after its first character. *)
Definition oneWord (p : string) : Prop :=
  Forall (fun r => isUpperAZ r = false) (tail (chars p)).

(** *** What a file holds *)

Definition typeNames (pf : ProtoFile) : list string :=
  (map ProtoEnum_Name (ProtoFile_Enums pf)
   ++ map ProtoMessage_Name (ProtoFile_Messages pf))%list.

Definition fieldTypes (pf : ProtoFile) : list string :=
  concat (map (fun m => map ProtoField_Type (ProtoMessage_Fields m))
            (ProtoFile_Messages pf)).

Definition enumValueNames (enums : list ProtoEnum) : list string :=
  concat (map (fun e => map ProtoEnumValue_Name (ProtoEnum_Values e)) enums).

(** ** The validation of a parsed schema ([internal/parser]) *)

Module Parser.

(** One loop of [Validate]: the first empty name ends it with [msg]; the
    names met before are counted in [counts]. *)
Fixpoint checkNames (msg : string) (names : list string)
  (counts : gmap string nat) : result (gmap string nat) :=
  match names with
  | [] => Ok counts
  | name :: names' =>
      if bool_decide (name = "") then Err msg
      else checkNames msg names'
             (<[name := S (default 0%nat (counts !! name))]> counts)
  end.

(** [schema] is the pointer argument, [None] for [nil]; [Ok tt] is the
    [nil] error. *)
Definition Validate (schema : option Schema) : result unit :=
  match schema with
  | None => Err "schema is nil"
  | Some schema =>
      match checkNames "element with empty name found"
              (map Element_Name (Elements schema)) ∅ with
      | Err msg => Err msg
      | Ok elementNames =>
          match checkNames "complexType with empty name found"
                  (map ComplexType_Name (ComplexTypes schema)) ∅ with
          | Err msg => Err msg
          | Ok typeNames =>
              match checkNames "simpleType with empty name found"
                      (map SimpleType_Name (SimpleTypes schema)) typeNames with
              | Err msg => Err msg
              | Ok _ => Ok tt
              end
          end
      end
  end.

End Parser.

(** The declared types of the members of a complex type, in the order of
    [memberNames]. *)
Definition memberTypes (complexType : ComplexType) : list string :=
  (map Element_Type (sequenceElements complexType)
   ++ map Element_Type (choiceElements complexType)
   ++ map Attribute_Type (ComplexType_Attributes complexType))%list.

(** *** Two runs that differ in the naming style *)

(** Two fields, and two messages, that differ at most in the names of the
    fields. *)
Definition sameButName (f f' : ProtoField) : Prop :=
  ProtoField_Type f' = ProtoField_Type f
  /\ ProtoField_Number f' = ProtoField_Number f
  /\ ProtoField_Label f' = ProtoField_Label f
  /\ ProtoField_Options f' = ProtoField_Options f.

Definition sameButFieldNames (m m' : ProtoMessage) : Prop :=
  ProtoMessage_Name m' = ProtoMessage_Name m
  /\ Forall2 sameButName (ProtoMessage_Fields m) (ProtoMessage_Fields m')
  /\ ProtoMessage_Messages m' = ProtoMessage_Messages m
  /\ ProtoMessage_Enums m' = ProtoMessage_Enums m.

(** [m'], run in the state [style c], does what [m] does in [c]: two
    results are related by [R], an error is the same error, and the final
    states differ by [style] again. *)
Definition simulates {A : Type} (style : Converter -> Converter)
  (R : A -> A -> Prop) (m m' : M A) : Prop :=
  forall c : Converter,
    snd (m' (style c)) = style (snd (m c))
    /\ match fst (m c), fst (m' (style c)) with
       | Ok x, Ok y => R x y
       | Err e, Err e' => e' = e
       | _, _ => False
       end.

(** *** References to declarations processed earlier *)

(** Every declaration named in [known] has an entry in the rename map, and
    the entry is one of the names [final]. *)
Definition knownRenamed (c : Converter) (known final : list string) : Prop :=
  forall original : string,
    original ∈ known ->
    exists name, typeRenameMap c !! original = Some name /\ name ∈ final.

(** In [messages], the conversions of [complexTypes], a member whose
    declared type is not built-in, does not collapse to the inner type of an
    array wrapper, and names a declaration of [known], the complex type of
    the message itself or one before it in [complexTypes], becomes a field
    whose type is one of the names [final]. *)
Fixpoint refsResolved (c : Converter) (known final : list string)
  (messages : list ProtoMessage) (complexTypes : list ComplexType) : Prop :=
  match messages, complexTypes with
  | [], [] => True
  | message :: messages', complexType :: complexTypes' =>
      Forall2
        (fun field declared =>
           TM.IsBuiltInType (typeMapper c) declared = false ->
           getArrayOfElementType c declared = "" ->
           TM.CleanTypeName declared ∈ ComplexType_Name complexType :: known ->
           ProtoField_Type field ∈ final)
        (ProtoMessage_Fields message) (memberTypes complexType)
      /\ refsResolved c (ComplexType_Name complexType :: known) final
           messages' complexTypes'
  | _, _ => False
  end.

(** *** The array-wrapper pattern *)

(** "An unbounded or >1 occurrence bound", in the words of the
    specification. *)
Definition boundAboveOne (maxOccurs : string) : Prop :=
  maxOccurs = "unbounded" \/ exists n : nat, (1 < n)%nat /\ maxOccurs = pretty n.

(** The array-wrapper pattern, in the words of the specification: "a
    complex type whose cleaned name starts with the literal prefix [ArrayOf]
    and whose content is exactly one sequence containing exactly one element
    with an unbounded or >1 occurrence bound". *)
Definition arrayWrapperPattern (complexType : ComplexType) : Prop :=
  strings.HasPrefix (TM.CleanTypeName (ComplexType_Name complexType)) "ArrayOf"
  = true
  /\ ComplexType_Choice complexType = None
  /\ ComplexType_Attributes complexType = []
  /\ exists inner,
       sequenceElements complexType = [inner]
       /\ boundAboveOne (Element_MaxOccurs inner).

(** What the converter tests of the pattern, in the same words: the name
    and the sequence only, and any bound that is neither absent nor [1]. *)
Definition wrapperTest (complexType : ComplexType) : Prop :=
  strings.HasPrefix (TM.CleanTypeName (ComplexType_Name complexType)) "ArrayOf"
  = true
  /\ match sequenceElements complexType with
     | [inner] =>
         Element_MaxOccurs inner = "unbounded"
         \/ (Element_MaxOccurs inner <> "" /\ Element_MaxOccurs inner <> "1")
     | _ => False
     end.

#[global] Instance wrapperTest_dec (complexType : ComplexType) :
  Decision (wrapperTest complexType).
Proof.
  unfold wrapperTest.
  destruct (sequenceElements complexType) as [|inner [|second rest]]; apply _.
Defined.

(** The wrapper a declared type refers to: the first top-level complex type
    that passes the test and has the cleaned name of the declared type. *)
Definition firstWrapper (schema : Schema) (typeName : string)
  : option ComplexType :=
  head (filter
          (fun w => wrapperTest w
                    /\ TM.CleanTypeName (ComplexType_Name w)
                       = TM.CleanTypeName typeName)
          (ComplexTypes schema)).

(** The complex types that become messages, without a word of the code:
    the top-level ones that do not pass the test, then the inline types of
    the top-level elements. *)
Definition convertedTypes (schema : Schema) : list ComplexType :=
  (filter (fun complexType => ~ wrapperTest complexType) (ComplexTypes schema)
   ++ omap namedInline (Elements schema))%list.

(** *** Schemas around array wrappers *)

(** An attribute whose declared type is a wrapper. *)
Definition attributeSchema : Schema :=
  schemaOf "" []
    [arrayOfFoo; ct "Foo" [el "id" "xs:string" "" ""];
     mkComplexType "Bar" None None [mkAttribute "items" "tns:ArrayOfFoo" ""]]
    [].

(** A wrapper that is the inline type of a top-level element. *)
Definition inlineWrapperSchema : Schema :=
  schemaOf ""
    [mkElement "foos" "" "" "" (Some arrayOfFoo) None]
    [ct "Foo" [el "id" "xs:string" "" ""]]
    [].

(** A wrapper whose inner element declares no type. *)
Definition arrayOfAny : ComplexType :=
  ct "ArrayOfAny" [el "item" "" "0" "unbounded"].

Definition untypedWrapperSchema : Schema :=
  schemaOf "" []
    [arrayOfAny; ct "Bar" [el "items" "tns:ArrayOfAny" "" ""]]
    [].

(** A type that is no wrapper by the pattern (it has an attribute, and the
    bound of its element is [0]), declared before the wrapper of the same
    name. *)
Definition countedArrayOfFoo : ComplexType :=
  mkComplexType "ArrayOfFoo"
    (Some (mkSequence [el "Bar" "tns:Bar" "" "0"] "" "")) None
    [mkAttribute "count" "xs:int" ""].

Definition shadowedWrapperSchema : Schema :=
  schemaOf "" []
    [countedArrayOfFoo; arrayOfFoo;
     ct "Holder" [el "items" "tns:ArrayOfFoo" "" ""]]
    [].

(** *** The declaration a reference resolves to *)

(** In a list of declarations, the latest first, each with its original
    name and the name it is emitted under: the emitted name of the latest
    declaration called [original]. *)
Fixpoint lastDeclared (declared : list (string * string)) (original : string)
  : option string :=
  match declared with
  | [] => None
  | (o, name) :: earlier =>
      if decide (o = original) then Some name else lastDeclared earlier original
  end.

(** In [messages], the conversions of [complexTypes] in this order after
    the declarations [declared], the type of a field is the emitted name of
    the latest declaration that has the cleaned declared type of its member
    as original name, among [declared], the complex types before that of the
    message and this one itself, whenever there is one; provided the
    declared type is not built-in and, for an element, does not collapse to
    the inner type of an array wrapper. *)
Fixpoint refsToLast (c : Converter) (schema : Schema)
  (declared : list (string * string)) (messages : list ProtoMessage)
  (complexTypes : list ComplexType) : Prop :=
  match messages, complexTypes with
  | [], [] => True
  | message :: messages', complexType :: complexTypes' =>
      let declared' :=
        (ComplexType_Name complexType, ProtoMessage_Name message) :: declared in
      (exists elementPart attributePart,
         ProtoMessage_Fields message = (elementPart ++ attributePart)%list
         /\ Forall2
              (fun field element =>
                 TM.IsBuiltInType (typeMapper c) (Element_Type element) = false ->
                 collapsedType c schema (Element_Type element) = None ->
                 forall name,
                   lastDeclared declared'
                     (TM.CleanTypeName (Element_Type element)) = Some name ->
                   ProtoField_Type field = name)
              elementPart
              (sequenceElements complexType ++ choiceElements complexType)%list
         /\ Forall2
              (fun field attribute =>
                 TM.IsBuiltInType (typeMapper c) (Attribute_Type attribute) = false ->
                 forall name,
                   lastDeclared declared'
                     (TM.CleanTypeName (Attribute_Type attribute)) = Some name ->
                   ProtoField_Type field = name)
              attributePart (ComplexType_Attributes complexType))
      /\ refsToLast c schema declared' messages' complexTypes'
  | _, _ => False
  end.

(** The rename map holds, for every original name among [declared], the
    emitted name of the latest declaration of that name. *)
Definition recorded (c : Converter) (declared : list (string * string)) : Prop :=
  forall original name : string,
    lastDeclared declared original = Some name ->
    typeRenameMap c !! original = Some name.

Local Close Scope conv_scope.

(** * Properties *)

(** ** The naming functions on sample names *)

Example CleanTypeName_prefixed_name : TM.CleanTypeName "xs:string" = "string".
Proof. reflexivity. Qed.

Example Split_keeps_empty_pieces :
  strings.Split "a/b//c" "/" = ["a"; "b"; ""; "c"] /\ strings.Split "" "/" = [""].
Proof. split; reflexivity. Qed.

Example FieldsFunc_drops_empty_fields :
  strings.FieldsFunc "__ab_c-d." isSeparator = ["ab"; "c"; "d"].
Proof. vm_compute. reflexivity. Qed.

Example toPascalCase_samples :
  toPascalCase "first_name" = "FirstName" /\ toPascalCase "person" = "Person"
  /\ toPascalCase "PERSON" = "PERSON"
  /\ toPascalCase "fixtureType.x-y" = "FixtureTypeXY".
Proof. vm_compute. repeat split. Qed.

Example toSnakeCase_samples :
  toSnakeCase "FixtureType" = "fixture_type"
  /\ toSnakeCase "postal-Code.x" = "postal__code_x".
Proof. vm_compute. repeat split. Qed.

Example toCamelCase_sample : toCamelCase "Postal_code" = "postalCode".
Proof. vm_compute. reflexivity. Qed.

Example Sprintf_sd_sample : Sprintf_sd "Person" 12 = "Person12".
Proof. vm_compute. reflexivity. Qed.

Example generatePackageName_samples :
  generatePackageName "http://example.com/simple" = "simple"
  /\ generatePackageName "http://example.com/" = ""
  /\ generatePackageName "http://example.com/a/b/" = "example.com.a.b"
  /\ generatePackageName "./schemas/common/types" = "schemas.common.types"
  /\ generatePackageName "urn:example:types" = "types"
  /\ generatePackageName "/my_ns/v1" = "my.ns.v1".
Proof. vm_compute. repeat split. Qed.

Section StringFacts.

Lemma string_app_cons (a : ascii) (s1 s2 : string) :
  String a s1 +:+ s2 = String a (s1 +:+ s2).
Proof. reflexivity. Qed.

Lemma string_app_assoc (s1 s2 s3 : string) : (s1 +:+ s2) +:+ s3 = s1 +:+ s2 +:+ s3.
Proof. induction s1 as [|a s1 IH]; [done|]. rewrite !string_app_cons. by rewrite IH. Qed.

Lemma string_app_length (s1 s2 : string) :
  String.length (s1 +:+ s2) = (String.length s1 + String.length s2)%nat.
Proof. induction s1 as [|a s1 IH]; [done|]. rewrite string_app_cons. simpl. by rewrite IH. Qed.

Lemma string_app_nil_r (s : string) : s +:+ "" = s.
Proof. induction s as [|a s IH]; [done|]. rewrite string_app_cons. by rewrite IH. Qed.

Lemma HasPrefix_app (s pre : string) :
  strings.HasPrefix s pre = true <-> exists rest, s = pre +:+ rest.
Proof.
  unfold strings.HasPrefix. revert s.
  induction pre as [|a pre IH]; intros s.
  - destruct s; simpl; (split; [intros _; eexists; reflexivity | done]).
  - destruct s as [|b s]; simpl.
    + split; [done | intros [rest Hr]; discriminate].
    + destruct (ascii_dec a b) as [->|Hne].
      * rewrite IH. split; intros [rest Hr]; exists rest; rewrite ?string_app_cons in *; congruence.
      * split; [done | intros [rest Hr]; rewrite string_app_cons in Hr; congruence].
Qed.

Lemma dropChars_app (pre rest : string) :
  strings.dropChars (String.length pre) (pre +:+ rest) = rest.
Proof. induction pre as [|a pre IH]; [by destruct rest | by rewrite string_app_cons]. Qed.

Lemma TrimPrefix_app (pre rest : string) :
  strings.TrimPrefix (pre +:+ rest) pre = rest.
Proof.
  unfold strings.TrimPrefix.
  replace (strings.HasPrefix (pre +:+ rest) pre) with true.
  - apply dropChars_app.
  - symmetry. apply HasPrefix_app. by exists rest.
Qed.

Lemma LastIndex_app_sep (pre t : string) (sep : ascii) :
  strings.LastIndex t sep = None ->
  strings.LastIndex (pre +:+ String sep t) sep = Some (String.length pre).
Proof.
  intros Ht. induction pre as [|a pre IH].
  - change (strings.LastIndex (String sep t) sep = Some 0%nat).
    cbn. rewrite Ht. by rewrite decide_True.
  - rewrite string_app_cons. cbn. by rewrite IH.
Qed.

Lemma Split_nonempty (s : string) (sep : ascii) : strings.Split s sep <> [].
Proof.
  destruct s as [|c s]; simpl; [done|].
  destruct (decide (c = sep)); [done|]. by destruct (strings.Split s sep).
Qed.

Lemma at_index_last (parts : list string) :
  parts <> [] -> last parts = Some (at_index parts (length parts - 1)).
Proof.
  intros Hne. unfold at_index. rewrite last_lookup.
  replace (pred (length parts)) with (length parts - 1)%nat by lia.
  destruct (parts !! (length parts - 1)%nat) eqn:E; [done|].
  apply lookup_ge_None in E. destruct parts; simpl in *; [done | lia].
Qed.

End StringFacts.

Section TypeMapperFacts.

Lemma CleanTypeName_prefixed (pre t : string) :
  strings.LastIndex t ":" = None ->
  TM.CleanTypeName (pre +:+ ":" +:+ t) = t.
Proof.
  intros Ht. unfold TM.CleanTypeName.
  change (":" +:+ t) with (String ":" t).
  rewrite (LastIndex_app_sep pre t ":" Ht).
  replace (String.length pre + 1)%nat with (String.length (pre +:+ ":")).
  - change (String ":" t) with (":" +:+ t).
    rewrite <- string_app_assoc. apply dropChars_app.
  - rewrite string_app_length. reflexivity.
Qed.

Lemma CleanTypeName_plain (t : string) :
  strings.LastIndex t ":" = None -> TM.CleanTypeName t = t.
Proof. intros Ht. unfold TM.CleanTypeName. by rewrite Ht. Qed.

Lemma table_names_plain :
  Forall (fun t => strings.LastIndex t ":" = None) (map fst xsdTable).
Proof. repeat constructor. Qed.

Lemma MapXSDType_no_custom (tm : TypeMapper) (t : string) :
  customMappings tm !! TM.CleanTypeName t = None ->
  TM.MapXSDType tm t = TM.MapXSDType NewTypeMapper t.
Proof.
  intros Hno. unfold TM.MapXSDType. rewrite Hno.
  change (customMappings NewTypeMapper) with (∅ : gmap string string).
  by rewrite lookup_empty.
Qed.

Lemma table_rows_mapped :
  Forall (fun row => TM.MapXSDType NewTypeMapper row.1 = Ok row.2) xsdTable.
Proof. repeat constructor. Qed.

Lemma IsBuiltInType_table (tm : TypeMapper) (t : string) :
  TM.IsBuiltInType tm t = true <-> TM.CleanTypeName t ∈ map fst xsdTable.
Proof.
  unfold TM.IsBuiltInType. generalize (TM.CleanTypeName t) as s. intros s.
  split.
  - destruct (_ !! s) as [b|] eqn:E; simpl; [|done].
    intros ->. apply elem_of_list_to_map_2 in E.
    apply (list_elem_of_fmap_2 fst) in E. exact E.
  - intros Hin. 
    assert (Hall : Forall (fun n => default false
       ((list_to_map TM.builtInTypes : gmap string bool) !! n) = true)
       (map fst xsdTable)) by (repeat constructor).
    rewrite Forall_forall in Hall. by apply Hall.
Qed.

Lemma MapXSDType_custom (tm : TypeMapper) (t : string) :
  customMappings tm !! TM.CleanTypeName t = None ->
  TM.IsBuiltInType tm t = false ->
  TM.MapXSDType tm t = Ok (TM.CleanTypeName t).
Proof.
  intros Hno Hb.
  assert (Hnot : TM.CleanTypeName t ∉ map fst xsdTable).
  { intros Hin. apply (IsBuiltInType_table tm) in Hin. congruence. }
  unfold TM.MapXSDType. rewrite Hno.
  revert Hnot. generalize (TM.CleanTypeName t) as s. intros s Hnot.
  unfold oneOf.
  repeat match goal with
         | |- context [bool_decide (s ∈ ?l)] =>
             destruct (bool_decide_reflect (s ∈ l)) as [Hc|_];
             [exfalso; apply Hnot;
              assert (Hl : Forall (fun x => x ∈ map fst xsdTable) l)
                by (repeat constructor; apply bool_decide_unpack;
                    vm_compute; exact I);
              rewrite Forall_forall in Hl; exact (Hl s Hc) |]
         end.
  reflexivity.
Qed.

(** The mapper never fails. *)
Lemma MapXSDType_total (tm : TypeMapper) (t : string) :
  exists protoType, TM.MapXSDType tm t = Ok protoType.
Proof.
  unfold TM.MapXSDType. destruct (customMappings tm !! _); [eauto|].
  repeat (case_match; [eauto|]). eauto.
Qed.

End TypeMapperFacts.

(** C7. For a built-in XSD type name [t], mapping [t] behind any namespace
    prefix gives what mapping [t] alone gives; with no custom mapping in the
    table, that result is the Protobuf type of the fixed table, and a name
    that is not built-in maps to its prefix-stripped form. *)
Theorem MapXSDType_prefix_table (tm : TypeMapper) (pre t : string) :
  (t ∈ map fst xsdTable ->
     TM.MapXSDType tm (pre +:+ ":" +:+ t) = TM.MapXSDType tm t)
  /\ (customMappings tm = ∅ ->
      (forall p, (t, p) ∈ xsdTable ->
         TM.MapXSDType tm (pre +:+ ":" +:+ t) = Ok p
         /\ TM.MapXSDType tm t = Ok p)
      /\ (TM.IsBuiltInType tm t = false ->
          TM.MapXSDType tm t = Ok (TM.CleanTypeName t))).
Proof.
  assert (Hpre : t ∈ map fst xsdTable ->
     TM.MapXSDType tm (pre +:+ ":" +:+ t) = TM.MapXSDType tm t).
  { intros Hin.
    pose proof table_names_plain as Hplain. rewrite Forall_forall in Hplain.
    specialize (Hplain t Hin). unfold TM.MapXSDType.
    by rewrite (CleanTypeName_prefixed pre t Hplain), (CleanTypeName_plain t Hplain). }
  split; [exact Hpre|]. intros Hempty. split.
  - intros p Hrow.
    assert (Hin : t ∈ map fst xsdTable) by (apply (list_elem_of_fmap_2 fst) in Hrow; exact Hrow).
    rewrite (Hpre Hin).
    pose proof table_rows_mapped as Hrows. rewrite Forall_forall in Hrows.
    specialize (Hrows (t, p) Hrow). simpl in Hrows.
    rewrite MapXSDType_no_custom; [done|]. rewrite Hempty. apply lookup_empty.
  - intros Hb. apply MapXSDType_custom; [|done]. rewrite Hempty. apply lookup_empty.
Qed.

Lemma MapXSDType_prefix_table_witness :
  TM.MapXSDType NewTypeMapper ("xs" +:+ ":" +:+ "unsignedInt")
    = TM.MapXSDType NewTypeMapper "unsignedInt"
  /\ TM.MapXSDType NewTypeMapper ("xs" +:+ ":" +:+ "unsignedInt") = Ok "int64"
  /\ TM.MapXSDType NewTypeMapper "tns:Person" = Ok "Person".
Proof.
  split; [|split].
  - apply (proj1 (MapXSDType_prefix_table NewTypeMapper "xs" "unsignedInt")).
    vm_compute. set_solver.
  - apply (proj2 (MapXSDType_prefix_table NewTypeMapper "xs" "unsignedInt")
             eq_refl).
    set_solver.
  - apply (proj2 (proj2 (MapXSDType_prefix_table NewTypeMapper "" "tns:Person")
             eq_refl)).
    vm_compute. reflexivity.
Defined.

Section PackageName.

Lemma urn_branch (rest : string) :
  generatePackageName ("urn:" +:+ rest)
  = at_index (strings.Split ("urn:" +:+ rest) ":")
      (length (strings.Split ("urn:" +:+ rest) ":") - 1).
Proof.
  unfold generatePackageName.
  change ("urn:" +:+ rest) with (String "u" (String "r" (String "n" (String ":" rest)))).
  rewrite bool_decide_eq_false_2 by discriminate.
  change (strings.HasPrefix (String "u" (String "r" (String "n" (String ":" rest)))) "http://") with false.
  change (strings.HasPrefix (String "u" (String "r" (String "n" (String ":" rest)))) "https://") with false.
  change (strings.HasPrefix (String "u" (String "r" (String "n" (String ":" rest)))) "./") with false.
  cbn [orb].
  replace (strings.HasPrefix (String "u" (String "r" (String "n" (String ":" rest)))) "urn:") with true
    by (unfold strings.HasPrefix; simpl; by destruct rest).
  destruct (strings.Split _ ":") eqn:E; [by apply Split_nonempty in E|].
  reflexivity.
Qed.

Lemma http_branch (ns : string) :
  strings.HasPrefix ns "http://" = true \/ strings.HasPrefix ns "https://" = true ->
  let parts :=
    strings.Split
      (strings.TrimPrefix (strings.TrimPrefix ns "http://") "https://") "/" in
  generatePackageName ns =
    if bool_decide (length parts = 2%nat) then at_index parts 1
    else if (1 <? length parts)%nat
            && nonEmpty (at_index parts (length parts - 1))
    then at_index parts (length parts - 1)
    else
      strings.Join
        (let packageParts :=
           if nonEmpty (at_index parts 0)
           then strings.Split (at_index parts 0) "." else [] in
         if (1 <? length parts)%nat
         then packageParts
                ++ filter (fun part => part <> EmptyString) (drop 1 parts)
         else packageParts) ".".
Proof.
  intros Hpre parts. unfold generatePackageName.
  rewrite bool_decide_eq_false_2.
  - replace (strings.HasPrefix ns "http://" || strings.HasPrefix ns "https://")
      with true by (symmetry; apply orb_true_iff; exact Hpre).
    reflexivity.
  - intros ->. destruct Hpre as [H|H]; discriminate.
Qed.

End PackageName.

(** C8 (as amended).  An empty namespace gives [generated]; a [urn:]
    namespace gives its last colon-separated segment, empty or not; an
    [http://] or [https://] namespace whose remainder splits on [/] into
    exactly two segments gives the second, and one with more than one
    segment and a non-empty last segment gives that last segment. *)
Theorem generatePackageName_cases :
  generatePackageName "" = "generated"
  /\ (forall ns, strings.HasPrefix ns "urn:" = true ->
        last (strings.Split ns ":") = Some (generatePackageName ns))
  /\ (forall ns,
        strings.HasPrefix ns "http://" = true
        \/ strings.HasPrefix ns "https://" = true ->
        let parts :=
          strings.Split
            (strings.TrimPrefix (strings.TrimPrefix ns "http://") "https://")
            "/" in
        (length parts = 2%nat -> parts !! 1%nat = Some (generatePackageName ns))
        /\ (forall lastPart,
              (1 < length parts)%nat -> last parts = Some lastPart ->
              lastPart <> "" -> generatePackageName ns = lastPart)).
Proof.
  split; [reflexivity|]. split.
  - intros ns Hpre. apply HasPrefix_app in Hpre as [rest ->].
    rewrite urn_branch. apply at_index_last, Split_nonempty.
  - intros ns Hpre parts. rewrite (http_branch ns Hpre). fold parts. split.
    + intros Hlen. rewrite bool_decide_eq_true_2 by done.
      unfold at_index. destruct (parts !! 1%nat) eqn:E; [done|].
      apply lookup_ge_None in E. lia.
    + intros lastPart Hlen Hlast Hne.
      assert (Hat : at_index parts (length parts - 1) = lastPart).
      { rewrite at_index_last in Hlast by (intros E; rewrite E in Hlen; simpl in Hlen; lia).
        congruence. }
      case_bool_decide as H2.
      * rewrite H2 in Hat. exact Hat.
      * rewrite Hat.
        replace (1 <? length parts)%nat with true by (symmetry; apply Nat.ltb_lt; lia).
        unfold nonEmpty. rewrite bool_decide_eq_false_2 by done. reflexivity.
Qed.

Lemma generatePackageName_cases_witness :
  last (strings.Split "urn:example:types" ":") = Some "types"
  /\ ["example.com"; "simple"] !! 1%nat = Some "simple"
  /\ generatePackageName "https://example.com/api/v1" = "v1".
Proof.
  split; [|split].
  - apply (proj1 (proj2 generatePackageName_cases) "urn:example:types").
    reflexivity.
  - apply (proj1 (proj2 (proj2 generatePackageName_cases)
                    "http://example.com/simple" (or_introl eq_refl))).
    reflexivity.
  - apply (proj2 (proj2 (proj2 generatePackageName_cases)
                    "https://example.com/api/v1" (or_intror eq_refl)) "v1").
    + vm_compute. lia.
    + reflexivity.
    + discriminate.
Defined.

(** C8 as stated fails: the last segment of a [urn:] namespace is returned
    even when it is empty, where the last non-empty one is asked for. *)
Lemma urn_trailing_colon :
  strings.HasPrefix "urn:example:" "urn:" = true
  /\ lastNonEmpty (strings.Split "urn:example:" ":") = Some "example"
  /\ generatePackageName "urn:example:" = ""
  /\ Some (generatePackageName "urn:example:")
     <> lastNonEmpty (strings.Split "urn:example:" ":").
Proof. vm_compute. repeat split; discriminate. Qed.

(** ** The search loops of the name generators *)

Section Search.

Context (isUsed : string -> bool) (name : string).

Lemma Sprintf_sd_inj (k1 k2 : nat) :
  Sprintf_sd name k1 = Sprintf_sd name k2 -> k1 = k2.
Proof.
  unfold Sprintf_sd. intros H.
  apply (inj (String.append name)) in H. by apply (inj pretty) in H.
Qed.

(** What the loop computes within its bound. *)
Lemma searchCounter_bounded (fuel : nat) : forall start : nat,
  let k := searchCounter isUsed name fuel start in
  (start <= k <= start + fuel)%nat
  /\ (forall j, (start <= j < k)%nat -> isUsed (Sprintf_sd name j) = true)
  /\ ((k < start + fuel)%nat -> isUsed (Sprintf_sd name k) = false).
Proof.
  induction fuel as [|fuel IH]; intros start; simpl.
  - split; [lia|]. split; intros; exfalso; lia.
  - destruct (isUsed (Sprintf_sd name start)) eqn:E.
    + destruct (IH (S start)) as (Hb & Hbelow & Hat).
      split; [lia|]. split.
      * intros j Hj. destruct (decide (j = start)) as [->|]; [done|].
        apply Hbelow. lia.
      * intros Hlt. apply Hat. lia.
    + split; [lia|]. split; [intros; exfalso; lia | done].
Qed.

(** One more round than there are used names always suffices: the loop
    leaves at the least counter whose candidate is unused. *)
Lemma searchCounter_spec (used : gset string) (fuel start : nat) :
  (forall n, isUsed n = true <-> n ∈ used) ->
  (size used < fuel)%nat ->
  let k := searchCounter isUsed name fuel start in
  (start <= k)%nat
  /\ (Sprintf_sd name k ∉ used)
  /\ (forall j, (start <= j < k)%nat -> Sprintf_sd name j ∈ used).
Proof.
  intros Hused Hfuel k.
  destruct (searchCounter_bounded fuel start) as (Hb & Hbelow & Hat).
  fold k in Hb, Hbelow, Hat.
  split; [lia|]. split.
  - destruct (decide (k < start + fuel)%nat) as [Hlt|Hge].
    + intros Hin. apply Hused in Hin. rewrite (Hat Hlt) in Hin. done.
    + exfalso. assert (k = (start + fuel)%nat) as Hk by lia.
      assert (Hsub : map (Sprintf_sd name) (seq start fuel) ⊆+ elements used).
      { apply NoDup_submseteq.
        - apply NoDup_fmap_2; [|apply NoDup_seq].
          intros a b. apply Sprintf_sd_inj.
        - intros x Hx. apply list_elem_of_fmap in Hx as (j & -> & Hj).
          apply elem_of_seq in Hj. apply elem_of_elements, Hused, Hbelow. lia. }
      apply submseteq_length in Hsub.
      rewrite length_map, length_seq in Hsub.
      change (length (elements used)) with (size used) in Hsub. lia.
  - intros j Hj. apply Hused. by apply Hbelow.
Qed.

End Search.

Section NameGenerators.

Lemma nameUsed_iff (c : Converter) (n : string) :
  nameUsed c n = true <-> n ∈ usedNames c.
Proof.
  unfold nameUsed, usedNames. rewrite orb_true_iff, !bool_decide_eq_true.
  set_solver.
Qed.

Lemma pickName_assigned (c : Converter) (formatted : string) :
  formatted ∈ usedNames c ->
  assigned 2 (usedNames c) formatted
    (Sprintf_sd formatted (searchCounter (nameUsed c) formatted (nameRounds c) 2)).
Proof.
  intros Hin. right. split; [done|].
  destruct (searchCounter_spec (nameUsed c) formatted (usedNames c)
              (nameRounds c) 2 (nameUsed_iff c)) as (H1 & H2 & H3).
  { unfold nameRounds, usedNames. lia. }
  eexists. split; [exact H1|]. split; [reflexivity|]. split; [exact H2|exact H3].
Qed.

Lemma generateUniqueMessageName_run (original : string) (c : Converter) :
  exists name,
    generateUniqueMessageName original c
      = (Ok name, registerMessage original name c)
    /\ assigned 2 (usedNames c) (toPascalCase original) name.
Proof.
  unfold generateUniqueMessageName, formatMessageName.
  destruct (negb (bool_decide (toPascalCase original ∈ usedMessageNames c))
            && negb (bool_decide (toPascalCase original ∈ usedEnumNames c))) eqn:E.
  - eexists. split; [reflexivity|]. left. split; [|done].
    apply andb_true_iff in E as [E1 E2].
    apply negb_true_iff, bool_decide_eq_false in E1.
    apply negb_true_iff, bool_decide_eq_false in E2.
    unfold usedNames. set_solver.
  - eexists. split; [reflexivity|]. apply pickName_assigned.
    apply andb_false_iff in E as [E|E];
      apply negb_false_iff, bool_decide_eq_true in E; unfold usedNames; set_solver.
Qed.

Lemma generateUniqueEnumName_run (original : string) (c : Converter) :
  exists name,
    generateUniqueEnumName original c
      = (Ok name, registerEnum original name c)
    /\ assigned 2 (usedNames c) (toPascalCase original) name.
Proof.
  unfold generateUniqueEnumName, formatEnumName.
  destruct (negb (bool_decide (toPascalCase original ∈ usedEnumNames c))
            && negb (bool_decide (toPascalCase original ∈ usedMessageNames c))) eqn:E.
  - eexists. split; [reflexivity|]. left. split; [|done].
    apply andb_true_iff in E as [E1 E2].
    apply negb_true_iff, bool_decide_eq_false in E1.
    apply negb_true_iff, bool_decide_eq_false in E2.
    unfold usedNames. set_solver.
  - eexists. split; [reflexivity|]. apply pickName_assigned.
    apply andb_false_iff in E as [E|E];
      apply negb_false_iff, bool_decide_eq_true in E; unfold usedNames; set_solver.
Qed.

Lemma assigned_fresh (from : nat) (used : gset string) (formatted name : string) :
  assigned from used formatted name -> name ∉ used.
Proof. intros [[H ->]|(_ & k & _ & _ & H & _)]; done. Qed.

Lemma assigned_derivedName (used : gset string) (original name : string) :
  assigned 2 used (toPascalCase original) name -> derivedName original name.
Proof.
  intros [[_ ->]|(_ & k & Hk & -> & _)]; [by left|]. right. by exists k.
Qed.

Lemma usedNames_registerMessage (o n : string) (c : Converter) :
  usedNames (registerMessage o n c) = {[ n ]} ∪ usedNames c.
Proof. unfold usedNames, registerMessage. simpl. set_solver. Qed.

Lemma usedNames_registerEnum (o n : string) (c : Converter) :
  usedNames (registerEnum o n c) = {[ n ]} ∪ usedNames c.
Proof. unfold usedNames, registerEnum. simpl. set_solver. Qed.

Lemma namesAssigned_app (used : gset string) (os1 os2 ns1 ns2 : list string) :
  namesAssigned used os1 ns1 ->
  namesAssigned (list_to_set ns1 ∪ used) os2 ns2 ->
  namesAssigned used (os1 ++ os2) (ns1 ++ ns2).
Proof.
  revert used ns1. induction os1 as [|o os1 IH]; intros used [|n ns1]; simpl; try done.
  - intros _ H. replace used with ((∅ : gset string) ∪ used) by set_solver. exact H.
  - intros [Ha Hrest] H2. split; [done|]. apply IH; [done|].
    replace (list_to_set ns1 ∪ ({[n]} ∪ used)) with ({[n]} ∪ list_to_set ns1 ∪ used)
      by set_solver.
    exact H2.
Qed.

Lemma namesAssigned_NoDup (used : gset string) (os ns : list string) :
  namesAssigned used os ns ->
  NoDup ns /\ (forall n, n ∈ ns -> n ∉ used).
Proof.
  revert used ns. induction os as [|o os IH]; intros used [|n ns]; simpl; try done.
  - intros _. split; [constructor|]. intros n Hn. by apply elem_of_nil in Hn.
  - intros [Ha Hrest]. apply IH in Hrest as [Hnd Hfresh].
    apply assigned_fresh in Ha. split.
    + constructor; [|done]. intros Hin. apply Hfresh in Hin. set_solver.
    + intros x Hx. apply elem_of_cons in Hx as [->|Hx]; [done|].
      apply Hfresh in Hx. set_solver.
Qed.

End NameGenerators.

(** ** Fields and messages *)

Section Fields.

Lemma with_fieldCounter_same (c : Converter) :
  with_fieldCounter (fieldCounter c) c = c.
Proof. by destruct c. Qed.

Lemma arrayOfInnerType_env (c c' : Converter) (w : ComplexType) :
  typeMapper c' = typeMapper c ->
  arrayOfInnerType c' w = arrayOfInnerType c w.
Proof. intros H. unfold arrayOfInnerType. by rewrite H. Qed.

Lemma getArrayOfElementType_scan_env (c c' : Converter) (t : string)
  (cts : list ComplexType) :
  typeMapper c' = typeMapper c ->
  getArrayOfElementType_scan c' t cts = getArrayOfElementType_scan c t cts.
Proof.
  intros H. induction cts as [|w cts IH]; simpl; [done|].
  rewrite IH, (arrayOfInnerType_env c c' w H). reflexivity.
Qed.

Lemma getArrayOfElementType_env (c c' : Converter) (t : string) :
  typeMapper c' = typeMapper c ->
  ComplexTypes <$> currentSchema c' = ComplexTypes <$> currentSchema c ->
  getArrayOfElementType c' t = getArrayOfElementType c t.
Proof.
  intros Htm Hs. unfold getArrayOfElementType.
  destruct (negb _); [done|].
  destruct (currentSchema c') as [s'|], (currentSchema c) as [s|];
    simpl in Hs; try done.
  injection Hs as ->. by apply getArrayOfElementType_scan_env.
Qed.

Lemma fieldOfElement_counter (k : nat) (c : Converter) (n : nat) (e : Element) :
  fieldOfElement (with_fieldCounter k c) n e = fieldOfElement c n e.
Proof.
  unfold fieldOfElement.
  by rewrite (getArrayOfElementType_env c (with_fieldCounter k c)).
Qed.

Lemma convertElementToField_run (element : Element) (c : Converter) :
  convertElementToField element c
  = (Ok (fieldOfElement c (fieldCounter c) element),
     with_fieldCounter (fieldCounter c + 1) c).
Proof.
  unfold convertElementToField, fieldOfElement, mappedType, bind, gets, modify, ret.
  destruct (MapXSDType_total (typeMapper c) (Element_Type element)) as [p ->].
  destruct (nonEmpty (getArrayOfElementType c (Element_Type element))); reflexivity.
Qed.

Lemma convertChoiceElement_run (element : Element) (c : Converter) :
  convertChoiceElement element c
  = (Ok (with_Label FieldLabelOptional
           (fieldOfElement c (fieldCounter c) element)),
     with_fieldCounter (fieldCounter c + 1) c).
Proof.
  unfold convertChoiceElement, bind. by rewrite convertElementToField_run.
Qed.

Lemma convertAttributeToField_run (attribute : Attribute) (c : Converter) :
  convertAttributeToField attribute c
  = (Ok (fieldOfAttribute c (fieldCounter c) attribute),
     with_fieldCounter (fieldCounter c + 1) c).
Proof.
  unfold convertAttributeToField, fieldOfAttribute, mappedType, bind, gets, modify, ret.
  destruct (MapXSDType_total (typeMapper c) (Attribute_Type attribute)) as [p ->].
  reflexivity.
Qed.

(** A loop of field conversions numbers its fields from the counter on. *)
Lemma forEach_fields {A : Type} (f : A -> M ProtoField)
  (pure : Converter -> nat -> A -> ProtoField) :
  (forall a c, f a c = (Ok (pure c (fieldCounter c) a),
                        with_fieldCounter (fieldCounter c + 1) c)) ->
  (forall k c n a, pure (with_fieldCounter k c) n a = pure c n a) ->
  forall (xs : list A) (c : Converter),
    forEach f xs c
    = (Ok (imap (fun i => pure c (fieldCounter c + i)) xs),
       with_fieldCounter (fieldCounter c + length xs) c).
Proof.
  intros Hf Hpure xs. induction xs as [|x xs IH]; intros c; simpl.
  - unfold ret. by rewrite Nat.add_0_r, with_fieldCounter_same.
  - unfold bind. rewrite Hf, IH. unfold ret. simpl. f_equal.
    + f_equal. rewrite Nat.add_0_r. f_equal.
      apply imap_ext. intros i y _. simpl. rewrite Hpure. f_equal. lia.
    + change (with_fieldCounter ?a (with_fieldCounter ?b c)) with (with_fieldCounter a c).
      f_equal. lia.
Qed.

Lemma convertComplexType_run (complexType : ComplexType) (c : Converter) :
  exists name,
    assigned 2 (usedNames c) (toPascalCase (ComplexType_Name complexType)) name
    /\ convertComplexType complexType c
       = (Ok (messageOf (registerMessage (ComplexType_Name complexType) name c)
                name complexType),
          with_fieldCounter
            (1 + length (sequenceElements complexType)
             + length (choiceElements complexType)
             + length (ComplexType_Attributes complexType))
            (registerMessage (ComplexType_Name complexType) name c)).
Proof.
  destruct (generateUniqueMessageName_run (ComplexType_Name complexType) c)
    as (name & Hrun & Hname).
  exists name. split; [exact Hname|].
  unfold convertComplexType, bind at 1. rewrite Hrun.
  set (c1 := registerMessage _ name c).
  unfold bind at 1, modify at 1.
  assert (Hseq : (match ComplexType_Sequence complexType with
                  | Some sq => forEach convertElementToField (Sequence_Elements sq)
                  | None => ret []
                  end) = forEach convertElementToField (sequenceElements complexType)).
  { unfold sequenceElements. by destruct (ComplexType_Sequence complexType). }
  assert (Hch : (match ComplexType_Choice complexType with
                 | Some ch => forEach convertChoiceElement (Choice_Elements ch)
                 | None => ret []
                 end) = forEach convertChoiceElement (choiceElements complexType)).
  { unfold choiceElements. by destruct (ComplexType_Choice complexType). }
  rewrite Hseq, Hch. clear Hseq Hch.
  unfold bind at 1.
  rewrite (forEach_fields convertElementToField fieldOfElement
             convertElementToField_run fieldOfElement_counter).
  unfold bind at 1.
  rewrite (forEach_fields convertChoiceElement
             (fun c n e => with_Label FieldLabelOptional (fieldOfElement c n e))
             convertChoiceElement_run
             (fun k c n e => f_equal _ (fieldOfElement_counter k c n e))).
  unfold bind at 1.
  rewrite (forEach_fields convertAttributeToField fieldOfAttribute
             convertAttributeToField_run (fun _ _ _ _ => eq_refl)).
  unfold ret, messageOf, sequenceFields, choiceFields, attributeFields.
  simpl. do 3 f_equal.
  f_equal; [|f_equal]; apply imap_ext; intros i y _; simpl;
    rewrite ?fieldOfElement_counter; f_equal; try f_equal; lia.
Qed.

End Fields.

(** ** Enums *)

Section Enums.

Lemma generateUniqueEnumValueName_run (enumName valueName : string)
  (isFirstValue : bool) (c : Converter) :
  exists name counters,
    generateUniqueEnumValueName enumName valueName isFirstValue c
      = (Ok name, registerValue name counters c)
    /\ valueAssigned (usedEnumValues c)
         (if isFirstValue then enumPrefixOf enumName +:+ "_UNSPECIFIED"
          else enumPrefixOf enumName +:+ "_" +:+ strings.ToUpper valueName)
         name.
Proof.
  unfold generateUniqueEnumValueName, enumPrefixOf.
  set (base := if isFirstValue then _ else _).
  destruct (decide (base ∈ usedEnumValues c)) as [Hin|Hout].
  - rewrite (bool_decide_eq_true_2 _ Hin). cbn [negb].
    set (k := searchCounter _ base _ _).
    exists (Sprintf_sd base k), (<[base := k]> (enumValueCounters c)).
    split; [reflexivity|]. subst k.
    destruct (searchCounter_spec
                (fun n => bool_decide (n ∈ usedEnumValues c)) base
                (usedEnumValues c) (S (size (usedEnumValues c)))
                (default 0%nat (enumValueCounters c !! base) + 1))
      as (H1 & H2 & _).
    { intros n. apply bool_decide_eq_true. }
    { lia. }
    split; [exact H2|]. right. split; [exact Hin|].
    eexists. split; [|reflexivity].
    eapply Nat.le_trans; [|exact H1]. lia.
  - rewrite (bool_decide_eq_false_2 _ Hout). cbn [negb].
    exists base, (enumValueCounters c). split.
    + unfold registerValue. by destruct c.
    + split; [exact Hout|]. left. split; [exact Hout|reflexivity].
Qed.

Lemma convertEnumerations_run (uniqueEnumName : string)
  (enumerations : list Enumeration) :
  forall (i : nat) (c : Converter),
  exists values used counters,
    convertEnumerations uniqueEnumName i enumerations c
      = (Ok values, with_enumValueCounters counters (with_usedEnumValues used c))
    /\ used = list_to_set (map ProtoEnumValue_Name values) ∪ usedEnumValues c
    /\ valuesAssigned (usedEnumValues c) (enumPrefixOf uniqueEnumName) (i + 1)
         enumerations values.
Proof.
  induction enumerations as [|en ens IH]; intros i c; simpl.
  - exists [], (usedEnumValues c), (enumValueCounters c).
    split; [unfold ret; by destruct c|]. split; [set_solver|done].
  - destruct (generateUniqueEnumValueName_run uniqueEnumName
                (Enumeration_Value en) false c) as (name & m & Hrun & Hname).
    unfold bind at 1. rewrite Hrun.
    destruct (IH (S i) (registerValue name m c)) as (vs & u & m' & Hrest & Hu & Hvs).
    unfold bind at 1. rewrite Hrest. unfold ret.
    eexists _, u, m'. split; [reflexivity|]. split.
    + rewrite Hu. simpl. set_solver.
    + simpl. split; [done|]. split; [exact Hname|].
      replace (S (i + 1)) with (S i + 1)%nat by lia. exact Hvs.
Qed.

Lemma hasEnumerations_Some (simpleType : SimpleType) :
  hasEnumerations simpleType = true ->
  exists restriction, SimpleType_Restriction simpleType = Some restriction.
Proof.
  unfold hasEnumerations. destruct (SimpleType_Restriction simpleType); [eauto|done].
Qed.

Lemma convertSimpleTypeToEnum_run (simpleType : SimpleType) (c : Converter) :
  hasEnumerations simpleType = true ->
  exists enum used counters,
    convertSimpleTypeToEnum simpleType c
      = (Ok enum,
         with_enumValueCounters counters
           (with_usedEnumValues used
              (registerEnum (SimpleType_Name simpleType) (ProtoEnum_Name enum) c)))
    /\ assigned 2 (usedNames c) (toPascalCase (SimpleType_Name simpleType))
         (ProtoEnum_Name enum)
    /\ used = valueNames enum ∪ usedEnumValues c
    /\ enumAssigned (usedEnumValues c) simpleType enum.
Proof.
  intros Hhas. destruct (hasEnumerations_Some _ Hhas) as [restriction Hr].
  unfold convertSimpleTypeToEnum.
  destruct (generateUniqueEnumName_run (SimpleType_Name simpleType) c)
    as (name & Hrun & Hname).
  unfold bind at 1. rewrite Hrun. set (c1 := registerEnum _ name c).
  destruct (generateUniqueEnumValueName_run name "UNSPECIFIED" true c1)
    as (first & m & Hfirst & Hfa).
  unfold bind at 1. rewrite Hfirst. rewrite Hr.
  destruct (convertEnumerations_run name (Enumerations restriction) 0
              (registerValue first m c1)) as (vs & u & m' & Hvs & Hu & Hva).
  unfold bind at 1. rewrite Hvs. unfold ret.
  exists (mkProtoEnum name (mkProtoEnumValue first 0 :: vs)), u, m'.
  split; [reflexivity|]. cbn [ProtoEnum_Name ProtoEnum_Values].
  split; [exact Hname|]. split.
  - rewrite Hu. unfold valueNames. cbn [ProtoEnum_Values map ProtoEnumValue_Name].
    change (usedEnumValues (registerValue first m c1))
      with ({[ first ]} ∪ usedEnumValues c).
    rewrite list_to_set_cons, (assoc_L (∪)).
    f_equal. apply (comm_L (∪)).
  - exists (mkProtoEnumValue first 0), vs. split; [reflexivity|].
    split; [reflexivity|]. split; [exact Hfa|].
    unfold enumerationsOf. rewrite Hr. exact Hva.
Qed.

Lemma valuesAssigned_numbers (used : gset string) (pre : string)
  (enumerations : list Enumeration) :
  forall (number : nat) (values : list ProtoEnumValue) (u : gset string),
    valuesAssigned u pre number enumerations values ->
    map ProtoEnumValue_Number values = seq number (length enumerations).
Proof.
  induction enumerations as [|en ens IH]; intros number [|v vs] u; simpl; try done.
  intros (Hn & _ & Hrest). rewrite Hn. f_equal. by eapply IH.
Qed.

Lemma enumAssigned_numbers (used : gset string) (simpleType : SimpleType)
  (enum : ProtoEnum) :
  enumAssigned used simpleType enum ->
  map ProtoEnumValue_Number (ProtoEnum_Values enum)
  = seq 0 (S (length (enumerationsOf simpleType))).
Proof.
  intros (first & rest & -> & H0 & _ & Hrest). simpl. rewrite H0. f_equal.
  by eapply (valuesAssigned_numbers used).
Qed.

End Enums.

(** ** The three passes *)

Section Passes.

Lemma sameEnv_refl (c : Converter) : sameEnv c c.
Proof. by repeat split. Qed.

Lemma sameEnv_trans (c1 c2 c3 : Converter) :
  sameEnv c1 c2 -> sameEnv c2 c3 -> sameEnv c1 c3.
Proof.
  intros (A1 & A2 & A3 & A4) (B1 & B2 & B3 & B4).
  repeat split; congruence.
Qed.

Lemma converted_env (c c' : Converter) (m : ProtoMessage) (ct : ComplexType) :
  sameEnv c c' -> converted c' m ct -> converted c m ct.
Proof.
  intros H (c1 & H1 & Hd & Hm). exists c1.
  split; [by eapply sameEnv_trans|]. split; [exact Hd|exact Hm].
Qed.

(** First pass. *)
Lemma convertSimpleTypes_run (simpleTypes : list SimpleType) :
  forall c : Converter,
  exists enums c',
    convertSimpleTypes simpleTypes c = (Ok enums, c')
    /\ sameEnv c c'
    /\ currentSchema c' = currentSchema c
    /\ usedNames c' = list_to_set (map ProtoEnum_Name enums) ∪ usedNames c
    /\ namesAssigned (usedNames c)
         (map SimpleType_Name
            (filter (fun st => hasEnumerations st = true) simpleTypes))
         (map ProtoEnum_Name enums)
    /\ enumsAssigned (usedEnumValues c)
         (filter (fun st => hasEnumerations st = true) simpleTypes) enums.
Proof.
  induction simpleTypes as [|st sts IH]; intros c; simpl.
  - exists [], c. unfold ret. split; [reflexivity|].
    split; [apply sameEnv_refl|]. split; [reflexivity|].
    split; [cbn [map list_to_set]; by rewrite (left_id_L ∅ (∪))|].
    split; [exact I|exact I].
  - destruct (hasEnumerations st) eqn:Hhas.
    + rewrite filter_cons_True by done.
      destruct (convertSimpleTypeToEnum_run st c Hhas)
        as (enum & u & m & Hrun & Hname & Hu & Henum).
      unfold bind at 1. rewrite Hrun.
      set (c1 := with_enumValueCounters m _).
      destruct (IH c1) as (enums & c' & Hrest & Henv & Hsch & Hused & Hnames & Hvals).
      unfold bind at 1. rewrite Hrest. unfold ret.
      exists (enum :: enums), c'. split; [done|].
      assert (Hu1 : usedNames c1 = {[ ProtoEnum_Name enum ]} ∪ usedNames c).
      { exact (usedNames_registerEnum (SimpleType_Name st) (ProtoEnum_Name enum) c). }
      assert (Henv1 : sameEnv c c1) by (repeat split; reflexivity).
      split; [exact (sameEnv_trans c c1 c' Henv1 Henv)|].
      split; [rewrite Hsch; reflexivity|].
      split.
      { rewrite Hused, Hu1. cbn [map]. rewrite list_to_set_cons.
        rewrite !(assoc_L (∪)). f_equal. apply (comm_L (∪)). }
      split.
      * cbn [map]. split; [exact Hname|]. rewrite <- Hu1. exact Hnames.
      * split; [exact Henum|].
        rewrite <- Hu. exact Hvals.
    + rewrite filter_cons_False by (rewrite Hhas; done). apply IH.
Qed.

(** Second pass. *)
Lemma convertComplexTypes_run (complexTypes : list ComplexType) :
  forall c : Converter,
  exists messages c',
    convertComplexTypes complexTypes c = (Ok messages, c')
    /\ sameEnv c c'
    /\ currentSchema c' = currentSchema c
    /\ usedEnumValues c' = usedEnumValues c
    /\ usedNames c' = list_to_set (map ProtoMessage_Name messages) ∪ usedNames c
    /\ namesAssigned (usedNames c)
         (map ComplexType_Name
            (filter (fun ct => isArrayOfPattern c ct = false) complexTypes))
         (map ProtoMessage_Name messages)
    /\ Forall2 (converted c) messages
         (filter (fun ct => isArrayOfPattern c ct = false) complexTypes).
Proof.
  induction complexTypes as [|ct cts IH]; intros c; simpl.
  - exists [], c. unfold ret. split; [reflexivity|].
    split; [apply sameEnv_refl|]. split; [reflexivity|]. split; [reflexivity|].
    split; [cbn [map list_to_set]; by rewrite (left_id_L ∅ (∪))|].
    split; [exact I|constructor].
  - unfold bind at 1, gets at 1.
    destruct (isArrayOfPattern c ct) eqn:Hw.
    + rewrite filter_cons_False by (rewrite Hw; done). apply IH.
    + rewrite filter_cons_True by done.
      destruct (convertComplexType_run ct c) as (name & Hname & Hrun).
      unfold bind at 1, wrapErr. rewrite Hrun.
      set (c1 := with_fieldCounter _ _).
      destruct (IH c1) as (ms & c' & Hrest & Henv & Hsch & Hev & Hused & Hnames & Hconv).
      unfold bind at 1. rewrite Hrest. unfold ret.
      eexists (_ :: ms), c'. split; [reflexivity|].
      assert (Hu1 : usedNames c1 = {[ name ]} ∪ usedNames c).
      { exact (usedNames_registerMessage (ComplexType_Name ct) name c). }
      assert (Henv1 : sameEnv c c1) by (repeat split; reflexivity).
      split; [exact (sameEnv_trans c c1 c' Henv1 Henv)|].
      split; [rewrite Hsch; reflexivity|].
      split; [rewrite Hev; reflexivity|].
      split.
      { rewrite Hused, Hu1. cbn [map ProtoMessage_Name messageOf].
        rewrite list_to_set_cons.
        rewrite !(assoc_L (∪)). f_equal. apply (comm_L (∪)). }
      split.
      * cbn [map ProtoMessage_Name messageOf].
        split; [exact Hname|]. rewrite <- Hu1. exact Hnames.
      * constructor.
        -- exists (registerMessage (ComplexType_Name ct) name c).
           split; [repeat split; reflexivity|].
           split; [exact (assigned_derivedName _ _ _ Hname) | reflexivity].
        -- eapply Forall2_impl; [exact Hconv|].
           intros m ct' Hm. exact (converted_env c c1 m ct' Henv1 Hm).
Qed.

Lemma nameInline_None (element : Element) :
  Element_ComplexType element = None -> nameInline element = element.
Proof.
  intros H. unfold nameInline, namedInline. rewrite H. destruct element.
  simpl in *. by subst.
Qed.

(** Third pass: [done] are the elements before index [i]. *)
Lemma convertElements_run (elements : list Element) :
  forall (done : list Element) (schema : Schema) (c : Converter),
    currentSchema c = Some schema ->
    Elements schema = (done ++ elements)%list ->
  exists messages c',
    convertElements (length done) elements c = (Ok messages, c')
    /\ sameEnv c c'
    /\ currentSchema c'
       = Some (with_Elements (done ++ map nameInline elements)%list schema)
    /\ usedEnumValues c' = usedEnumValues c
    /\ usedNames c' = list_to_set (map ProtoMessage_Name messages) ∪ usedNames c
    /\ namesAssigned (usedNames c)
         (map ComplexType_Name (omap namedInline elements))
         (map ProtoMessage_Name messages)
    /\ Forall2 (converted c) messages (omap namedInline elements).
Proof.
  induction elements as [|e es IH]; intros done schema c Hsch Hels.
  - exists [], c. cbn [convertElements]. unfold ret. split; [reflexivity|].
    split; [apply sameEnv_refl|]. split.
    { rewrite Hsch. f_equal. cbn [map]. rewrite <- Hels. by destruct schema. }
    split; [reflexivity|].
    split; [cbn [map list_to_set]; by rewrite (left_id_L ∅ (∪))|].
    split; [exact I|constructor].
  - cbn [convertElements omap list_omap map].
    fold (@omap list _ _ _ namedInline es).
    destruct (Element_ComplexType e) as [inline|] eqn:Hin.
    + set (messageName := if nonEmpty (ComplexType_Name inline)
                           then ComplexType_Name inline else Element_Name e).
      assert (Hni : namedInline e
                    = Some (with_ComplexType_Name messageName inline))
        by (unfold namedInline; rewrite Hin; reflexivity).
      rewrite Hni.
      unfold bind at 1, wrapErr, convertElementToMessage. rewrite Hin.
      fold messageName.
      unfold bind at 1, modify at 1.
      set (c0 := writeInlineName (length done) messageName c).
      destruct (convertComplexType_run (with_ComplexType_Name messageName inline) c0)
        as (name & Hname & Hrun).
      rewrite Hrun. set (c1 := with_fieldCounter _ _).
      assert (Hwrite : c0 = with_currentSchema
                (Some (with_Elements (done ++ nameInline e :: es)%list schema)) c).
      { unfold c0, writeInlineName. rewrite Hsch. do 3 f_equal.
        rewrite Hels.
        replace (length done) with (length done + 0)%nat at 1 by lia.
        rewrite (alter_app_r _ done (e :: es) 0). f_equal.
        unfold nameInline. rewrite Hni. cbn [alter list_alter].
        rewrite Hin. reflexivity. }
      assert (Hc0 : currentSchema c0
                    = Some (with_Elements (done ++ nameInline e :: es)%list schema))
        by (rewrite Hwrite; reflexivity).
      assert (Hu0 : usedNames c0 = usedNames c) by (rewrite Hwrite; reflexivity).
      assert (Hev0 : usedEnumValues c0 = usedEnumValues c)
        by (rewrite Hwrite; reflexivity).
      assert (Henv0 : sameEnv c c0).
      { rewrite Hwrite. repeat split; try reflexivity.
        cbn [currentSchema with_currentSchema]. rewrite Hsch. reflexivity. }
      destruct (IH (done ++ [nameInline e])%list
                  (with_Elements (done ++ nameInline e :: es)%list schema) c1)
        as (ms & c' & Hrest & Henv & Hsch' & Hev & Hused & Hnames & Hconv).
      { exact Hc0. }
      { cbn [Elements with_Elements]. by rewrite <- app_assoc. }
      rewrite length_app in Hrest. cbn [length] in Hrest.
      replace (length done + 1)%nat with (S (length done)) in Hrest by lia.
      unfold bind at 1. rewrite Hrest. unfold ret.
      eexists (_ :: ms), c'. split; [reflexivity|].
      assert (Hu1 : usedNames c1 = {[ name ]} ∪ usedNames c).
      { rewrite <- Hu0.
        exact (usedNames_registerMessage
                 (ComplexType_Name (with_ComplexType_Name messageName inline))
                 name c0). }
      assert (Henv01 : sameEnv c0 c1) by (repeat split; reflexivity).
      assert (Henv1 : sameEnv c c1) by exact (sameEnv_trans c c0 c1 Henv0 Henv01).
      split; [exact (sameEnv_trans c c1 c' Henv1 Henv)|].
      split.
      { rewrite Hsch'. f_equal. rewrite <- app_assoc. cbn [app map].
        by destruct schema. }
      split; [rewrite Hev; exact Hev0|].
      split.
      { rewrite Hused, Hu1. cbn [map ProtoMessage_Name messageOf].
        rewrite list_to_set_cons.
        rewrite !(assoc_L (∪)). f_equal. apply (comm_L (∪)). }
      split.
      * cbn [map ProtoMessage_Name messageOf].
        split; [rewrite <- Hu0; exact Hname|]. rewrite <- Hu1. exact Hnames.
      * constructor.
        -- apply (converted_env c c0); [exact Henv0|].
           exists (registerMessage
                     (ComplexType_Name (with_ComplexType_Name messageName inline))
                     name c0).
           split; [repeat split; reflexivity|].
           split; [exact (assigned_derivedName _ _ _ Hname) | reflexivity].
        -- eapply Forall2_impl; [exact Hconv|].
           intros m ct' Hm. exact (converted_env c c1 m ct' Henv1 Hm).
    + assert (Hni : namedInline e = None)
        by (unfold namedInline; rewrite Hin; reflexivity).
      rewrite Hni.
      destruct (IH (done ++ [e])%list schema c Hsch) as
        (ms & c' & Hrest & Henv & Hsch' & Hev & Hused & Hnames & Hconv).
      { by rewrite <- app_assoc. }
      rewrite length_app in Hrest. cbn [length] in Hrest.
      replace (length done + 1)%nat with (S (length done)) in Hrest by lia.
      exists ms, c'. split; [exact Hrest|]. split; [exact Henv|].
      split; [|repeat split; assumption].
      rewrite Hsch'. rewrite <- app_assoc. cbn [app].
      by rewrite (nameInline_None e Hin).
Qed.

End Passes.

(** ** The whole conversion *)

Section Conversion.

(** [Convert] always returns a file; its enums, messages and names are
    those of the three passes, and the schema it leaves behind has the
    inline types of its top-level elements named. *)
Lemma Convert_run (schema : Schema) (c : Converter) :
  exists pf c',
    Convert schema c = (Ok pf, c')
    /\ namesAssigned (usedNames c) (declaredNames c schema)
         (map ProtoEnum_Name (ProtoFile_Enums pf)
          ++ map ProtoMessage_Name (ProtoFile_Messages pf))%list
    /\ enumsAssigned (usedEnumValues c) (emittedSimpleTypes schema)
         (ProtoFile_Enums pf)
    /\ Forall2 (converted (with_currentSchema (Some schema) c))
         (ProtoFile_Messages pf) (emittedTypes c schema)
    /\ currentSchema c'
       = Some (with_Elements (map nameInline (Elements schema)) schema).
Proof.
  unfold Convert. unfold bind at 1, modify at 1.
  set (c0 := with_currentSchema (Some schema) c).
  destruct (convertSimpleTypes_run (SimpleTypes schema) c0)
    as (enums & c1 & Hrun1 & Henv1 & Hsch1 & Hused1 & Hnames1 & Henums).
  change (usedNames c0) with (usedNames c) in Hused1, Hnames1.
  change (usedEnumValues c0) with (usedEnumValues c) in Henums.
  unfold bind at 1. rewrite Hrun1.
  destruct (convertComplexTypes_run (ComplexTypes schema) c1)
    as (ms2 & c2 & Hrun2 & Henv2 & Hsch2 & _ & Hused2 & Hnames2 & Hconv2).
  unfold bind at 1. rewrite Hrun2.
  destruct (convertElements_run (Elements schema) [] schema c2)
    as (ms3 & c3 & Hrun3 & Henv3 & Hsch3 & _ & Hused3 & Hnames3 & Hconv3).
  { rewrite Hsch2, Hsch1. reflexivity. }
  { reflexivity. }
  cbn [length] in Hrun3.
  unfold bind at 1. rewrite Hrun3.
  unfold bind at 1, gets at 1, ret.
  eexists _, c3. split; [reflexivity|].
  cbn [ProtoFile_Enums ProtoFile_Messages].
  split; [|split; [exact Henums|split]].
  - unfold declaredNames, emittedTypes, emittedSimpleTypes.
    rewrite !map_app.
    apply namesAssigned_app; [exact Hnames1|].
    apply namesAssigned_app.
    + rewrite <- Hused1. exact Hnames2.
    + rewrite <- Hused1, <- Hused2. exact Hnames3.
  - unfold emittedTypes. apply Forall2_app.
    + eapply Forall2_impl; [exact Hconv2|].
      intros m ct' Hm. exact (converted_env c0 c1 m ct' Henv1 Hm).
    + eapply Forall2_impl; [exact Hconv3|].
      intros m ct' Hm.
      exact (converted_env c0 c2 m ct'
               (sameEnv_trans c0 c1 c2 Henv1 Henv2) Hm).
  - rewrite Hsch3. reflexivity.
Qed.

Lemma fields_imap {A : Type} (P : ProtoField -> A -> Prop)
  (f : nat -> A -> ProtoField) (xs : list A) :
  (forall i x, P (f i x) x) -> Forall2 P (imap f xs) xs.
Proof.
  revert f. induction xs as [|x xs IH]; intros f Hf; [constructor|].
  rewrite imap_cons. constructor; [apply Hf|]. apply IH. intros i y. apply Hf.
Qed.

Lemma formatFieldName_env (c c' : Converter) (name : string) :
  sameEnv c c' -> formatFieldName c' name = formatFieldName c name.
Proof.
  intros (_ & H1 & H2 & _). unfold formatFieldName. by rewrite H1, H2.
Qed.

Lemma fieldOfElement_Name (c : Converter) (n : nat) (e : Element) :
  ProtoField_Name (fieldOfElement c n e) = formatFieldName c (Element_Name e).
Proof. unfold fieldOfElement. by destruct (nonEmpty _). Qed.

Lemma fieldOfElement_Number (c : Converter) (n : nat) (e : Element) :
  ProtoField_Number (fieldOfElement c n e) = n.
Proof. unfold fieldOfElement. by destruct (nonEmpty _). Qed.

Lemma messageOf_numbers (c : Converter) (name : string) (ct : ComplexType) :
  map ProtoField_Number (ProtoMessage_Fields (messageOf c name ct))
  = seq 1 (length (memberNames ct)).
Proof.
  unfold messageOf, memberNames, sequenceFields, choiceFields, attributeFields.
  cbn [ProtoMessage_Fields].
  rewrite !map_app, !length_app, !length_map, !seq_app.
  f_equal; [|f_equal].
  - rewrite fmap_imap.
    rewrite (imap_ext _ (fun i _ => (1 + i)%nat)).
    + rewrite (imap_seq _ (fun j => j) 1). apply list_fmap_id.
    + intros i x _. apply fieldOfElement_Number.
  - rewrite fmap_imap.
    rewrite (imap_ext _ (fun i _ => (1 + length (sequenceElements ct) + i)%nat)).
    + rewrite (imap_seq _ (fun j => j)). apply list_fmap_id.
    + intros i x _. cbn. apply fieldOfElement_Number.
  - rewrite fmap_imap.
    rewrite (imap_ext _ (fun i _ => (1 + length (sequenceElements ct)
                                     + length (choiceElements ct) + i)%nat)).
    + rewrite (imap_seq _ (fun j => j)). rewrite list_fmap_id.
      reflexivity || (f_equal; lia).
    + intros i x _. reflexivity.
Qed.

Lemma messageOf_names (c : Converter) (name : string) (ct : ComplexType) :
  map ProtoField_Name (ProtoMessage_Fields (messageOf c name ct))
  = map (formatFieldName c) (memberNames ct).
Proof.
  unfold messageOf, memberNames, sequenceFields, choiceFields, attributeFields.
  cbn [ProtoMessage_Fields].
  rewrite !map_app. rewrite <- !list_fmap_compose.
  f_equal; [|f_equal].
  - rewrite fmap_imap. rewrite <- imap_const. apply imap_ext.
    intros i x _. apply fieldOfElement_Name.
  - rewrite fmap_imap. rewrite <- imap_const. apply imap_ext.
    intros i x _. cbn. apply fieldOfElement_Name.
  - rewrite fmap_imap. rewrite <- imap_const. apply imap_ext.
    intros i x _. reflexivity.
Qed.

End Conversion.

(** C1. The message names and the enum names of the file [Convert] returns
    are pairwise distinct, across messages and enums; each declaration, in
    processing order (enums, complex types, inline types of elements),
    receives its PascalCase name when no earlier declaration holds it, and
    else that name followed by the least counter from 2 on that is free. *)
Theorem Convert_names_unique (schema : Schema) (c : Converter) :
  exists pf c',
    Convert schema c = (Ok pf, c')
    /\ NoDup (map ProtoMessage_Name (ProtoFile_Messages pf)
              ++ map ProtoEnum_Name (ProtoFile_Enums pf))%list
    /\ namesAssigned (usedNames c) (declaredNames c schema)
         (map ProtoEnum_Name (ProtoFile_Enums pf)
          ++ map ProtoMessage_Name (ProtoFile_Messages pf))%list.
Proof.
  destruct (Convert_run schema c) as (pf & c' & Hrun & Hnames & _).
  exists pf, c'. split; [exact Hrun|]. split; [|exact Hnames].
  apply namesAssigned_NoDup in Hnames as [Hnd _].
  eapply NoDup_Permutation_proper; [|exact Hnd]. apply Permutation_app_comm.
Qed.

(** C2. In every message [Convert] emits, the field numbers are 1, 2, ..., N
    in this order, and the fields are those of the sequence elements, then
    of the choice elements, then of the attributes of the complex type the
    message comes from. *)
Theorem Convert_field_numbers (schema : Schema) (c : Converter) :
  exists pf c',
    Convert schema c = (Ok pf, c')
    /\ Forall2
         (fun message complexType =>
            map ProtoField_Number (ProtoMessage_Fields message)
            = seq 1 (length (ProtoMessage_Fields message))
            /\ map ProtoField_Name (ProtoMessage_Fields message)
               = map (formatFieldName c) (memberNames complexType))
         (ProtoFile_Messages pf) (emittedTypes c schema).
Proof.
  destruct (Convert_run schema c) as (pf & c' & Hrun & _ & _ & Hconv & _).
  exists pf, c'. split; [exact Hrun|].
  eapply Forall2_impl; [exact Hconv|].
  intros m ct' (c1 & Henv & _ & Hm). rewrite Hm.
  pose proof (messageOf_numbers c1 (ProtoMessage_Name m) ct') as Hnum.
  pose proof (messageOf_names c1 (ProtoMessage_Name m) ct') as Hnam.
  split.
  - rewrite Hnum. f_equal.
    rewrite <- (length_map ProtoField_Number), Hnum. by rewrite length_seq.
  - rewrite Hnam. apply map_ext. intros name.
    rewrite (formatFieldName_env (with_currentSchema (Some schema) c) c1 name Henv).
    reflexivity.
Qed.

(** C9. [Convert] returns a file and no error, whatever the schema and the
    state of the converter: the type mapper always returns a type, and
    [convertElementToMessage] returns a message for every element that has
    an inline type, the only elements the third pass hands to it. *)
Theorem Convert_never_fails (schema : Schema) (c : Converter) :
  (exists pf c', Convert schema c = (Ok pf, c'))
  /\ (forall tm typeName, exists protoType,
        TM.MapXSDType tm typeName = Ok protoType)
  /\ (forall i name type minOccurs maxOccurs inline simpleType c1,
      exists message c2,
        convertElementToMessage i
          (mkElement name type minOccurs maxOccurs (Some inline) simpleType) c1
        = (Ok message, c2)).
Proof.
  split; [|split].
  - destruct (Convert_run schema c) as (pf & c' & Hrun & _). eauto.
  - apply MapXSDType_total.
  - intros i name type minOccurs maxOccurs inline simpleType c1.
    unfold convertElementToMessage. cbn [Element_ComplexType Element_Name].
    unfold bind at 1, modify at 1.
    destruct (convertComplexType_run
                (with_ComplexType_Name
                   (if nonEmpty (ComplexType_Name inline)
                    then ComplexType_Name inline else name)
                   inline)
                (writeInlineName i
                   (if nonEmpty (ComplexType_Name inline)
                    then ComplexType_Name inline else name) c1))
      as (n & _ & ->).
    eauto.
Qed.

(** ** Array wrappers *)

Section Wrappers.

Lemma isArrayOfPattern_prefix (c : Converter) (w : ComplexType) :
  isArrayOfPattern c w = true ->
  strings.HasPrefix (TM.CleanTypeName (ComplexType_Name w)) "ArrayOf" = true.
Proof.
  unfold isArrayOfPattern.
  destruct (strings.HasPrefix _ "ArrayOf"); [done|]. cbn [negb]. discriminate.
Qed.

Lemma arrayOfInnerType_innerTypeOf (c : Converter) (w : ComplexType) :
  arrayOfInnerType c w = innerTypeOf (typeMapper c) w.
Proof.
  unfold arrayOfInnerType, innerTypeOf, sequenceElements, mappedType.
  destruct (ComplexType_Sequence w) as [sq|]; [|done].
  destruct (Sequence_Elements sq) as [|inner rest]; reflexivity.
Qed.

Lemma getArrayOfElementType_scan_head (c : Converter) (cleanType : string)
  (cts : list ComplexType) :
  getArrayOfElementType_scan c cleanType cts
  = match head (filter
                  (fun w => isArrayOfPattern c w = true
                            /\ TM.CleanTypeName (ComplexType_Name w) = cleanType)
                  cts) with
    | Some w => innerTypeOf (typeMapper c) w
    | None => EmptyString
    end.
Proof.
  induction cts as [|w cts IH]; [reflexivity|].
  cbn [getArrayOfElementType_scan].
  destruct (decide (TM.CleanTypeName (ComplexType_Name w) = cleanType)) as [Hn|Hn].
  - rewrite (bool_decide_eq_true_2 _ Hn). cbn [andb].
    destruct (isArrayOfPattern c w) eqn:Hw.
    + rewrite filter_cons_True by done. cbn [head].
      apply arrayOfInnerType_innerTypeOf.
    + rewrite filter_cons_False by (intros [? _]; congruence). exact IH.
  - rewrite (bool_decide_eq_false_2 _ Hn). cbn [andb].
    rewrite filter_cons_False by (intros [_ ?]; congruence). exact IH.
Qed.

Lemma wrapperOf_prefix (c : Converter) (schema : Schema) (typeName : string)
  (w : ComplexType) :
  wrapperOf c schema typeName = Some w ->
  strings.HasPrefix (TM.CleanTypeName typeName) "ArrayOf" = true.
Proof.
  unfold wrapperOf. intros H. apply head_Some_elem_of in H.
  apply list_elem_of_filter in H as [[Hw Hn] _].
  rewrite <- Hn. by eapply isArrayOfPattern_prefix.
Qed.

(** The lookup of the code is the lookup of the specification. *)
Lemma getArrayOfElementType_wrapperOf (c : Converter) (schema : Schema)
  (typeName : string) :
  currentSchema c = Some schema ->
  getArrayOfElementType c typeName
  = match wrapperOf c schema typeName with
    | Some w => innerTypeOf (typeMapper c) w
    | None => EmptyString
    end.
Proof.
  intros Hs. unfold getArrayOfElementType. rewrite Hs.
  destruct (strings.HasPrefix (TM.CleanTypeName typeName) "ArrayOf") eqn:Hp;
    cbn [negb].
  - apply getArrayOfElementType_scan_head.
  - destruct (wrapperOf c schema typeName) as [w|] eqn:Hw; [|done].
    apply wrapperOf_prefix in Hw. congruence.
Qed.

Lemma determineFieldLabel_occurrenceLabel (minOccurs maxOccurs : string) :
  determineFieldLabel minOccurs maxOccurs = occurrenceLabel minOccurs maxOccurs.
Proof.
  unfold determineFieldLabel, occurrenceLabel, nonEmpty.
  destruct (bool_decide_reflect (maxOccurs = "unbounded")) as [H1|H1];
    destruct (bool_decide_reflect (maxOccurs = "")) as [H2|H2];
    destruct (bool_decide_reflect (maxOccurs = "1")) as [H3|H3];
    destruct (bool_decide_reflect (minOccurs = "0")) as [H4|H4];
    cbn [orb andb negb];
    destruct (decide (maxOccurs = "unbounded"
                      \/ maxOccurs <> "" /\ maxOccurs <> "1")) as [H5|H5];
    destruct (decide (minOccurs = "0")) as [H6|H6];
    try reflexivity; exfalso; intuition congruence.
Qed.

Lemma determineAttributeLabel_attributeLabel (use : string) :
  determineAttributeLabel use = attributeLabel use.
Proof.
  unfold determineAttributeLabel, attributeLabel.
  by destruct (decide (use = "required")) as [->|H];
    [ rewrite bool_decide_eq_true_2 | rewrite bool_decide_eq_false_2 ].
Qed.

(** A field of a sequence element, read against the initial converter [c]
    and the schema under conversion. *)
Lemma fieldOfElement_collapse (c c1 : Converter) (schema : Schema)
  (n : nat) (e : Element) :
  sameEnv (with_currentSchema (Some schema) c) c1 ->
  match collapsedType c schema (Element_Type e) with
  | Some t =>
      ProtoField_Label (fieldOfElement c1 n e) = FieldLabelRepeated
      /\ ProtoField_Type (fieldOfElement c1 n e) = t
  | None =>
      ProtoField_Label (fieldOfElement c1 n e)
      = occurrenceLabel (Element_MinOccurs e) (Element_MaxOccurs e)
  end.
Proof.
  intros Henv. destruct Henv as (Htm & _ & _ & Hs).
  unfold fieldOfElement.
  rewrite (getArrayOfElementType_env (with_currentSchema (Some schema) c) c1
             (Element_Type e) Htm Hs).
  rewrite (getArrayOfElementType_wrapperOf (with_currentSchema (Some schema) c)
             schema (Element_Type e) eq_refl).
  unfold collapsedType.
  change (wrapperOf (with_currentSchema (Some schema) c) schema (Element_Type e))
    with (wrapperOf c schema (Element_Type e)).
  change (typeMapper (with_currentSchema (Some schema) c)) with (typeMapper c).
  destruct (wrapperOf c schema (Element_Type e)) as [w|].
  - destruct (nonEmpty (innerTypeOf (typeMapper c) w)); cbn.
    + done.
    + apply determineFieldLabel_occurrenceLabel.
  - cbn. apply determineFieldLabel_occurrenceLabel.
Qed.

Lemma converted_fields (c : Converter) (m : ProtoMessage) (ct : ComplexType) :
  converted c m ct ->
  exists c1, sameEnv c c1
    /\ ProtoMessage_Fields m
       = (sequenceFields c1 ct ++ choiceFields c1 ct ++ attributeFields c1 ct)%list.
Proof. intros (c1 & Henv & _ & ->). by exists c1. Qed.

Lemma converted_name (c : Converter) (m : ProtoMessage) (ct : ComplexType) :
  converted c m ct -> derivedName (ComplexType_Name ct) (ProtoMessage_Name m).
Proof. by intros (c1 & _ & Hd & _). Qed.

End Wrappers.

(** C6 (as amended).  In every message, the field of a sequence element
    whose declared type collapses to the inner type of an array wrapper is
    repeated whatever its bounds; the field of any other sequence element is
    repeated when [maxOccurs] is [unbounded] or a value other than [1],
    else optional when [minOccurs] is [0], else required.  The field of a
    choice element is optional; the field of an attribute is required when
    [use] is [required] and optional otherwise. *)
Theorem Convert_field_labels (schema : Schema) (c : Converter) :
  exists pf c',
    Convert schema c = (Ok pf, c')
    /\ Forall2
         (fun message complexType =>
            exists sequencePart choicePart attributePart,
              ProtoMessage_Fields message
              = (sequencePart ++ choicePart ++ attributePart)%list
              /\ Forall2
                   (fun field element =>
                      ProtoField_Label field
                      = match collapsedType c schema (Element_Type element) with
                        | Some _ => FieldLabelRepeated
                        | None => occurrenceLabel (Element_MinOccurs element)
                                    (Element_MaxOccurs element)
                        end)
                   sequencePart (sequenceElements complexType)
              /\ Forall2
                   (fun field element =>
                      ProtoField_Label field = FieldLabelOptional)
                   choicePart (choiceElements complexType)
              /\ Forall2
                   (fun field attribute =>
                      ProtoField_Label field
                      = attributeLabel (Attribute_Use attribute))
                   attributePart (ComplexType_Attributes complexType))
         (ProtoFile_Messages pf) (emittedTypes c schema).
Proof.
  destruct (Convert_run schema c) as (pf & c' & Hrun & _ & _ & Hconv & _).
  exists pf, c'. split; [exact Hrun|].
  eapply Forall2_impl; [exact Hconv|].
  intros m ct' Hm. apply converted_fields in Hm as (c1 & Henv & ->).
  eexists _, _, _. split; [reflexivity|]. split; [|split].
  - apply fields_imap. intros i e.
    pose proof (fieldOfElement_collapse c c1 schema (1 + i) e Henv) as H.
    destruct (collapsedType c schema (Element_Type e)); [apply H|exact H].
  - apply fields_imap. intros i e. reflexivity.
  - apply fields_imap. intros i a. apply determineAttributeLabel_attributeLabel.
Qed.

(** C6 as stated fails: a sequence element with [minOccurs="0"] and no
    [maxOccurs], whose bounds ask for optional, is repeated when its type is
    an array wrapper. *)
Lemma wrapper_reference_ignores_bounds :
  occurrenceLabel "0" "" = FieldLabelOptional
  /\ determineFieldLabel "0" "" = FieldLabelOptional
  /\ digest (Convert wrapperSchema New)
     = Some ([],
             [("Foo", [(FieldLabelRequired, "string", "id", 1%nat)]);
              ("Bar", [(FieldLabelRepeated, "Foo", "items", 1%nat)])])
  /\ FieldLabelRepeated <> FieldLabelOptional.
Proof. repeat split; try (vm_compute; reflexivity). discriminate. Qed.

Section EnumNumbers.

Lemma enumsAssigned_numbers (simpleTypes : list SimpleType) :
  forall (used : gset string) (enums : list ProtoEnum),
    enumsAssigned used simpleTypes enums ->
    Forall2
      (fun enum simpleType =>
         map ProtoEnumValue_Number (ProtoEnum_Values enum)
         = seq 0 (S (length (enumerationsOf simpleType))))
      enums simpleTypes.
Proof.
  induction simpleTypes as [|st sts IH]; intros used [|e es];
    cbn [enumsAssigned]; intros H; try (destruct H; fail).
  - constructor.
  - destruct H as [He Hes]. constructor.
    + by eapply enumAssigned_numbers.
    + by eapply IH.
Qed.

End EnumNumbers.

(** C3 (as amended).  Every enum [Convert] emits starts with a value
    numbered 0 whose name is [<PREFIX>_UNSPECIFIED], [PREFIX] being the final
    name of the enum in SCREAMING_SNAKE_CASE, when no value emitted earlier has
    that name, and is that name followed by a counter otherwise; the values
    after it are numbered 1, 2, ..., N in the source order of the enumeration
    entries, so that no other value is numbered 0. *)
Theorem Convert_enum_values (schema : Schema) (c : Converter) :
  exists pf c',
    Convert schema c = (Ok pf, c')
    /\ enumsAssigned (usedEnumValues c) (emittedSimpleTypes schema)
         (ProtoFile_Enums pf)
    /\ Forall2
         (fun enum simpleType =>
            map ProtoEnumValue_Number (ProtoEnum_Values enum)
            = seq 0 (S (length (enumerationsOf simpleType))))
         (ProtoFile_Enums pf) (emittedSimpleTypes schema).
Proof.
  destruct (Convert_run schema c) as (pf & c' & Hrun & _ & Henums & _).
  exists pf, c'. split; [exact Hrun|]. split; [exact Henums|].
  by eapply enumsAssigned_numbers.
Qed.

(** C3 as stated fails: the sentinel of the second enum is not
    [<PREFIX>_UNSPECIFIED], a value of the first enum has that name. *)
Lemma sentinel_name_taken :
  digest (Convert sentinelSchema New)
  = Some ([("Foo", [("FOO_UNSPECIFIED", 0%nat); ("FOO_BAR_UNSPECIFIED", 1%nat)]);
           ("FooBar", [("FOO_BAR_UNSPECIFIED1", 0%nat); ("FOO_BAR_X", 1%nat)])],
          [])
  /\ enumPrefixOf "FooBar" +:+ "_UNSPECIFIED" = "FOO_BAR_UNSPECIFIED"
  /\ "FOO_BAR_UNSPECIFIED1" <> enumPrefixOf "FooBar" +:+ "_UNSPECIFIED".
Proof. repeat split; try (vm_compute; reflexivity). vm_compute. discriminate. Qed.

(** C5 (as amended).  [Convert] leaves the caller's schema as it was, except
    for the inline complex types of the top-level elements: the name of
    such a type is set to the name of its element when it was empty. *)
Theorem Convert_schema_effect (schema : Schema) (c : Converter) :
  exists schema',
    schemaAfter c schema = Some schema'
    /\ Schema_XMLName schema' = Schema_XMLName schema
    /\ TargetNamespace schema' = TargetNamespace schema
    /\ ElementFormDefault schema' = ElementFormDefault schema
    /\ AttributeFormDefault schema' = AttributeFormDefault schema
    /\ Imports schema' = Imports schema
    /\ Includes schema' = Includes schema
    /\ ComplexTypes schema' = ComplexTypes schema
    /\ SimpleTypes schema' = SimpleTypes schema
    /\ ImportedSchemas schema' = ImportedSchemas schema
    /\ Elements schema' = map nameInline (Elements schema).
Proof.
  destruct (Convert_run schema c) as (pf & c' & Hrun & _ & _ & _ & Hs).
  exists (with_Elements (map nameInline (Elements schema)) schema).
  unfold schemaAfter. rewrite Hrun. cbn [snd]. split; [exact Hs|].
  repeat split; reflexivity.
Qed.

(** C5 as stated fails: the anonymous inline type of the element [person]
    is named [person] once [Convert] has returned. *)
Lemma inline_type_renamed :
  (head (Elements collisionSchema) ≫= Element_ComplexType)
  = Some (ct "" [el "firstName" "xs:string" "" ""; el "lastName" "xs:string" "" ""])
  /\ (schemaAfter New collisionSchema
        ≫= fun schema' => head (Elements schema') ≫= Element_ComplexType)
     = Some (ct "person"
               [el "firstName" "xs:string" "" ""; el "lastName" "xs:string" "" ""])
  /\ schemaAfter New collisionSchema <> Some collisionSchema.
Proof.
  split; [reflexivity|]. split; [vm_compute; reflexivity|].
  vm_compute. discriminate.
Qed.

Section RenameMap.

Lemma renamedType_lookup (c : Converter) (typeName protoType name : string) :
  TM.IsBuiltInType (typeMapper c) typeName = false ->
  typeRenameMap c !! TM.CleanTypeName typeName = Some name ->
  renamedType c typeName protoType = name.
Proof. intros Hb Hl. unfold renamedType. rewrite Hb. cbn [negb]. by rewrite Hl. Qed.

Lemma typeRenameMap_registerMessage (original name : string) (c : Converter) :
  typeRenameMap (registerMessage original name c) !! original = Some name.
Proof. cbn. apply lookup_insert_eq. Qed.

Lemma typeRenameMap_registerEnum (original name : string) (c : Converter) :
  typeRenameMap (registerEnum original name c) !! original = Some name.
Proof. cbn. apply lookup_insert_eq. Qed.

End RenameMap.

(** C10 as stated fails: [Document] is converted between the two
    declarations of [Person], and its field refers to the first of them,
    although the rename map ends with the name of the second. *)
Lemma reference_before_redeclaration :
  digest (Convert redeclaredSchema New)
  = Some ([],
          [("Person", [(FieldLabelRequired, "string", "name", 1%nat)]);
           ("Document", [(FieldLabelRequired, "Person", "owner", 1%nat)]);
           ("Person2", [(FieldLabelRequired, "string", "first_name", 1%nat)]);
           ("Archive", [(FieldLabelRequired, "Person2", "owner", 1%nat)])])
  /\ typeRenameMap (snd (Convert redeclaredSchema New)) !! "Person"
     = Some "Person2"
  /\ "Person" <> "Person2".
Proof. repeat split; try (vm_compute; reflexivity). discriminate. Qed.

(** The collision scenario of the specification: [Person], then [Person2]. *)
Example collision_scenario :
  digest (Convert collisionSchema New)
  = Some ([],
          [("Person", [(FieldLabelRequired, "string", "name", 1%nat);
                       (FieldLabelRequired, "int32", "age", 2%nat)]);
           ("Person2", [(FieldLabelRequired, "string", "first_name", 1%nat);
                        (FieldLabelRequired, "string", "last_name", 2%nat)])]).
Proof. vm_compute. reflexivity. Qed.

(** The schema of the README and of the end-to-end test. *)
Example simple_scenario :
  digest (Convert simpleSchema New)
  = Some ([("Status", [("STATUS_UNSPECIFIED", 0%nat); ("STATUS_ACTIVE", 1%nat);
                       ("STATUS_INACTIVE", 2%nat); ("STATUS_PENDING", 3%nat)])],
          [("Address", [(FieldLabelRequired, "string", "street", 1%nat);
                        (FieldLabelRequired, "string", "city", 2%nat);
                        (FieldLabelRequired, "string", "postal_code", 3%nat);
                        (FieldLabelRequired, "string", "country", 4%nat)]);
           ("Person", [(FieldLabelRequired, "string", "first_name", 1%nat);
                       (FieldLabelRequired, "string", "last_name", 2%nat);
                       (FieldLabelRequired, "int32", "age", 3%nat);
                       (FieldLabelOptional, "string", "email", 4%nat);
                       (FieldLabelRequired, "Address", "address", 5%nat);
                       (FieldLabelRequired, "Status", "status", 6%nat);
                       (FieldLabelRepeated, "string", "tags", 7%nat);
                       (FieldLabelRequired, "string", "id", 8%nat)])]).
Proof. vm_compute. reflexivity. Qed.

(** ** More on the type mapper *)

Section CleanNames.

Lemma LastIndex_app (a b : string) (sep : ascii) :
  strings.LastIndex (a +:+ b) sep
  = match strings.LastIndex b sep with
    | Some i => Some (String.length a + i)%nat
    | None => strings.LastIndex a sep
    end.
Proof.
  induction a as [|c a IH].
  - change ("" +:+ b) with b. by destruct (strings.LastIndex b sep).
  - rewrite string_app_cons. cbn [strings.LastIndex String.length]. rewrite IH.
    by destruct (strings.LastIndex b sep).
Qed.

Lemma dropChars_add (a b : string) (n : nat) :
  strings.dropChars (String.length a + n) (a +:+ b) = strings.dropChars n b.
Proof.
  induction a as [|c a IH]; [reflexivity|].
  rewrite string_app_cons. exact IH.
Qed.

Lemma LastIndex_dropChars (t : string) (sep : ascii) : forall i : nat,
  strings.LastIndex t sep = Some i ->
  strings.LastIndex (strings.dropChars (S i) t) sep = None.
Proof.
  induction t as [|c t IH]; intros i; cbn [strings.LastIndex]; [done|].
  destruct (strings.LastIndex t sep) as [j|] eqn:E.
  - intros [= <-]. cbn [strings.dropChars]. by apply IH.
  - destruct (decide (c = sep)); [|done]. intros [= <-].
    cbn [strings.dropChars]. by destruct t.
Qed.

Lemma CleanTypeName_no_colon (t : string) :
  strings.LastIndex (TM.CleanTypeName t) ":" = None.
Proof.
  unfold TM.CleanTypeName.
  destruct (strings.LastIndex t ":") as [i|] eqn:E; [|exact E].
  rewrite Nat.add_1_r. by apply LastIndex_dropChars.
Qed.

Lemma CleanTypeName_qualified (pre t : string) :
  TM.CleanTypeName (pre +:+ ":" +:+ t) = TM.CleanTypeName t.
Proof.
  unfold TM.CleanTypeName. rewrite LastIndex_app.
  change (":" +:+ t) with (String ":" t). cbn [strings.LastIndex].
  destruct (strings.LastIndex t ":") as [i|] eqn:E.
  - replace (String.length pre + S i + 1)%nat
      with (String.length pre + S (S i))%nat by lia.
    rewrite dropChars_add. cbn [strings.dropChars].
    by rewrite Nat.add_1_r.
  - rewrite decide_True by reflexivity.
    replace (String.length pre + 0 + 1)%nat
      with (String.length pre + 1)%nat by lia.
    rewrite dropChars_add. cbn [strings.dropChars]. by destruct t.
Qed.

End CleanNames.

(** X1. Qualifying any type name, built-in or not, with any prefix changes
    neither its cleaned form, nor the type it maps to, nor its built-in
    status; a cleaned name holds no colon, and cleaning it again leaves it
    as it is. *)
Theorem type_lookups_ignore_prefix (tm : TypeMapper) (pre t : string) :
  TM.CleanTypeName (pre +:+ ":" +:+ t) = TM.CleanTypeName t
  /\ TM.MapXSDType tm (pre +:+ ":" +:+ t) = TM.MapXSDType tm t
  /\ TM.IsBuiltInType tm (pre +:+ ":" +:+ t) = TM.IsBuiltInType tm t
  /\ strings.LastIndex (TM.CleanTypeName t) ":" = None
  /\ TM.CleanTypeName (TM.CleanTypeName t) = TM.CleanTypeName t.
Proof.
  pose proof (CleanTypeName_qualified pre t) as Hq.
  split; [exact Hq|]. split; [|split; [|split]].
  - unfold TM.MapXSDType. by rewrite Hq.
  - unfold TM.IsBuiltInType. by rewrite Hq.
  - apply CleanTypeName_no_colon.
  - apply CleanTypeName_plain, CleanTypeName_no_colon.
Qed.

(** X2. A custom mapping registered for a name answers every reference
    that cleans to that name, built-in names included, and leaves all other
    references as they were; a mapping registered under a name that holds a
    colon is never consulted, since lookups go by cleaned names. *)
Theorem custom_mapping_lookup (tm : TypeMapper) (xsdType protoType t : string) :
  (TM.CleanTypeName t = xsdType ->
   TM.MapXSDType (TM.AddCustomMapping tm xsdType protoType) t = Ok protoType)
  /\ (TM.CleanTypeName t <> xsdType ->
      TM.MapXSDType (TM.AddCustomMapping tm xsdType protoType) t
      = TM.MapXSDType tm t)
  /\ (strings.LastIndex xsdType ":" <> None ->
      TM.MapXSDType (TM.AddCustomMapping tm xsdType protoType) t
      = TM.MapXSDType tm t).
Proof.
  assert (Hne : TM.CleanTypeName t <> xsdType ->
      TM.MapXSDType (TM.AddCustomMapping tm xsdType protoType) t
      = TM.MapXSDType tm t).
  { intros H. unfold TM.MapXSDType, TM.AddCustomMapping.
    cbn [customMappings]. by rewrite lookup_insert_ne. }
  split; [|split; [exact Hne|]].
  - intros <-. unfold TM.MapXSDType, TM.AddCustomMapping.
    cbn [customMappings]. by rewrite lookup_insert_eq.
  - intros Hcolon. apply Hne. intros <-.
    apply Hcolon, CleanTypeName_no_colon.
Qed.

Lemma custom_mapping_lookup_witness :
  TM.MapXSDType (TM.AddCustomMapping NewTypeMapper "string" "bytes") "xs:string"
  = Ok "bytes"
  /\ TM.MapXSDType (TM.AddCustomMapping NewTypeMapper "string" "bytes") "xs:int"
     = TM.MapXSDType NewTypeMapper "xs:int"
  /\ TM.MapXSDType (TM.AddCustomMapping NewTypeMapper "xs:string" "bytes") "xs:string"
     = TM.MapXSDType NewTypeMapper "xs:string".
Proof.
  split; [|split].
  - apply (proj1 (custom_mapping_lookup NewTypeMapper "string" "bytes" "xs:string")).
    reflexivity.
  - apply (proj1 (proj2 (custom_mapping_lookup NewTypeMapper "string" "bytes" "xs:int"))).
    vm_compute. discriminate.
  - apply (proj2 (proj2 (custom_mapping_lookup NewTypeMapper "xs:string" "bytes"
                           "xs:string"))).
    vm_compute. discriminate.
Defined.

(** ** Case conversion *)

Section Characters.

Ltac all_chars c := destruct c as [[] [] [] [] [] [] [] []].

Lemma upperChar_idem (c : ascii) :
  strings.upperChar (strings.upperChar c) = strings.upperChar c.
Proof. all_chars c; reflexivity. Qed.

Lemma lowerChar_upperChar (c : ascii) :
  strings.lowerChar (strings.upperChar c) = strings.lowerChar c.
Proof. all_chars c; reflexivity. Qed.

Lemma upperChar_lowerChar (c : ascii) :
  strings.upperChar (strings.lowerChar c) = strings.upperChar c.
Proof. all_chars c; reflexivity. Qed.

Lemma lowerChar_not_upper (c : ascii) : isUpperAZ (strings.lowerChar c) = false.
Proof. all_chars c; reflexivity. Qed.

Lemma lowerChar_fixed (c : ascii) :
  strings.lowerChar c = c <-> isUpperAZ c = false.
Proof. all_chars c; vm_compute; split; congruence. Qed.

Lemma upperChar_fixed (c : ascii) :
  strings.upperChar c = c <-> isLowerAZ c = false.
Proof. all_chars c; vm_compute; split; congruence. Qed.

Lemma upperChar_not_lower (c : ascii) : isLowerAZ (strings.upperChar c) = false.
Proof. all_chars c; reflexivity. Qed.

Lemma isSeparator_upperChar (c : ascii) :
  isSeparator (strings.upperChar c) = isSeparator c.
Proof. all_chars c; reflexivity. Qed.

Lemma isSeparator_lowerChar (c : ascii) :
  isSeparator (strings.lowerChar c) = isSeparator c.
Proof. all_chars c; reflexivity. Qed.

Lemma upper_not_separator (c : ascii) :
  isUpperAZ c = true -> isSeparator c = false.
Proof. all_chars c; vm_compute; congruence. Qed.

Lemma snakeRewrites_lowerChar (c : ascii) :
  snakeRewrites (strings.lowerChar c)
  = bool_decide (c = "-"%char) || bool_decide (c = "."%char).
Proof. all_chars c; reflexivity. Qed.

Lemma snakeRewrites_underscore : snakeRewrites "_" = false.
Proof. reflexivity. Qed.

End Characters.

Section CharsOfStrings.

Lemma chars_app (a b : string) : chars (a +:+ b) = (chars a ++ chars b)%list.
Proof.
  induction a as [|r a IH]; [done|].
  rewrite string_app_cons. unfold chars in *. simpl. by rewrite IH.
Qed.

Lemma chars_mapChars (f : ascii -> ascii) (s : string) :
  chars (strings.mapChars f s) = map f (chars s).
Proof. induction s as [|r s IH]; [done|]. unfold chars in *. simpl. by rewrite IH. Qed.

Lemma chars_nil (s : string) : chars s = [] -> s = "".
Proof. by destruct s. Qed.

Lemma mapChars_fixed (f : ascii -> ascii) (s : string) :
  Forall (fun r => f r = r) (chars s) -> strings.mapChars f s = s.
Proof.
  induction s as [|r s IH]; [done|].
  unfold chars. simpl. intros H. apply Forall_cons in H as [Hr Hs].
  rewrite Hr. f_equal. by apply IH.
Qed.

Lemma ToLower_fixed (s : string) :
  Forall (fun r => isUpperAZ r = false) (chars s) -> strings.ToLower s = s.
Proof.
  intros H. apply mapChars_fixed.
  eapply Forall_impl; [exact H|]. intros r. apply lowerChar_fixed.
Qed.

End CharsOfStrings.

Section SnakeCase.

Lemma toSnakeCase_loop_chars (i : nat) (s : string) :
  Forall (fun r => r <> "-"%char /\ r <> "."%char) (chars (toSnakeCase_loop i s)).
Proof.
  revert i. induction s as [|r s IH]; intros i; [by constructor|].
  cbn [toSnakeCase_loop]. rewrite chars_app.
  apply Forall_app. split.
  - destruct ((0 <? i)%nat && isUpperAZ r); [|by constructor].
    apply Forall_cons. split; [done | by constructor].
  - apply Forall_cons. split; [|apply IH].
    destruct (bool_decide_reflect (r = "-"%char)) as [->|H1]; [done|].
    destruct (bool_decide_reflect (r = "."%char)) as [->|H2]; done.
Qed.

Lemma toSnakeCase_chars (s : string) :
  Forall (fun r => snakeRewrites r = false) (chars (toSnakeCase s)).
Proof.
  unfold toSnakeCase, strings.ToLower. rewrite chars_mapChars.
  apply Forall_map.
  eapply Forall_impl; [apply (toSnakeCase_loop_chars 0 s)|].
  intros r [H1 H2]. cbn beta. rewrite snakeRewrites_lowerChar.
  by rewrite !bool_decide_eq_false_2.
Qed.

Lemma snakeRewrites_false (r : ascii) :
  snakeRewrites r = false ->
  isUpperAZ r = false /\ bool_decide (r = "-"%char) = false
  /\ bool_decide (r = "."%char) = false.
Proof.
  unfold snakeRewrites. intros H.
  apply orb_false_iff in H as [H H3]. apply orb_false_iff in H as [H1 H2].
  done.
Qed.

Lemma toSnakeCase_loop_fixed (i : nat) (s : string) :
  Forall (fun r => snakeRewrites r = false) (chars s) -> toSnakeCase_loop i s = s.
Proof.
  revert i. induction s as [|r s IH]; intros i H; [done|].
  unfold chars in H. simpl in H. apply Forall_cons in H as [Hr Hs].
  apply snakeRewrites_false in Hr as (H1 & H2 & H3).
  cbn [toSnakeCase_loop]. rewrite H1, H2, H3, andb_false_r.
  cbn [orb]. change ("" +:+ ?x) with x. by rewrite IH.
Qed.

Lemma toSnakeCase_fixed (s : string) :
  Forall (fun r => snakeRewrites r = false) (chars s) -> toSnakeCase s = s.
Proof.
  intros H. unfold toSnakeCase. rewrite toSnakeCase_loop_fixed by done.
  apply ToLower_fixed. eapply Forall_impl; [exact H|].
  intros r Hr. by apply snakeRewrites_false in Hr as [? _].
Qed.

End SnakeCase.

(** X3. The snake_case form of an ASCII name holds no upper-case letter, no
    hyphen and no dot; the names [toSnakeCase] leaves unchanged are exactly
    the names that hold none of these, so converting twice is converting
    once. *)
Theorem toSnakeCase_normal_form (s : string) (Hs : isASCII s = true) :
  Forall (fun r => snakeRewrites r = false) (chars (toSnakeCase s))
  /\ (toSnakeCase s = s <-> Forall (fun r => snakeRewrites r = false) (chars s))
  /\ toSnakeCase (toSnakeCase s) = toSnakeCase s.
Proof.
  split; [apply toSnakeCase_chars|]. split.
  - split; [|apply toSnakeCase_fixed].
    intros H. rewrite <- H. apply toSnakeCase_chars.
  - apply toSnakeCase_fixed, toSnakeCase_chars.
Qed.

Lemma toSnakeCase_normal_form_witness :
  isASCII "postal-Code.x" = true
  /\ Forall (fun r => snakeRewrites r = false) (chars (toSnakeCase "postal-Code.x"))
  /\ (toSnakeCase "postal-Code.x" = "postal-Code.x"
      <-> Forall (fun r => snakeRewrites r = false) (chars "postal-Code.x"))
  /\ toSnakeCase (toSnakeCase "postal-Code.x") = toSnakeCase "postal-Code.x".
Proof.
  split; [reflexivity|].
  apply (toSnakeCase_normal_form "postal-Code.x"). reflexivity.
Defined.

(** ** Splitting names into words *)

Section SplitCamelCase.

Lemma Join_cons_empty (p : string) (ps : list string) :
  strings.Join (p :: ps) "" = p +:+ strings.Join ps "".
Proof.
  destruct ps as [|q ps]; [by rewrite string_app_nil_r|]. reflexivity.
Qed.

Lemma length_zero_empty (s : string) : (0 <? String.length s)%nat = false -> s = "".
Proof. destruct s; [done|]. simpl. discriminate. Qed.

Lemma splitCamelCase_loop_join (i : nat) (s current : string) :
  strings.Join (splitCamelCase_loop i s current) "" = current +:+ s.
Proof.
  revert i current. induction s as [|r s IH]; intros i current.
  - cbn [splitCamelCase_loop]. rewrite string_app_nil_r.
    destruct (0 <? String.length current)%nat eqn:E; [reflexivity|].
    by rewrite (length_zero_empty _ E).
  - cbn [splitCamelCase_loop].
    assert (Hstep : strings.Join
              (splitCamelCase_loop (S i) s (current +:+ String r "")) ""
            = current +:+ String r s).
    { rewrite IH, string_app_assoc. reflexivity. }
    destruct ((0 <? i)%nat && isUpperAZ r); [|exact Hstep].
    destruct (0 <? String.length current)%nat; [|exact Hstep].
    rewrite Join_cons_empty, IH. reflexivity.
Qed.

Lemma splitCamelCase_loop_nonempty (i : nat) (s current : string) :
  Forall (fun p => p <> "") (splitCamelCase_loop i s current).
Proof.
  revert i current. induction s as [|r s IH]; intros i current.
  - cbn [splitCamelCase_loop].
    destruct current; [constructor|]. cbn. by repeat constructor.
  - cbn [splitCamelCase_loop].
    destruct ((0 <? i)%nat && isUpperAZ r); [|apply IH].
    destruct current as [|a current]; [apply IH|].
    cbn [String.length Nat.ltb Nat.leb]. constructor; [done | apply IH].
Qed.

Lemma startsUpper_app (p q : string) : startsUpper p -> startsUpper (p +:+ q).
Proof.
  intros (r & rest & -> & Hr). exists r, (rest +:+ q).
  by rewrite string_app_cons.
Qed.

Lemma splitCamelCase_loop_heads (i : nat) (s current : string) :
  (startsUpper current -> Forall startsUpper (splitCamelCase_loop i s current))
  /\ Forall startsUpper (tail (splitCamelCase_loop i s current)).
Proof.
  revert i current. induction s as [|r s IH]; intros i current.
  - cbn [splitCamelCase_loop].
    destruct (0 <? String.length current)%nat; split; try constructor;
      try done; constructor.
  - cbn [splitCamelCase_loop].
    assert (Hstep :
      (startsUpper current ->
       Forall startsUpper (splitCamelCase_loop (S i) s (current +:+ String r "")))
      /\ Forall startsUpper
           (tail (splitCamelCase_loop (S i) s (current +:+ String r "")))).
    { destruct (IH (S i) (current +:+ String r "")) as [IH1 IH2].
      split; [|exact IH2]. intros Hc. apply IH1. by apply startsUpper_app. }
    destruct ((0 <? i)%nat && isUpperAZ r) eqn:E; [|exact Hstep].
    destruct (0 <? String.length current)%nat; [|exact Hstep].
    apply andb_true_iff in E as [_ Hr].
    destruct (IH (S i) (String r "")) as [IH1 _].
    assert (Hrest : Forall startsUpper (splitCamelCase_loop (S i) s (String r ""))).
    { apply IH1. by exists r, "". }
    split; [intros Hc; by constructor | exact Hrest].
Qed.

Lemma oneWord_snoc (current : string) (r : ascii) :
  oneWord current -> current = "" \/ isUpperAZ r = false ->
  oneWord (current +:+ String r "").
Proof.
  unfold oneWord. intros Hc [->|Hr]; [constructor|].
  rewrite chars_app. destruct current as [|a current].
  - constructor.
  - unfold chars in *. cbn [list_ascii_of_string tail app] in *.
    apply Forall_app. split; [exact Hc|]. by repeat constructor.
Qed.

Lemma splitCamelCase_loop_words (i : nat) (s current : string) :
  (i = 0%nat -> current = "") -> oneWord current ->
  Forall oneWord (splitCamelCase_loop i s current).
Proof.
  revert i current. induction s as [|r s IH]; intros i current Hi Hc.
  - cbn [splitCamelCase_loop].
    destruct (0 <? String.length current)%nat; by repeat constructor.
  - cbn [splitCamelCase_loop].
    destruct ((0 <? i)%nat && isUpperAZ r) eqn:E.
    + destruct (0 <? String.length current)%nat eqn:El.
      * constructor; [exact Hc|]. apply IH; [done | constructor].
      * apply IH; [done|]. apply oneWord_snoc; [exact Hc|].
        left. by apply length_zero_empty.
    + apply IH; [done|]. apply oneWord_snoc; [exact Hc|].
      apply andb_false_iff in E as [E|E]; [|by right].
      left. apply Hi. destruct i; [done | discriminate].
Qed.

End SplitCamelCase.

(** X4. [splitCamelCase] cuts an ASCII name before every upper-case letter
    other than its first character and nowhere else: the words, put together
    again, are the name; no word is empty; every word after the first starts
    with an upper-case letter; and no word holds an upper-case letter after
    its first character. *)
Theorem splitCamelCase_words (s : string) (Hs : isASCII s = true) :
  strings.Join (splitCamelCase s) "" = s
  /\ Forall (fun p => p <> "") (splitCamelCase s)
  /\ Forall startsUpper (tail (splitCamelCase s))
  /\ Forall oneWord (splitCamelCase s).
Proof.
  unfold splitCamelCase.
  destruct (decide (String.length s = 0%nat)) as [E|E].
  - destruct s; [|discriminate]. repeat split; constructor.
  - split; [apply splitCamelCase_loop_join|].
    split; [apply splitCamelCase_loop_nonempty|].
    split; [apply splitCamelCase_loop_heads|].
    apply splitCamelCase_loop_words; [done | constructor].
Qed.

Lemma splitCamelCase_words_witness :
  isASCII "postalCodeXML" = true
  /\ strings.Join (splitCamelCase "postalCodeXML") "" = "postalCodeXML"
  /\ Forall (fun p => p <> "") (splitCamelCase "postalCodeXML")
  /\ Forall startsUpper (tail (splitCamelCase "postalCodeXML"))
  /\ Forall oneWord (splitCamelCase "postalCodeXML").
Proof.
  split; [reflexivity|].
  apply (splitCamelCase_words "postalCodeXML"). reflexivity.
Defined.

(** ** PascalCase and camelCase *)

Section Fields.

Variable f : ascii -> bool.

Lemma rev_app_app (a b : string) : String.rev_app a b = String.rev a +:+ b.
Proof.
  unfold String.rev. revert b. induction a as [|r a IH]; intros b; [done|].
  cbn [String.rev_app]. rewrite (IH (String r b)), (IH (String r "")).
  rewrite string_app_assoc. reflexivity.
Qed.

Lemma chars_rev (a : string) : chars (String.rev a) = reverse (chars a).
Proof.
  induction a as [|r a IH]; [done|].
  unfold String.rev. cbn [String.rev_app]. rewrite rev_app_app, chars_app, IH.
  unfold chars. cbn [list_ascii_of_string]. by rewrite reverse_cons.
Qed.

Lemma rev_nonempty (a : string) : a <> "" -> String.rev a <> "".
Proof.
  intros Ha Hr. apply (f_equal chars) in Hr. rewrite chars_rev in Hr.
  destruct a as [|r a]; [done|]. unfold chars in Hr.
  cbn [list_ascii_of_string] in Hr. rewrite reverse_cons in Hr.
  by destruct (reverse (list_ascii_of_string a)).
Qed.

(** The fields hold no separator and are not empty. *)
Lemma FieldsFunc_from_fields (s cur : string) :
  Forall (fun r => f r = false) (chars cur) ->
  Forall (fun p => p <> "" /\ Forall (fun r => f r = false) (chars p))
    (strings.FieldsFunc_from f s cur).
Proof.
  revert cur. induction s as [|r s IH]; intros cur Hcur.
  - cbn [strings.FieldsFunc_from].
    destruct (decide (cur = "")) as [E|E]; [constructor|].
    constructor; [|constructor]. split; [by apply rev_nonempty|].
    rewrite chars_rev. by apply Forall_reverse.
  - cbn [strings.FieldsFunc_from]. destruct (f r) eqn:Hr.
    + apply Forall_app. split.
      * destruct (decide (cur = "")) as [E|E]; [constructor|].
        constructor; [|constructor]. split; [by apply rev_nonempty|].
        rewrite chars_rev. by apply Forall_reverse.
      * apply IH. constructor.
    + apply IH. unfold chars. cbn [list_ascii_of_string]. by constructor.
Qed.

(** A name without separators is one field. *)
Lemma FieldsFunc_from_one (s cur : string) :
  Forall (fun r => f r = false) (chars s) ->
  String.rev cur +:+ s <> "" ->
  strings.FieldsFunc_from f s cur = [String.rev cur +:+ s].
Proof.
  revert cur. induction s as [|r s IH]; intros cur Hs Hne.
  - cbn [strings.FieldsFunc_from]. rewrite string_app_nil_r in *.
    destruct (decide (cur = "")) as [->|E]; [done | reflexivity].
  - unfold chars in Hs. cbn [list_ascii_of_string] in Hs.
    apply Forall_cons in Hs as [Hr Hs].
    cbn [strings.FieldsFunc_from]. rewrite Hr.
    assert (E : String.rev (String r cur) +:+ s = String.rev cur +:+ String r s).
    { unfold String.rev at 1. cbn [String.rev_app].
      rewrite rev_app_app, string_app_assoc. reflexivity. }
    rewrite IH; [by rewrite E | exact Hs | by rewrite E].
Qed.

Lemma FieldsFunc_one (s : string) :
  Forall (fun r => f r = false) (chars s) -> s <> "" ->
  strings.FieldsFunc s f = [s].
Proof.
  intros Hs Hne. unfold strings.FieldsFunc.
  rewrite FieldsFunc_from_one; [reflexivity | exact Hs | exact Hne].
Qed.

End Fields.

Section Words.

(** The words of a name: what [toPascalCase] and [toCamelCase] work on. *)
Lemma words_spec (s : string) :
  Forall (fun p => p <> "" /\ Forall (fun r => isSeparator r = false) (chars p))
    (concat (map splitCamelCase (strings.FieldsFunc s isSeparator))).
Proof.
  pose proof (FieldsFunc_from_fields isSeparator s "") as H.
  unfold strings.FieldsFunc.
  specialize (H ltac:(constructor)).
  induction H as [|p ps [Hp Hsep] _ IH]; [constructor|].
  cbn [map concat]. apply Forall_app. split; [|exact IH].
  clear IH.
  assert (Hj : Forall (fun r => isSeparator r = false)
                 (chars (strings.Join (splitCamelCase p) ""))).
  { unfold splitCamelCase. destruct (decide (String.length p = 0%nat)).
    - constructor.
    - by rewrite splitCamelCase_loop_join. }
  assert (Hn : Forall (fun q => q <> "") (splitCamelCase p)).
  { unfold splitCamelCase. destruct (decide (String.length p = 0%nat)).
    - constructor.
    - apply splitCamelCase_loop_nonempty. }
  induction Hn as [|q qs Hq _ IH]; [constructor|].
  rewrite Join_cons_empty, chars_app in Hj. apply Forall_app in Hj as [Hj1 Hj2].
  constructor; [done | by apply IH].
Qed.

Lemma capitalize_acc (acc : string) (parts : list string) :
  foldl (fun result part => result +:+ capitalize part) acc parts
  = acc +:+ foldl (fun result part => result +:+ capitalize part) "" parts.
Proof.
  revert acc. induction parts as [|p ps IH]; intros acc.
  - cbn [foldl]. by rewrite string_app_nil_r.
  - cbn [foldl]. rewrite (IH (acc +:+ capitalize p)), (IH ("" +:+ capitalize p)).
    change ("" +:+ capitalize p) with (capitalize p).
    by rewrite string_app_assoc.
Qed.

Lemma capitalize_cons (p : string) (ps : list string) :
  foldl (fun result part => result +:+ capitalize part) "" (p :: ps)
  = capitalize p
    +:+ foldl (fun result part => result +:+ capitalize part) "" ps.
Proof. cbn [foldl]. by rewrite capitalize_acc. Qed.

Lemma toCamelCase_loop_later (i : nat) (parts : list string) :
  toCamelCase_loop (S i) parts
  = foldl (fun result part => result +:+ capitalize part) "" parts.
Proof.
  revert i. induction parts as [|p ps IH]; intros i; [done|].
  rewrite capitalize_cons. cbn [toCamelCase_loop]. rewrite IH.
  destruct p; reflexivity.
Qed.

Lemma chars_capitalize (p : string) :
  Forall (fun r => isSeparator r = false) (chars p) ->
  Forall (fun r => isSeparator r = false) (chars (capitalize p)).
Proof.
  destruct p as [|r p]; [done|]. unfold chars.
  cbn [capitalize list_ascii_of_string]. intros H.
  apply Forall_cons in H as [Hr Hp]. constructor.
  - by rewrite isSeparator_upperChar.
  - fold (chars (strings.ToLower p)). unfold strings.ToLower.
    rewrite chars_mapChars. apply Forall_map.
    eapply Forall_impl; [exact Hp|]. intros c Hc. cbn beta.
    by rewrite isSeparator_lowerChar.
Qed.

Lemma chars_ToLower (p : string) :
  Forall (fun r => isSeparator r = false) (chars p) ->
  Forall (fun r => isSeparator r = false) (chars (strings.ToLower p)).
Proof.
  intros Hp. unfold strings.ToLower. rewrite chars_mapChars. apply Forall_map.
  eapply Forall_impl; [exact Hp|]. intros c Hc. cbn beta.
  by rewrite isSeparator_lowerChar.
Qed.

Lemma chars_capitalized (parts : list string) :
  Forall (fun p => p <> "" /\ Forall (fun r => isSeparator r = false) (chars p))
    parts ->
  Forall (fun r => isSeparator r = false)
    (chars (foldl (fun result part => result +:+ capitalize part) "" parts)).
Proof.
  induction 1 as [|p ps [_ Hp] _ IH]; [constructor|].
  rewrite capitalize_cons, chars_app. apply Forall_app.
  split; [by apply chars_capitalize | exact IH].
Qed.

(** A word on its own is left as it is by [capitalize], when its first
    character is no lower-case letter. *)
Lemma capitalize_word (p : string) :
  oneWord p -> (forall r, firstChar p = Some r -> isLowerAZ r = false) ->
  capitalize p = p.
Proof.
  destruct p as [|r p]; [done|]. unfold oneWord, chars.
  cbn [list_ascii_of_string tail firstChar capitalize].
  intros Hp Hr. f_equal.
  - apply upperChar_fixed. by apply Hr.
  - by apply ToLower_fixed.
Qed.

Lemma ToLower_word (p : string) :
  oneWord p -> (forall r, firstChar p = Some r -> isUpperAZ r = false) ->
  strings.ToLower p = p.
Proof.
  destruct p as [|r p]; [done|]. unfold oneWord, chars.
  cbn [list_ascii_of_string tail firstChar].
  intros Hp Hr. change (strings.ToLower (String r p))
    with (String (strings.lowerChar r) (strings.ToLower p)). f_equal.
  - apply lowerChar_fixed. by apply Hr.
  - by apply ToLower_fixed.
Qed.

Lemma startsUpper_not_lower (p : string) (r : ascii) :
  startsUpper p -> firstChar p = Some r -> isLowerAZ r = false.
Proof.
  intros (a & rest & -> & Ha) [= <-]. apply upperChar_fixed.
  revert Ha. clear. destruct a as [[] [] [] [] [] [] [] []]; vm_compute; congruence.
Qed.

Lemma capitalize_words (parts : list string) :
  Forall startsUpper parts -> Forall oneWord parts ->
  foldl (fun result part => result +:+ capitalize part) "" parts
  = strings.Join parts "".
Proof.
  induction 1 as [|p ps Hp _ IH]; intros Hw; [done|].
  apply Forall_cons in Hw as [Hw Hws].
  rewrite capitalize_cons, Join_cons_empty, IH by done. f_equal.
  apply capitalize_word; [exact Hw|]. intros r. by apply startsUpper_not_lower.
Qed.

Lemma firstChar_app (p q : string) :
  p <> "" -> firstChar (p +:+ q) = firstChar p.
Proof. by destruct p. Qed.

End Words.

Section NormalForms.

Lemma splitCamelCase_spec (s : string) :
  strings.Join (splitCamelCase s) "" = s
  /\ Forall (fun p => p <> "") (splitCamelCase s)
  /\ Forall startsUpper (tail (splitCamelCase s))
  /\ Forall oneWord (splitCamelCase s).
Proof.
  unfold splitCamelCase.
  destruct (decide (String.length s = 0%nat)) as [E|E].
  - destruct s; [|discriminate]. repeat split; constructor.
  - split; [apply splitCamelCase_loop_join|].
    split; [apply splitCamelCase_loop_nonempty|].
    split; [apply splitCamelCase_loop_heads|].
    apply splitCamelCase_loop_words; [done | constructor].
Qed.

(** The words of a name without separators: the first one starts as the
    name does, the later ones are left as they are by [capitalize]. *)
Lemma words_one_field (s : string) :
  Forall (fun r => isSeparator r = false) (chars s) -> s <> "" ->
  exists p ps,
    concat (map splitCamelCase (strings.FieldsFunc s isSeparator)) = p :: ps
    /\ p <> "" /\ oneWord p /\ firstChar p = firstChar s
    /\ s = p +:+ foldl (fun result part => result +:+ capitalize part) "" ps.
Proof.
  intros Hs Hne. rewrite FieldsFunc_one by done.
  cbn [map concat]. rewrite app_nil_r.
  destruct (splitCamelCase_spec s) as (Hj & Hn & Hu & Hw).
  destruct (splitCamelCase s) as [|p ps]; [by cbn in Hj|].
  cbn [tail] in Hu. apply Forall_cons in Hn as [Hp _].
  apply Forall_cons in Hw as [Hwp Hws].
  rewrite Join_cons_empty in Hj.
  exists p, ps. split; [reflexivity|]. split; [exact Hp|]. split; [exact Hwp|].
  split.
  - rewrite <- Hj. by rewrite firstChar_app.
  - rewrite capitalize_words by done. by rewrite Hj.
Qed.

Lemma toPascalCase_chars (s : string) :
  Forall (fun r => isSeparator r = false) (chars (toPascalCase s))
  /\ (forall r, firstChar (toPascalCase s) = Some r -> isLowerAZ r = false).
Proof.
  unfold toPascalCase. cbv zeta.
  pose proof (words_spec s) as Hw.
  split; [by apply chars_capitalized|].
  destruct (concat (map splitCamelCase (strings.FieldsFunc s isSeparator)))
    as [|p ps]; [done|].
  apply Forall_cons in Hw as [[Hp _] _].
  rewrite capitalize_cons. destruct p as [|a p]; [done|].
  cbn [capitalize]. rewrite string_app_cons. cbn [firstChar].
  intros r [= <-]. apply upperChar_not_lower.
Qed.

Lemma toPascalCase_fixed (s : string) :
  Forall (fun r => isSeparator r = false) (chars s) ->
  (forall r, firstChar s = Some r -> isLowerAZ r = false) ->
  toPascalCase s = s.
Proof.
  intros Hs Hr. destruct (decide (s = "")) as [->|Hne]; [reflexivity|].
  destruct (words_one_field s Hs Hne) as (p & ps & Hws & Hp & Hw & Hf & Heq).
  unfold toPascalCase. cbv zeta. rewrite Hws, capitalize_cons.
  rewrite capitalize_word; [by rewrite <- Heq | exact Hw|].
  intros r. rewrite Hf. apply Hr.
Qed.

Lemma toCamelCase_words (s : string) :
  toCamelCase s
  = match concat (map splitCamelCase (strings.FieldsFunc s isSeparator)) with
    | [] => ""
    | p :: ps =>
        strings.ToLower p
        +:+ foldl (fun result part => result +:+ capitalize part) "" ps
    end.
Proof.
  unfold toCamelCase. cbv zeta. pose proof (words_spec s) as Hw.
  destruct (concat (map splitCamelCase (strings.FieldsFunc s isSeparator)))
    as [|p ps]; [done|].
  apply Forall_cons in Hw as [[Hp _] _].
  cbn [toCamelCase_loop]. rewrite toCamelCase_loop_later.
  destruct p; [done|]. reflexivity.
Qed.

Lemma toCamelCase_chars (s : string) :
  Forall (fun r => isSeparator r = false) (chars (toCamelCase s))
  /\ (forall r, firstChar (toCamelCase s) = Some r -> isUpperAZ r = false).
Proof.
  rewrite toCamelCase_words. pose proof (words_spec s) as Hw.
  destruct (concat (map splitCamelCase (strings.FieldsFunc s isSeparator)))
    as [|p ps]; [split; [constructor | done]|].
  apply Forall_cons in Hw as [[Hp Hsep] Hws]. split.
  - rewrite chars_app. apply Forall_app.
    split; [by apply chars_ToLower | by apply chars_capitalized].
  - destruct p as [|a p]; [done|].
    change (strings.ToLower (String a p))
      with (String (strings.lowerChar a) (strings.ToLower p)).
    rewrite string_app_cons. cbn [firstChar].
    intros r [= <-]. apply lowerChar_not_upper.
Qed.

Lemma toCamelCase_fixed (s : string) :
  Forall (fun r => isSeparator r = false) (chars s) ->
  (forall r, firstChar s = Some r -> isUpperAZ r = false) ->
  toCamelCase s = s.
Proof.
  intros Hs Hr. destruct (decide (s = "")) as [->|Hne]; [reflexivity|].
  destruct (words_one_field s Hs Hne) as (p & ps & Hws & Hp & Hw & Hf & Heq).
  rewrite toCamelCase_words, Hws.
  rewrite ToLower_word; [by rewrite <- Heq | exact Hw|].
  intros r. rewrite Hf. apply Hr.
Qed.

Lemma toPascalCase_toCamelCase (s : string) :
  toPascalCase s = upperFirst (toCamelCase s)
  /\ toCamelCase s = lowerFirst (toPascalCase s).
Proof.
  rewrite toCamelCase_words. unfold toPascalCase. cbv zeta.
  pose proof (words_spec s) as Hw.
  destruct (concat (map splitCamelCase (strings.FieldsFunc s isSeparator)))
    as [|p ps]; [done|].
  apply Forall_cons in Hw as [[Hp _] _].
  rewrite capitalize_cons. destruct p as [|a p]; [done|].
  change (strings.ToLower (String a p))
    with (String (strings.lowerChar a) (strings.ToLower p)).
  cbn [capitalize]. rewrite !string_app_cons. cbn [upperFirst lowerFirst].
  by rewrite upperChar_lowerChar, lowerChar_upperChar.
Qed.

End NormalForms.

(** X5. The PascalCase form of an ASCII name holds none of the separators
    [_], [-] and [.] and does not start with a lower-case letter; the names
    [toPascalCase] leaves unchanged are exactly the names of that shape, so
    formatting a formatted name changes nothing. *)
Theorem toPascalCase_normal_form (s : string) (Hs : isASCII s = true) :
  Forall (fun r => isSeparator r = false) (chars (toPascalCase s))
  /\ (forall r, firstChar (toPascalCase s) = Some r -> isLowerAZ r = false)
  /\ (toPascalCase s = s
      <-> Forall (fun r => isSeparator r = false) (chars s)
          /\ (forall r, firstChar s = Some r -> isLowerAZ r = false))
  /\ toPascalCase (toPascalCase s) = toPascalCase s.
Proof.
  destruct (toPascalCase_chars s) as [H1 H2].
  split; [exact H1|]. split; [exact H2|]. split.
  - split.
    + intros H. rewrite <- H. by split.
    + intros [Hc Hf]. by apply toPascalCase_fixed.
  - by apply toPascalCase_fixed.
Qed.

Lemma toPascalCase_normal_form_witness :
  isASCII "first_name.x" = true
  /\ Forall (fun r => isSeparator r = false) (chars (toPascalCase "first_name.x"))
  /\ (forall r, firstChar (toPascalCase "first_name.x") = Some r -> isLowerAZ r = false)
  /\ (toPascalCase "first_name.x" = "first_name.x"
      <-> Forall (fun r => isSeparator r = false) (chars "first_name.x")
          /\ (forall r, firstChar "first_name.x" = Some r -> isLowerAZ r = false))
  /\ toPascalCase (toPascalCase "first_name.x") = toPascalCase "first_name.x".
Proof.
  split; [reflexivity|].
  apply (toPascalCase_normal_form "first_name.x"). reflexivity.
Defined.

(** X6. The camelCase form of an ASCII name holds no separator and does not
    start with an upper-case letter; the names [toCamelCase] leaves unchanged
    are exactly the names of that shape; and the camelCase and the PascalCase
    form of a name differ in the case of the first character only. *)
Theorem toCamelCase_normal_form (s : string) (Hs : isASCII s = true) :
  Forall (fun r => isSeparator r = false) (chars (toCamelCase s))
  /\ (forall r, firstChar (toCamelCase s) = Some r -> isUpperAZ r = false)
  /\ (toCamelCase s = s
      <-> Forall (fun r => isSeparator r = false) (chars s)
          /\ (forall r, firstChar s = Some r -> isUpperAZ r = false))
  /\ toPascalCase s = upperFirst (toCamelCase s)
  /\ toCamelCase s = lowerFirst (toPascalCase s).
Proof.
  destruct (toCamelCase_chars s) as [H1 H2].
  split; [exact H1|]. split; [exact H2|]. split.
  - split.
    + intros H. rewrite <- H. by split.
    + intros [Hc Hf]. by apply toCamelCase_fixed.
  - apply toPascalCase_toCamelCase.
Qed.

Lemma toCamelCase_normal_form_witness :
  isASCII "Postal_code" = true
  /\ Forall (fun r => isSeparator r = false) (chars (toCamelCase "Postal_code"))
  /\ (forall r, firstChar (toCamelCase "Postal_code") = Some r -> isUpperAZ r = false)
  /\ (toCamelCase "Postal_code" = "Postal_code"
      <-> Forall (fun r => isSeparator r = false) (chars "Postal_code")
          /\ (forall r, firstChar "Postal_code" = Some r -> isUpperAZ r = false))
  /\ toPascalCase "Postal_code" = upperFirst (toCamelCase "Postal_code")
  /\ toCamelCase "Postal_code" = lowerFirst (toPascalCase "Postal_code").
Proof.
  split; [reflexivity|].
  apply (toCamelCase_normal_form "Postal_code"). reflexivity.
Defined.

(** ** The converter's state across conversions *)

Section EnumValueNames.

Lemma valuesAssigned_NoDup (used : gset string) (pre : string) (number : nat)
  (enumerations : list Enumeration) (values : list ProtoEnumValue) :
  valuesAssigned used pre number enumerations values ->
  NoDup (map ProtoEnumValue_Name values)
  /\ (forall x, x ∈ map ProtoEnumValue_Name values -> x ∉ used).
Proof.
  revert used number values.
  induction enumerations as [|en ens IH]; intros used number [|v vs];
    cbn [valuesAssigned]; try done.
  - intros _. split; [constructor|]. intros x Hx. by apply elem_of_nil in Hx.
  - intros (_ & [Hfresh _] & Hrest). apply IH in Hrest as [Hnd Hout].
    cbn [map]. split.
    + constructor; [|exact Hnd]. intros Hin. apply Hout in Hin.
      apply Hin. apply elem_of_union_l. by apply elem_of_singleton.
    + intros x Hx. apply elem_of_cons in Hx as [->|Hx]; [exact Hfresh|].
      apply Hout in Hx. intros Hu. apply Hx. by apply elem_of_union_r.
Qed.

Lemma enumAssigned_NoDup (used : gset string) (simpleType : SimpleType)
  (enum : ProtoEnum) :
  enumAssigned used simpleType enum ->
  NoDup (map ProtoEnumValue_Name (ProtoEnum_Values enum))
  /\ (forall x, x ∈ map ProtoEnumValue_Name (ProtoEnum_Values enum) -> x ∉ used).
Proof.
  intros (first & rest & -> & _ & [Hfresh _] & Hrest).
  apply valuesAssigned_NoDup in Hrest as [Hnd Hout]. cbn [map]. split.
  - constructor; [|exact Hnd]. intros Hin. apply Hout in Hin.
    apply Hin. apply elem_of_union_l. by apply elem_of_singleton.
  - intros x Hx. apply elem_of_cons in Hx as [->|Hx]; [exact Hfresh|].
    apply Hout in Hx. intros Hu. apply Hx. by apply elem_of_union_r.
Qed.

Lemma enumsAssigned_NoDup (used : gset string) (simpleTypes : list SimpleType)
  (enums : list ProtoEnum) :
  enumsAssigned used simpleTypes enums ->
  NoDup (enumValueNames enums)
  /\ (forall x, x ∈ enumValueNames enums -> x ∉ used).
Proof.
  revert used enums.
  induction simpleTypes as [|st sts IH]; intros used [|enum enums];
    cbn [enumsAssigned]; try done.
  - intros _. split; [constructor|]. intros x Hx. by apply elem_of_nil in Hx.
  - intros [Hone Hrest]. apply enumAssigned_NoDup in Hone as [Hnd1 Hout1].
    apply IH in Hrest as [Hnd Hout].
    unfold enumValueNames in *. cbn [map concat]. split.
    + apply NoDup_app. split; [exact Hnd1|]. split; [|exact Hnd].
      intros x Hx Hin. apply Hout in Hin. apply Hin.
      apply elem_of_union_l. unfold valueNames. by apply elem_of_list_to_set.
    + intros x Hx. apply elem_of_app in Hx as [Hx|Hx]; [by apply Hout1|].
      apply Hout in Hx. intros Hu. apply Hx. by apply elem_of_union_r.
Qed.

End EnumValueNames.

Section ConvertState.

(** First pass: the value names handed out are reserved in the state. *)
Lemma convertSimpleTypes_values (simpleTypes : list SimpleType) :
  forall (c c' : Converter) (enums : list ProtoEnum),
    convertSimpleTypes simpleTypes c = (Ok enums, c') ->
    usedEnumValues c'
    = list_to_set (enumValueNames enums) ∪ usedEnumValues c.
Proof.
  induction simpleTypes as [|st sts IH]; intros c c' enums Hrun.
  - cbn [convertSimpleTypes] in Hrun. unfold ret in Hrun.
    injection Hrun as <- <-. unfold enumValueNames. cbn [map concat list_to_set].
    by rewrite (left_id_L ∅ (∪)).
  - cbn [convertSimpleTypes] in Hrun.
    destruct (hasEnumerations st) eqn:Hhas; [|by apply IH].
    destruct (convertSimpleTypeToEnum_run st c Hhas)
      as (enum & u & m & Hone & _ & Hu & _).
    unfold bind at 1 in Hrun. rewrite Hone in Hrun.
    set (c1 := with_enumValueCounters m _) in Hrun.
    unfold bind at 1 in Hrun.
    destruct (convertSimpleTypes sts c1) as [[enums1|msg] c2] eqn:Hrest;
      [|discriminate].
    unfold ret in Hrun. injection Hrun as <- <-.
    rewrite (IH c1 c2 enums1 Hrest).
    change (usedEnumValues c1) with u. rewrite Hu.
    unfold enumValueNames, valueNames. cbn [map concat].
    rewrite list_to_set_app_L, !(assoc_L (∪)). f_equal. apply (comm_L (∪)).
Qed.

(** What [Convert] leaves in the state and puts in the file, beside the
    declarations: the names of the file are reserved, and the imports are
    those of the field types of the file. *)
Lemma Convert_state (schema : Schema) (c : Converter) :
  exists pf c',
    Convert schema c = (Ok pf, c')
    /\ usedNames c' = list_to_set (typeNames pf) ∪ usedNames c
    /\ usedEnumValues c'
       = list_to_set (enumValueNames (ProtoFile_Enums pf)) ∪ usedEnumValues c
    /\ typeMapper c' = typeMapper c
    /\ ProtoFile_Imports pf
       = TM.GetRequiredImports (typeMapper c) (fieldTypes pf)
    /\ ProtoFile_Package pf = generatePackageName (TargetNamespace schema).
Proof.
  unfold Convert. unfold bind at 1, modify at 1.
  set (c0 := with_currentSchema (Some schema) c).
  destruct (convertSimpleTypes_run (SimpleTypes schema) c0)
    as (enums & c1 & Hrun1 & Henv1 & Hsch1 & Hused1 & _).
  pose proof (convertSimpleTypes_values _ _ _ _ Hrun1) as Hvals1.
  change (usedNames c0) with (usedNames c) in Hused1.
  change (usedEnumValues c0) with (usedEnumValues c) in Hvals1.
  unfold bind at 1. rewrite Hrun1.
  destruct (convertComplexTypes_run (ComplexTypes schema) c1)
    as (ms2 & c2 & Hrun2 & Henv2 & Hsch2 & Hvals2 & Hused2 & _).
  unfold bind at 1. rewrite Hrun2.
  destruct (convertElements_run (Elements schema) [] schema c2)
    as (ms3 & c3 & Hrun3 & Henv3 & _ & Hvals3 & Hused3 & _).
  { rewrite Hsch2, Hsch1. reflexivity. }
  { reflexivity. }
  cbn [length] in Hrun3.
  unfold bind at 1. rewrite Hrun3.
  unfold bind at 1, gets at 1, ret.
  eexists _, c3. split; [reflexivity|].
  cbn [ProtoFile_Enums ProtoFile_Messages ProtoFile_Imports ProtoFile_Package].
  destruct Henv1 as [Htm1 _], Henv2 as [Htm2 _], Henv3 as [Htm3 _].
  split.
  { rewrite Hused3, Hused2, Hused1. unfold typeNames.
    cbn [ProtoFile_Enums ProtoFile_Messages].
    apply set_eq. intros x.
    rewrite !elem_of_union, !elem_of_list_to_set, map_app, !elem_of_app. tauto. }
  split; [rewrite Hvals3, Hvals2; exact Hvals1|].
  split; [rewrite Htm3, Htm2, Htm1; reflexivity|].
  split; [|reflexivity].
  unfold fieldTypes. cbn [ProtoFile_Messages].
  rewrite Htm3, Htm2, Htm1. reflexivity.
Qed.

End ConvertState.

Section Imports.

Lemma GetRequiredImports_acc (acc : gset string) (mappedTypes : list string)
  (imp : string) :
  imp ∈ foldl (fun imports protoType =>
                 match TM.importOf protoType with
                 | Some i => {[ i ]} ∪ imports
                 | None => imports
                 end) acc mappedTypes
  <-> imp ∈ acc
      \/ exists t, t ∈ mappedTypes /\ TM.importOf t = Some imp.
Proof.
  revert acc. induction mappedTypes as [|t ts IH]; intros acc.
  - cbn [foldl]. split; [by left|].
    intros [H|(t & Ht & _)]; [done | by apply elem_of_nil in Ht].
  - cbn [foldl]. rewrite IH. split.
    + intros [Hacc|(t' & Ht' & Hi)].
      * destruct (TM.importOf t) as [i|] eqn:Ei; [|by left].
        apply elem_of_union in Hacc as [Hi|Hacc]; [|by left].
        apply elem_of_singleton in Hi as ->.
        right. exists t. split; [by left | done].
      * right. exists t'. split; [by right | done].
    + intros [Hacc|(t' & Ht' & Hi)].
      * left. destruct (TM.importOf t); [by apply elem_of_union_r | done].
      * apply elem_of_cons in Ht' as [->|Ht'].
        -- left. rewrite Hi. apply elem_of_union_l. by apply elem_of_singleton.
        -- right. by exists t'.
Qed.

Lemma GetRequiredImports_elem (tm : TypeMapper) (mappedTypes : list string)
  (imp : string) :
  imp ∈ TM.GetRequiredImports tm mappedTypes
  <-> exists t, t ∈ mappedTypes /\ TM.importOf t = Some imp.
Proof.
  unfold TM.GetRequiredImports. rewrite GetRequiredImports_acc.
  split; [|by right]. intros [H|H]; [|done]. by apply elem_of_empty in H.
Qed.

Lemma elem_of_concat {A : Type} (x : A) (ls : list (list A)) :
  x ∈ concat ls <-> exists l, x ∈ l /\ l ∈ ls.
Proof.
  rewrite list_elem_of_In, in_concat. split.
  - intros (l & Hl & Hx). exists l. by rewrite !list_elem_of_In.
  - intros (l & Hx & Hl). exists l. by rewrite <- !list_elem_of_In.
Qed.

End Imports.

(** X7. The enum value names of a file are pairwise distinct across all the
    enums of the file, and none of them is a value name the converter had
    handed out before the call. *)
Theorem Convert_enum_value_names_unique (schema : Schema) (c : Converter) :
  exists pf c',
    Convert schema c = (Ok pf, c')
    /\ NoDup (enumValueNames (ProtoFile_Enums pf))
    /\ (forall x, x ∈ enumValueNames (ProtoFile_Enums pf) -> x ∉ usedEnumValues c).
Proof.
  destruct (Convert_run schema c) as (pf & c' & Hrun & _ & Henums & _).
  exists pf, c'. split; [exact Hrun|].
  by eapply enumsAssigned_NoDup.
Qed.

(** X8. A converter keeps the names of its earlier conversions reserved:
    when one converter converts two schemas in turn (or one schema twice),
    the message and enum names of the two files are pairwise distinct, and
    so are their enum value names. *)
Theorem Convert_twice_names_distinct (schema1 schema2 : Schema) (c : Converter) :
  exists pf1 c1 pf2 c2,
    Convert schema1 c = (Ok pf1, c1)
    /\ Convert schema2 c1 = (Ok pf2, c2)
    /\ NoDup (typeNames pf1 ++ typeNames pf2)%list
    /\ NoDup (enumValueNames (ProtoFile_Enums pf1)
              ++ enumValueNames (ProtoFile_Enums pf2))%list.
Proof.
  destruct (Convert_state schema1 c) as (pf1 & c1 & Hrun1 & Hused1 & Hvals1 & _).
  destruct (Convert_run schema1 c) as (pf1' & c1' & Hrun1' & Hnames1 & Henums1 & _).
  rewrite Hrun1 in Hrun1'. injection Hrun1' as <- <-.
  destruct (Convert_run schema2 c1) as (pf2 & c2 & Hrun2 & Hnames2 & Henums2 & _).
  exists pf1, c1, pf2, c2. split; [exact Hrun1|]. split; [exact Hrun2|].
  apply namesAssigned_NoDup in Hnames1 as [Hnd1 _].
  apply namesAssigned_NoDup in Hnames2 as [Hnd2 Hout2].
  apply enumsAssigned_NoDup in Henums1 as [Hvd1 _].
  apply enumsAssigned_NoDup in Henums2 as [Hvd2 Hvout2].
  split.
  - apply NoDup_app. split; [exact Hnd1|]. split; [|exact Hnd2].
    intros x Hx1 Hx2. apply Hout2 in Hx2. apply Hx2. rewrite Hused1.
    apply elem_of_union_l. by apply elem_of_list_to_set.
  - apply NoDup_app. split; [exact Hvd1|]. split; [|exact Hvd2].
    intros x Hx1 Hx2. apply Hvout2 in Hx2. apply Hx2. rewrite Hvals1.
    apply elem_of_union_l. by apply elem_of_list_to_set.
Qed.

(** X9. The imports of a file are exactly the import paths of the types of
    its fields: a path is imported if and only if some field of some message
    of the file has a type that requires it. *)
Theorem Convert_imports (schema : Schema) (c : Converter) :
  exists pf c',
    Convert schema c = (Ok pf, c')
    /\ forall imp : string,
         imp ∈ ProtoFile_Imports pf
         <-> exists m f,
               m ∈ ProtoFile_Messages pf /\ f ∈ ProtoMessage_Fields m
               /\ TM.importOf (ProtoField_Type f) = Some imp.
Proof.
  destruct (Convert_state schema c) as (pf & c' & Hrun & _ & _ & _ & Himp & _).
  exists pf, c'. split; [exact Hrun|]. intros imp.
  rewrite Himp, GetRequiredImports_elem. unfold fieldTypes. split.
  - intros (t & Ht & Hi).
    apply elem_of_concat in Ht as (ts & Ht & Hts).
    apply list_elem_of_fmap in Hts as (m & -> & Hm).
    apply list_elem_of_fmap in Ht as (f & -> & Hf).
    by exists m, f.
  - intros (m & f & Hm & Hf & Hi). exists (ProtoField_Type f). split; [|exact Hi].
    apply elem_of_concat. exists (map ProtoField_Type (ProtoMessage_Fields m)).
    split.
    + apply list_elem_of_fmap. by exists f.
    + apply list_elem_of_fmap. by exists m.
Qed.

(** ** Members of a built-in type *)

Section BuiltInMembers.

Lemma builtin_not_wrapper (tm : TypeMapper) (t : string) :
  TM.IsBuiltInType tm t = true ->
  strings.HasPrefix (TM.CleanTypeName t) "ArrayOf" = false.
Proof.
  intros H. apply IsBuiltInType_table in H.
  generalize dependent (TM.CleanTypeName t). intros s Hs.
  cbn [map fst xsdTable] in Hs.
  repeat (apply elem_of_cons in Hs as [->|Hs]; [reflexivity|]).
  by apply elem_of_nil in Hs.
Qed.

Lemma MapXSDType_mappedType (tm : TypeMapper) (t : string) :
  TM.MapXSDType tm t = Ok (mappedType tm t).
Proof.
  unfold mappedType. by destruct (MapXSDType_total tm t) as [p ->].
Qed.

Lemma fieldOfElement_builtin (c : Converter) (n : nat) (e : Element) :
  TM.IsBuiltInType (typeMapper c) (Element_Type e) = true ->
  ProtoField_Type (fieldOfElement c n e)
  = mappedType (typeMapper c) (Element_Type e).
Proof.
  intros Hb. unfold fieldOfElement, getArrayOfElementType. cbv zeta.
  rewrite (builtin_not_wrapper _ _ Hb). cbn [negb].
  change (nonEmpty "") with false. cbv iota. cbn [ProtoField_Type].
  unfold renamedType. by rewrite Hb.
Qed.

Lemma fieldOfAttribute_builtin (c : Converter) (n : nat) (a : Attribute) :
  TM.IsBuiltInType (typeMapper c) (Attribute_Type a) = true ->
  ProtoField_Type (fieldOfAttribute c n a)
  = mappedType (typeMapper c) (Attribute_Type a).
Proof.
  intros Hb. unfold fieldOfAttribute. cbn [ProtoField_Type].
  unfold renamedType. by rewrite Hb.
Qed.

Lemma messageOf_builtin (c : Converter) (name : string) (ct : ComplexType) :
  Forall2
    (fun f t =>
       TM.IsBuiltInType (typeMapper c) t = true ->
       TM.MapXSDType (typeMapper c) t = Ok (ProtoField_Type f))
    (ProtoMessage_Fields (messageOf c name ct)) (memberTypes ct).
Proof.
  unfold messageOf, memberTypes, sequenceFields, choiceFields, attributeFields.
  cbn [ProtoMessage_Fields].
  apply Forall2_app; [|apply Forall2_app].
  - apply Forall2_fmap_r, fields_imap. intros i e Hb.
    rewrite fieldOfElement_builtin by done. apply MapXSDType_mappedType.
  - apply Forall2_fmap_r, fields_imap. intros i e Hb.
    change (ProtoField_Type (with_Label FieldLabelOptional ?f))
      with (ProtoField_Type f).
    rewrite fieldOfElement_builtin by done. apply MapXSDType_mappedType.
  - apply Forall2_fmap_r, fields_imap. intros i a Hb.
    rewrite fieldOfAttribute_builtin by done. apply MapXSDType_mappedType.
Qed.

End BuiltInMembers.

(** X10. A member (sequence element, choice element or attribute) whose
    declared type is a built-in type name, behind any prefix, becomes a field
    of the type the type mapper gives that name: neither a declaration of the
    schema with the same name nor the rename map nor an array wrapper is
    consulted for it. *)
Theorem Convert_builtin_members (schema : Schema) (c : Converter) :
  exists pf c',
    Convert schema c = (Ok pf, c')
    /\ Forall2
         (fun message complexType =>
            Forall2
              (fun field declared =>
                 TM.IsBuiltInType (typeMapper c) declared = true ->
                 TM.MapXSDType (typeMapper c) declared
                 = Ok (ProtoField_Type field))
              (ProtoMessage_Fields message) (memberTypes complexType))
         (ProtoFile_Messages pf) (emittedTypes c schema).
Proof.
  destruct (Convert_run schema c) as (pf & c' & Hrun & _ & _ & Hconv & _).
  exists pf, c'. split; [exact Hrun|].
  eapply Forall2_impl; [exact Hconv|].
  intros m ct (c1 & (Htm & _) & _ & ->).
  change (typeMapper (with_currentSchema (Some schema) c)) with (typeMapper c) in Htm.
  rewrite <- Htm. apply messageOf_builtin.
Qed.

(** ** Package names *)

Section PackageNames.

Variable P : ascii -> Prop.

Lemma Split_chars (s : string) (sep : ascii) :
  Forall P (chars s) ->
  Forall (fun p => Forall P (chars p)) (strings.Split s sep).
Proof.
  induction s as [|r s IH]; intros Hs.
  - cbn [strings.Split]. repeat constructor.
  - unfold chars in Hs. cbn [list_ascii_of_string] in Hs.
    apply Forall_cons in Hs as [Hr Hs]. specialize (IH Hs).
    cbn [strings.Split]. destruct (decide (r = sep)).
    + constructor; [constructor | exact IH].
    + destruct (strings.Split s sep) as [|p ps].
      * repeat constructor. exact Hr.
      * apply Forall_cons in IH as [Hp Hps]. constructor; [|exact Hps].
        unfold chars. cbn [list_ascii_of_string]. by constructor.
Qed.

Lemma Split_pieces (s : string) (sep : ascii) :
  Forall (fun p => Forall (fun r => r <> sep) (chars p)) (strings.Split s sep).
Proof.
  induction s as [|r s IH].
  - cbn [strings.Split]. repeat constructor.
  - cbn [strings.Split]. destruct (decide (r = sep)).
    + constructor; [constructor | exact IH].
    + destruct (strings.Split s sep) as [|p ps].
      * repeat constructor. exact n.
      * apply Forall_cons in IH as [Hp Hps]. constructor; [|exact Hps].
        unfold chars. cbn [list_ascii_of_string]. by constructor.
Qed.

Lemma Join_chars (parts : list string) (sep : string) :
  Forall (fun p => Forall P (chars p)) parts -> Forall P (chars sep) ->
  Forall P (chars (strings.Join parts sep)).
Proof.
  intros Hparts Hsep. induction Hparts as [|p ps Hp Hps IH]; [constructor|].
  destruct ps as [|q ps]; [exact Hp|].
  change (strings.Join (p :: q :: ps) sep)
    with (p +:+ sep +:+ strings.Join (q :: ps) sep).
  rewrite !chars_app. apply Forall_app. split; [exact Hp|].
  apply Forall_app. split; [exact Hsep | exact IH].
Qed.

Lemma at_index_chars (parts : list string) (i : nat) :
  Forall (fun p => Forall P (chars p)) parts ->
  Forall P (chars (at_index parts i)).
Proof.
  intros Hparts. unfold at_index.
  destruct (parts !! i) as [p|] eqn:E; [|constructor].
  cbn [default].
  exact (Forall_lookup_1 (fun p => Forall P (chars p)) parts i p Hparts E).
Qed.

Lemma dropChars_chars (n : nat) (s : string) :
  Forall P (chars s) -> Forall P (chars (strings.dropChars n s)).
Proof.
  revert s. induction n as [|n IH]; intros s Hs; [by destruct s|].
  destruct s as [|r s]; [constructor|].
  cbn [strings.dropChars]. apply IH.
  unfold chars in Hs. cbn [list_ascii_of_string] in Hs.
  by apply Forall_cons in Hs as [_ Hs].
Qed.

Lemma TrimPrefix_chars (s pre : string) :
  Forall P (chars s) -> Forall P (chars (strings.TrimPrefix s pre)).
Proof.
  intros Hs. unfold strings.TrimPrefix.
  destruct (strings.HasPrefix s pre); [by apply dropChars_chars | exact Hs].
Qed.

Lemma ReplaceAll_chars (s : string) (old new : ascii) :
  P new -> Forall (fun r => r <> old -> P r) (chars s) ->
  Forall P (chars (strings.ReplaceAll s old new)).
Proof.
  intros Hnew Hs. unfold strings.ReplaceAll. rewrite chars_mapChars.
  apply Forall_map. eapply Forall_impl; [exact Hs|].
  intros r Hr. cbn beta. destruct (decide (r = old)); [exact Hnew | by apply Hr].
Qed.

Lemma Forall_filter_keep {A : Type} (Q R : A -> Prop)
  `{!forall x, Decision (R x)} (l : list A) :
  Forall Q l -> Forall Q (filter R l).
Proof.
  intros Hl. apply Forall_forall. intros x Hx.
  apply list_elem_of_filter in Hx as [_ Hx].
  by apply (proj1 (Forall_forall Q l) Hl).
Qed.

End PackageNames.

(** X11. Outside the [urn:] namespaces, the package name derived from a
    target namespace holds no slash, whatever the namespace. *)
Theorem generatePackageName_no_slash (targetNamespace : string)
  (Hurn : strings.HasPrefix targetNamespace "urn:" = false) :
  Forall (fun r => r <> "/"%char) (chars (generatePackageName targetNamespace)).
Proof.
  unfold generatePackageName.
  destruct (bool_decide_reflect (targetNamespace = "")) as [_|_].
  { by repeat constructor. }
  destruct (strings.HasPrefix targetNamespace "http://"
            || strings.HasPrefix targetNamespace "https://").
  { cbv zeta.
    set (parts := strings.Split _ "/").
    assert (Hparts : Forall (fun p => Forall (fun r => r <> "/"%char) (chars p)) parts)
      by apply Split_pieces.
    destruct (bool_decide (length parts = 2%nat)); [by apply at_index_chars|].
    destruct ((1 <? length parts)%nat && nonEmpty _); [by apply at_index_chars|].
    apply Join_chars; [|by repeat constructor].
    assert (Hdomain : Forall (fun p => Forall (fun r => r <> "/"%char) (chars p))
                        (if nonEmpty (at_index parts 0)
                         then strings.Split (at_index parts 0) "." else [])).
    { destruct (nonEmpty (at_index parts 0)); [|constructor].
      apply Split_chars. by apply at_index_chars. }
    destruct (1 <? length parts)%nat; [|exact Hdomain].
    apply Forall_app. split; [exact Hdomain|].
    apply Forall_filter_keep, Forall_drop. exact Hparts. }
  destruct (strings.HasPrefix targetNamespace "./").
  { cbv zeta. apply Join_chars; [|by repeat constructor].
    apply Forall_filter_keep, Split_pieces. }
  rewrite Hurn. cbn [andb]. cbv zeta.
  apply TrimPrefix_chars.
  apply ReplaceAll_chars; [done|].
  unfold strings.ReplaceAll. rewrite chars_mapChars. apply Forall_map.
  apply Forall_forall. intros r _ Hne. cbn beta in *.
  destruct (decide (r = "/"%char)) as [->|Hr]; [done | exact Hr].
Qed.

Lemma generatePackageName_no_slash_witness :
  strings.HasPrefix "http://example.com/a/b/" "urn:" = false
  /\ Forall (fun r => r <> "/"%char)
       (chars (generatePackageName "http://example.com/a/b/")).
Proof.
  split; [reflexivity|].
  apply (generatePackageName_no_slash "http://example.com/a/b/"). reflexivity.
Defined.

(** ** Validation *)

Section Validation.

Lemma checkNames_spec (msg : string) (names : list string) :
  forall counts : gmap string nat,
    (Exists (fun name => name = "") names ->
     Parser.checkNames msg names counts = Err msg)
    /\ (~ Exists (fun name => name = "") names ->
        exists counts', Parser.checkNames msg names counts = Ok counts').
Proof.
  induction names as [|name names IH]; intros counts.
  - split; [by intros H%Exists_nil | intros _; by eexists].
  - cbn [Parser.checkNames].
    destruct (bool_decide_reflect (name = "")) as [E|E].
    + split; [done|]. intros H. exfalso. apply H. by left.
    + destruct (IH (<[name:=S (default 0%nat (counts !! name))]> counts))
        as [IH1 IH2].
      split.
      * intros H. apply Exists_cons in H as [H|H]; [done | by apply IH1].
      * intros H. apply IH2. intros H'. apply H. by right.
Qed.

End Validation.

(** X12. [Validate] rejects the nil schema, and otherwise reports the first
    kind of top-level declaration, in the order elements, complex types,
    simple types, that has a member with an empty name; every other schema
    is accepted: names that occur twice are counted but never rejected, and
    nothing below the top level is looked at. *)
Theorem Validate_cases (schema : Schema) :
  Parser.Validate None = Err "schema is nil"
  /\ Parser.Validate (Some schema)
     = if decide (Exists (fun e => Element_Name e = "") (Elements schema))
       then Err "element with empty name found"
       else if decide (Exists (fun ct => ComplexType_Name ct = "")
                         (ComplexTypes schema))
       then Err "complexType with empty name found"
       else if decide (Exists (fun st => SimpleType_Name st = "")
                         (SimpleTypes schema))
       then Err "simpleType with empty name found"
       else Ok tt.
Proof.
  split; [reflexivity|]. unfold Parser.Validate.
  destruct (checkNames_spec "element with empty name found"
              (map Element_Name (Elements schema)) ∅) as [He1 He2].
  rewrite Exists_fmap in He1, He2.
  destruct (decide (Exists _ (Elements schema))) as [D|D]; [by rewrite He1|].
  destruct (He2 D) as [elementNames ->].
  destruct (checkNames_spec "complexType with empty name found"
              (map ComplexType_Name (ComplexTypes schema)) ∅) as [Hc1 Hc2].
  rewrite Exists_fmap in Hc1, Hc2.
  destruct (decide (Exists _ (ComplexTypes schema))) as [D'|D']; [by rewrite Hc1|].
  destruct (Hc2 D') as [typeNames ->].
  destruct (checkNames_spec "simpleType with empty name found"
              (map SimpleType_Name (SimpleTypes schema)) typeNames) as [Hs1 Hs2].
  rewrite Exists_fmap in Hs1, Hs2.
  destruct (decide (Exists _ (SimpleTypes schema))) as [D''|D'']; [by rewrite Hs1|].
  by destruct (Hs2 D'') as [counts ->].
Qed.

(** ** The naming style of the fields *)

Section NamingStyle.

Variables useCamel usePascal : bool.

Let style := SetFieldNamingStyle useCamel usePascal.
Let sim {A : Type} := @simulates A style.

Lemma sim_ret {A : Type} (R : A -> A -> Prop) (x y : A) :
  R x y -> sim R (ret x) (ret y).
Proof. intros H c. split; [reflexivity | exact H]. Qed.

Lemma sim_fail {A : Type} (R : A -> A -> Prop) (msg : string) :
  sim R (fail msg) (fail msg).
Proof. intros c. split; reflexivity. Qed.

Lemma sim_bind {A B : Type} (R : A -> A -> Prop) (S : B -> B -> Prop)
  (m m' : M A) (k k' : A -> M B) :
  sim R m m' -> (forall x y, R x y -> sim S (k x) (k' y)) ->
  sim S (bind m k) (bind m' k').
Proof.
  intros Hm Hk c. unfold bind. specialize (Hm c).
  destruct (m c) as [[x|e] c1], (m' (style c)) as [[y|e'] c1'];
    cbn [fst snd] in Hm; destruct Hm as [-> HR]; try done.
  apply Hk, HR.
Qed.

Lemma sim_gets {A : Type} (R : A -> A -> Prop) (f f' : Converter -> A) :
  (forall c, R (f c) (f' (style c))) -> sim R (gets f) (gets f').
Proof. intros H c. split; [reflexivity | apply H]. Qed.

Lemma sim_modify (g : Converter -> Converter) :
  (forall c, g (style c) = style (g c)) -> sim eq (modify g) (modify g).
Proof. intros H c. split; [apply H | reflexivity]. Qed.

Lemma sim_wrapErr {A : Type} (R : A -> A -> Prop) (pre : string) (m m' : M A) :
  sim R m m' -> sim R (wrapErr pre m) (wrapErr pre m').
Proof.
  intros Hm c. unfold wrapErr. specialize (Hm c).
  destruct (m c) as [[x|e] c1], (m' (style c)) as [[y|e'] c1'];
    cbn [fst snd] in *; destruct Hm as [-> HR]; try done.
  split; [reflexivity | by rewrite HR].
Qed.

Lemma sim_forEach {A B : Type} (R : B -> B -> Prop) (f : A -> M B)
  (xs : list A) :
  (forall x, sim R (f x) (f x)) ->
  sim (Forall2 R) (forEach f xs) (forEach f xs).
Proof.
  intros Hf. induction xs as [|x xs IH]; cbn [forEach].
  - apply sim_ret. constructor.
  - eapply sim_bind; [apply Hf|]. intros y y' Hy.
    eapply sim_bind; [apply IH|]. intros ys ys' Hys.
    apply sim_ret. by constructor.
Qed.

(** The methods that do not read the naming style. *)

Lemma sim_generateUniqueEnumValueName (enumName valueName : string)
  (isFirstValue : bool) :
  sim eq (generateUniqueEnumValueName enumName valueName isFirstValue)
         (generateUniqueEnumValueName enumName valueName isFirstValue).
Proof.
  intros [tm fc uev evc umn uen trm ucc upc cs].
  unfold generateUniqueEnumValueName, style, SetFieldNamingStyle.
  cbn [usedEnumValues enumValueCounters typeMapper fieldCounter
       usedMessageNames usedEnumNames typeRenameMap currentSchema].
  destruct (negb _); split; reflexivity.
Qed.

Lemma sim_generateUniqueMessageName (originalName : string) :
  sim eq (generateUniqueMessageName originalName)
         (generateUniqueMessageName originalName).
Proof.
  intros [tm fc uev evc umn uen trm ucc upc cs].
  unfold generateUniqueMessageName, nameUsed, nameRounds, style,
    SetFieldNamingStyle.
  cbn [usedEnumValues enumValueCounters typeMapper fieldCounter
       usedMessageNames usedEnumNames typeRenameMap currentSchema].
  destruct (negb _ && negb _); split; reflexivity.
Qed.

Lemma sim_generateUniqueEnumName (originalName : string) :
  sim eq (generateUniqueEnumName originalName)
         (generateUniqueEnumName originalName).
Proof.
  intros [tm fc uev evc umn uen trm ucc upc cs].
  unfold generateUniqueEnumName, nameUsed, nameRounds, style,
    SetFieldNamingStyle.
  cbn [usedEnumValues enumValueCounters typeMapper fieldCounter
       usedMessageNames usedEnumNames typeRenameMap currentSchema].
  destruct (negb _ && negb _); split; reflexivity.
Qed.

Lemma sim_convertEnumerations (uniqueEnumName : string)
  (enumerations : list Enumeration) :
  forall i : nat,
    sim eq (convertEnumerations uniqueEnumName i enumerations)
           (convertEnumerations uniqueEnumName i enumerations).
Proof.
  induction enumerations as [|en ens IH]; intros i; cbn [convertEnumerations].
  - by apply sim_ret.
  - eapply sim_bind; [apply sim_generateUniqueEnumValueName|].
    intros name ? <-.
    eapply sim_bind; [apply IH|]. intros values ? <-. by apply sim_ret.
Qed.

Lemma sim_convertSimpleTypeToEnum (simpleType : SimpleType) :
  sim eq (convertSimpleTypeToEnum simpleType)
         (convertSimpleTypeToEnum simpleType).
Proof.
  unfold convertSimpleTypeToEnum.
  eapply sim_bind; [apply sim_generateUniqueEnumName|]. intros name ? <-.
  eapply sim_bind; [apply sim_generateUniqueEnumValueName|]. intros first ? <-.
  cbv zeta. destruct (SimpleType_Restriction simpleType); [|apply sim_fail].
  eapply sim_bind; [apply sim_convertEnumerations|]. intros values ? <-.
  by apply sim_ret.
Qed.

Lemma sim_convertSimpleTypes (simpleTypes : list SimpleType) :
  sim eq (convertSimpleTypes simpleTypes) (convertSimpleTypes simpleTypes).
Proof.
  induction simpleTypes as [|st sts IH]; cbn [convertSimpleTypes].
  - by apply sim_ret.
  - destruct (hasEnumerations st); [|exact IH].
    eapply sim_bind; [apply sim_convertSimpleTypeToEnum|]. intros enum ? <-.
    eapply sim_bind; [apply IH|]. intros enums ? <-. by apply sim_ret.
Qed.

(** The field conversions read it for the name of the field only. *)

Lemma fieldOfElement_style (c : Converter) (n : nat) (e : Element) :
  sameButName (fieldOfElement c n e) (fieldOfElement (style c) n e).
Proof.
  unfold fieldOfElement.
  rewrite (getArrayOfElementType_env c (style c)) by (by destruct c).
  cbv zeta. destruct (nonEmpty _); repeat split; by destruct c.
Qed.

Lemma fieldOfAttribute_style (c : Converter) (n : nat) (a : Attribute) :
  sameButName (fieldOfAttribute c n a) (fieldOfAttribute (style c) n a).
Proof. unfold fieldOfAttribute. repeat split; by destruct c. Qed.

Lemma sim_convertElementToField (element : Element) :
  sim sameButName (convertElementToField element)
                  (convertElementToField element).
Proof.
  intros c. rewrite !convertElementToField_run. cbn [fst snd]. split.
  - by destruct c.
  - replace (fieldCounter (style c)) with (fieldCounter c) by (by destruct c).
    apply fieldOfElement_style.
Qed.

Lemma sim_convertAttributeToField (attribute : Attribute) :
  sim sameButName (convertAttributeToField attribute)
                  (convertAttributeToField attribute).
Proof.
  intros c. rewrite !convertAttributeToField_run. cbn [fst snd]. split.
  - by destruct c.
  - replace (fieldCounter (style c)) with (fieldCounter c) by (by destruct c).
    apply fieldOfAttribute_style.
Qed.

Lemma sim_convertChoiceElement (element : Element) :
  sim sameButName (convertChoiceElement element)
                  (convertChoiceElement element).
Proof.
  unfold convertChoiceElement.
  eapply sim_bind; [apply sim_convertElementToField|].
  intros f f' (Ht & Hn & _ & Ho). apply sim_ret. by repeat split.
Qed.

Lemma sim_convertComplexType (complexType : ComplexType) :
  sim sameButFieldNames (convertComplexType complexType)
                        (convertComplexType complexType).
Proof.
  unfold convertComplexType.
  eapply sim_bind; [apply sim_generateUniqueMessageName|]. intros name ? <-.
  eapply sim_bind; [apply sim_modify; intros c; by destruct c|]. intros _ _ _.
  eapply (sim_bind (Forall2 sameButName)).
  { destruct (ComplexType_Sequence complexType).
    - apply sim_forEach, sim_convertElementToField.
    - apply sim_ret. constructor. }
  intros fs1 fs1' H1.
  eapply (sim_bind (Forall2 sameButName)).
  { destruct (ComplexType_Choice complexType).
    - apply sim_forEach, sim_convertChoiceElement.
    - apply sim_ret. constructor. }
  intros fs2 fs2' H2.
  eapply sim_bind; [apply sim_forEach, sim_convertAttributeToField|].
  intros fs3 fs3' H3. apply sim_ret.
  split; [reflexivity|]. split; [|by split].
  cbn [ProtoMessage_Fields]. by repeat apply Forall2_app.
Qed.

Lemma sim_convertElementToMessage (i : nat) (element : Element) :
  sim sameButFieldNames (convertElementToMessage i element)
                        (convertElementToMessage i element).
Proof.
  unfold convertElementToMessage.
  destruct (Element_ComplexType element) as [inline|]; [|apply sim_fail].
  cbv zeta. eapply sim_bind; [|intros _ _ _; apply sim_convertComplexType].
  apply sim_modify. intros [tm fc uev evc umn uen trm ucc upc [s|]]; reflexivity.
Qed.

Lemma sim_convertComplexTypes (complexTypes : list ComplexType) :
  sim (Forall2 sameButFieldNames) (convertComplexTypes complexTypes)
                                  (convertComplexTypes complexTypes).
Proof.
  induction complexTypes as [|ct cts IH]; cbn [convertComplexTypes].
  - apply sim_ret. constructor.
  - eapply (sim_bind eq); [apply sim_gets; intros c; reflexivity|].
    intros skip ? <-. destruct skip; [exact IH|].
    eapply sim_bind; [apply sim_wrapErr, sim_convertComplexType|].
    intros m m' Hm. eapply sim_bind; [apply IH|]. intros ms ms' Hms.
    apply sim_ret. by constructor.
Qed.

Lemma sim_convertElements (elements : list Element) :
  forall i : nat,
    sim (Forall2 sameButFieldNames) (convertElements i elements)
                                    (convertElements i elements).
Proof.
  induction elements as [|e es IH]; intros i; cbn [convertElements].
  - apply sim_ret. constructor.
  - destruct (Element_ComplexType e) eqn:E; [|apply IH].
    eapply sim_bind; [apply sim_wrapErr, sim_convertElementToMessage|].
    intros m m' Hm. eapply sim_bind; [apply IH|]. intros ms ms' Hms.
    apply sim_ret. by constructor.
Qed.

Lemma fieldTypes_sameButFieldNames (ms ms' : list ProtoMessage) :
  Forall2 sameButFieldNames ms ms' ->
  concat (map (fun m => map ProtoField_Type (ProtoMessage_Fields m)) ms')
  = concat (map (fun m => map ProtoField_Type (ProtoMessage_Fields m)) ms).
Proof.
  induction 1 as [|m m' ms ms' (_ & Hf & _) _ IH]; [reflexivity|].
  cbn [map concat]. rewrite IH. f_equal. clear IH.
  induction Hf as [|f f' fs fs' (Ht & _) _ IH]; [reflexivity|].
  cbn [map]. by rewrite Ht, IH.
Qed.

Lemma sim_Convert (schema : Schema) :
  sim (fun pf pf' =>
         ProtoFile_Syntax pf' = ProtoFile_Syntax pf
         /\ ProtoFile_Package pf' = ProtoFile_Package pf
         /\ ProtoFile_Imports pf' = ProtoFile_Imports pf
         /\ ProtoFile_Options pf' = ProtoFile_Options pf
         /\ ProtoFile_Enums pf' = ProtoFile_Enums pf
         /\ Forall2 sameButFieldNames (ProtoFile_Messages pf)
              (ProtoFile_Messages pf'))
      (Convert schema) (Convert schema).
Proof.
  unfold Convert.
  eapply sim_bind; [apply sim_modify; intros c; by destruct c|]. intros _ _ _.
  cbv zeta.
  eapply sim_bind; [apply sim_convertSimpleTypes|]. intros enums ? <-.
  eapply sim_bind; [apply sim_convertComplexTypes|]. intros ms2 ms2' H2.
  eapply sim_bind; [apply sim_convertElements|]. intros ms3 ms3' H3.
  assert (Hms : Forall2 sameButFieldNames (ms2 ++ ms3) (ms2' ++ ms3'))
    by (by apply Forall2_app).
  eapply (sim_bind eq).
  { apply sim_gets. intros c.
    rewrite (fieldTypes_sameButFieldNames _ _ Hms). by destruct c. }
  intros imports ? <-. apply sim_ret. by repeat split.
Qed.

End NamingStyle.

(** X13. The naming style chosen with [SetFieldNamingStyle] changes the
    names of the fields and nothing else: the two files that one schema
    gives with and without the style have the same package, imports and
    enums, and their messages agree in order and name and, field by field,
    in type, number and label; the two converters end in states that differ
    in the style only. *)
Theorem naming_style_changes_field_names_only (schema : Schema) (c : Converter)
  (useCamel usePascal : bool) :
  exists pf pf' c',
    Convert schema c = (Ok pf, c')
    /\ Convert schema (SetFieldNamingStyle useCamel usePascal c)
       = (Ok pf', SetFieldNamingStyle useCamel usePascal c')
    /\ ProtoFile_Package pf' = ProtoFile_Package pf
    /\ ProtoFile_Imports pf' = ProtoFile_Imports pf
    /\ ProtoFile_Enums pf' = ProtoFile_Enums pf
    /\ Forall2 sameButFieldNames (ProtoFile_Messages pf) (ProtoFile_Messages pf').
Proof.
  destruct (Convert_run schema c) as (pf & c' & Hrun & _).
  pose proof (sim_Convert useCamel usePascal schema c) as [Hst Hres].
  rewrite Hrun in Hst, Hres. cbn [fst snd] in Hst, Hres.
  destruct (Convert schema (SetFieldNamingStyle useCamel usePascal c))
    as [[pf'|msg] c''] eqn:Hrun'; cbn [fst snd] in Hst, Hres; [|done].
  subst c''. destruct Hres as (_ & Hp & Hi & _ & He & Hm).
  by exists pf, pf', c'.
Qed.

(** ** References to declarations processed earlier *)

Section References.

Lemma refsResolved_weaken (c : Converter) (final : list string)
  (ms : list ProtoMessage) (cts : list ComplexType) :
  forall known known' : list string,
    (forall x, x ∈ known' -> x ∈ known) ->
    refsResolved c known final ms cts -> refsResolved c known' final ms cts.
Proof.
  revert cts. induction ms as [|m ms IH]; intros [|ct cts] known known' Hsub;
    cbn [refsResolved]; try done.
  intros [Hm Hms]. split.
  - eapply Forall2_impl; [exact Hm|]. intros f t Hf Hb Ha Hin. apply Hf; try done.
    apply elem_of_cons in Hin as [->|Hin]; [by left | right; by apply Hsub].
  - eapply (IH cts (ComplexType_Name ct :: known)); [|exact Hms].
    intros x Hx. apply elem_of_cons in Hx as [->|Hx]; [by left | right; by apply Hsub].
Qed.

Lemma refsResolved_app (c : Converter) (final : list string)
  (ms ms' : list ProtoMessage) (cts' : list ComplexType) :
  forall (cts : list ComplexType) (known : list string),
    refsResolved c known final ms cts ->
    refsResolved c (reverse (map ComplexType_Name cts) ++ known) final ms' cts' ->
    refsResolved c known final (ms ++ ms') (cts ++ cts').
Proof.
  induction ms as [|m ms IH]; intros [|ct cts] known; cbn [refsResolved]; try done.
  intros [Hm Hms] Hrest. cbn [app refsResolved]. split; [exact Hm|].
  apply IH; [exact Hms|]. cbn [map] in Hrest.
  by rewrite reverse_cons, <- app_assoc in Hrest.
Qed.

Lemma knownRenamed_register (c c1 : Converter) (original name : string)
  (known final : list string) :
  typeRenameMap c1 = <[original := name]> (typeRenameMap c) ->
  name ∈ final ->
  knownRenamed c known final -> knownRenamed c1 (original :: known) final.
Proof.
  intros Hmap Hname Hk k Hin. rewrite Hmap.
  destruct (decide (k = original)) as [->|Hne].
  - exists name. by rewrite lookup_insert_eq.
  - rewrite lookup_insert_ne by done.
    apply elem_of_cons in Hin as [->|Hin]; [done | by apply Hk].
Qed.

Lemma knownRenamed_same (c c1 : Converter) (known final : list string) :
  typeRenameMap c1 = typeRenameMap c ->
  knownRenamed c known final -> knownRenamed c1 known final.
Proof. intros Hmap Hk k Hin. rewrite Hmap. by apply Hk. Qed.

Lemma renamedType_known (c : Converter) (known final : list string)
  (declared protoType : string) :
  knownRenamed c known final ->
  TM.IsBuiltInType (typeMapper c) declared = false ->
  TM.CleanTypeName declared ∈ known ->
  renamedType c declared protoType ∈ final.
Proof.
  intros Hk Hb Hin. unfold renamedType. rewrite Hb. cbn [negb]. cbv zeta.
  destruct (Hk _ Hin) as (name & -> & Hname). exact Hname.
Qed.

Lemma messageOf_resolved (c0 c1 : Converter) (name : string)
  (ct : ComplexType) (known final : list string) :
  typeMapper c1 = typeMapper c0 ->
  ComplexTypes <$> currentSchema c1 = ComplexTypes <$> currentSchema c0 ->
  knownRenamed c1 known final ->
  Forall2
    (fun field declared =>
       TM.IsBuiltInType (typeMapper c0) declared = false ->
       getArrayOfElementType c0 declared = "" ->
       TM.CleanTypeName declared ∈ known ->
       ProtoField_Type field ∈ final)
    (ProtoMessage_Fields (messageOf c1 name ct)) (memberTypes ct).
Proof.
  intros Htm Hsch Hk.
  assert (He : forall n e,
    TM.IsBuiltInType (typeMapper c0) (Element_Type e) = false ->
    getArrayOfElementType c0 (Element_Type e) = "" ->
    TM.CleanTypeName (Element_Type e) ∈ known ->
    ProtoField_Type (fieldOfElement c1 n e) ∈ final).
  { intros n e Hb Ha Hin. unfold fieldOfElement.
    rewrite (getArrayOfElementType_env c0 c1) by done. rewrite Ha.
    change (nonEmpty "") with false. cbv iota zeta. cbn [ProtoField_Type].
    eapply renamedType_known; [exact Hk | by rewrite Htm | exact Hin]. }
  unfold messageOf, memberTypes, sequenceFields, choiceFields, attributeFields.
  cbn [ProtoMessage_Fields].
  apply Forall2_app; [|apply Forall2_app].
  - apply Forall2_fmap_r, fields_imap. intros i e. exact (He _ e).
  - apply Forall2_fmap_r, fields_imap. intros i e.
    change (ProtoField_Type (with_Label FieldLabelOptional ?f))
      with (ProtoField_Type f). exact (He _ e).
  - apply Forall2_fmap_r, fields_imap. intros i a Hb _ Hin.
    unfold fieldOfAttribute. cbn [ProtoField_Type].
    eapply renamedType_known; [exact Hk | by rewrite Htm | exact Hin].
Qed.

(** First pass: the enums are entered in the rename map. *)
Lemma convertSimpleTypes_renamed (simpleTypes : list SimpleType) :
  forall (c c1 : Converter) (enums : list ProtoEnum) (known final : list string),
    convertSimpleTypes simpleTypes c = (Ok enums, c1) ->
    knownRenamed c known final ->
    (forall x, x ∈ map ProtoEnum_Name enums -> x ∈ final) ->
    knownRenamed c1
      (reverse (map SimpleType_Name
                  (filter (fun st => hasEnumerations st = true) simpleTypes))
       ++ known) final.
Proof.
  induction simpleTypes as [|st sts IH]; intros c c1 enums known final Hrun Hk Hfin.
  - cbn [convertSimpleTypes] in Hrun. unfold ret in Hrun.
    injection Hrun as <- <-. exact Hk.
  - cbn [convertSimpleTypes] in Hrun.
    destruct (hasEnumerations st) eqn:Hhas.
    2:{ rewrite filter_cons_False by (rewrite Hhas; done). by eapply IH. }
    rewrite filter_cons_True by done.
    destruct (convertSimpleTypeToEnum_run st c Hhas)
      as (enum & u & m & Hone & _).
    unfold bind at 1 in Hrun. rewrite Hone in Hrun.
    set (c0 := with_enumValueCounters m _) in Hrun.
    unfold bind at 1 in Hrun.
    destruct (convertSimpleTypes sts c0) as [[enums1|msg] c2] eqn:Hrest;
      [|discriminate].
    unfold ret in Hrun. injection Hrun as <- <-.
    cbn [map]. rewrite reverse_cons, <- app_assoc. cbn [app].
    eapply (IH c0 c2 enums1); [exact Hrest| |].
    + eapply (knownRenamed_register c c0); [reflexivity| |exact Hk].
      apply Hfin. cbn [map]. by left.
    + intros x Hx. apply Hfin. cbn [map]. by right.
Qed.

(** Second pass. *)
Lemma convertComplexTypes_resolved (c0 : Converter)
  (complexTypes : list ComplexType) :
  forall (c c2 : Converter) (ms : list ProtoMessage) (known final : list string),
    convertComplexTypes complexTypes c = (Ok ms, c2) ->
    typeMapper c = typeMapper c0 ->
    ComplexTypes <$> currentSchema c = ComplexTypes <$> currentSchema c0 ->
    knownRenamed c known final ->
    (forall x, x ∈ map ProtoMessage_Name ms -> x ∈ final) ->
    refsResolved c0 known final ms
      (filter (fun ct => isArrayOfPattern c0 ct = false) complexTypes)
    /\ knownRenamed c2
         (reverse (map ComplexType_Name
                     (filter (fun ct => isArrayOfPattern c0 ct = false)
                        complexTypes))
          ++ known) final.
Proof.
  induction complexTypes as [|ct cts IH];
    intros c c2 ms known final Hrun Htm Hsch Hk Hfin.
  - cbn [convertComplexTypes] in Hrun. unfold ret in Hrun.
    injection Hrun as <- <-. split; [exact I | exact Hk].
  - cbn [convertComplexTypes] in Hrun. unfold bind at 1, gets at 1 in Hrun.
    change (isArrayOfPattern c ct) with (isArrayOfPattern c0 ct) in Hrun.
    destruct (isArrayOfPattern c0 ct) eqn:Hw.
    { rewrite filter_cons_False by (rewrite Hw; done). by eapply IH. }
    rewrite filter_cons_True by done.
    destruct (convertComplexType_run ct c) as (name & _ & Hone).
    unfold bind at 1, wrapErr in Hrun. rewrite Hone in Hrun.
    set (c1 := registerMessage (ComplexType_Name ct) name c) in Hrun.
    set (c1' := with_fieldCounter _ c1) in Hrun.
    unfold bind at 1 in Hrun.
    destruct (convertComplexTypes cts c1') as [[ms1|msg] c3] eqn:Hrest;
      [|discriminate].
    unfold ret in Hrun. injection Hrun as <- <-.
    assert (Hname : name ∈ final) by (apply Hfin; cbn [map]; by left).
    assert (Hk1 : knownRenamed c1 (ComplexType_Name ct :: known) final).
    { eapply (knownRenamed_register c c1); [reflexivity | exact Hname | exact Hk]. }
    destruct (IH c1' c3 ms1 (ComplexType_Name ct :: known) final Hrest)
      as [Hres Hk3]; [exact Htm | exact Hsch | | |].
    { eapply knownRenamed_same; [|exact Hk1]. reflexivity. }
    { intros x Hx. apply Hfin. cbn [map]. by right. }
    split.
    + cbn [refsResolved]. split; [|exact Hres].
      apply (messageOf_resolved c0 c1); [exact Htm | exact Hsch | exact Hk1].
    + cbn [map]. rewrite reverse_cons, <- app_assoc. exact Hk3.
Qed.

(** Third pass. *)
Lemma convertElements_resolved (c0 : Converter) (elements : list Element) :
  forall (i : nat) (c c2 : Converter) (ms : list ProtoMessage)
    (known final : list string),
    convertElements i elements c = (Ok ms, c2) ->
    typeMapper c = typeMapper c0 ->
    ComplexTypes <$> currentSchema c = ComplexTypes <$> currentSchema c0 ->
    knownRenamed c known final ->
    (forall x, x ∈ map ProtoMessage_Name ms -> x ∈ final) ->
    refsResolved c0 known final ms (omap namedInline elements).
Proof.
  induction elements as [|e es IH];
    intros i c c2 ms known final Hrun Htm Hsch Hk Hfin.
  - cbn [convertElements] in Hrun. unfold ret in Hrun.
    injection Hrun as <- <-. exact I.
  - cbn [convertElements] in Hrun. cbn [omap list_omap].
    fold (@omap list _ _ _ namedInline es).
    destruct (Element_ComplexType e) as [inline|] eqn:Hin.
    2:{ assert (Hni : namedInline e = None)
          by (unfold namedInline; rewrite Hin; reflexivity).
        rewrite Hni. by eapply IH. }
    set (messageName := if nonEmpty (ComplexType_Name inline)
                         then ComplexType_Name inline else Element_Name e).
    assert (Hni : namedInline e = Some (with_ComplexType_Name messageName inline))
      by (unfold namedInline; rewrite Hin; reflexivity).
    rewrite Hni.
    unfold bind at 1, wrapErr, convertElementToMessage in Hrun.
    rewrite Hin in Hrun. fold messageName in Hrun.
    unfold bind at 1, modify at 1 in Hrun.
    set (cw := writeInlineName i messageName c) in Hrun.
    destruct (convertComplexType_run (with_ComplexType_Name messageName inline) cw)
      as (name & _ & Hone).
    rewrite Hone in Hrun.
    set (ct := with_ComplexType_Name messageName inline) in *.
    set (c1 := registerMessage (ComplexType_Name ct) name cw) in Hrun.
    set (c1' := with_fieldCounter _ c1) in Hrun.
    unfold bind at 1 in Hrun.
    destruct (convertElements (S i) es c1') as [[ms1|msg] c3] eqn:Hrest;
      [|discriminate].
    unfold ret in Hrun. injection Hrun as <- <-.
    assert (Hwm : typeRenameMap cw = typeRenameMap c
                  /\ typeMapper cw = typeMapper c
                  /\ ComplexTypes <$> currentSchema cw
                     = ComplexTypes <$> currentSchema c).
    { unfold cw, writeInlineName. destruct (currentSchema c) as [s|] eqn:Es.
      - by repeat split.
      - rewrite Es. by repeat split. }
    destruct Hwm as (Hwmap & Hwtm & Hwsch).
    assert (Hname : name ∈ final) by (apply Hfin; cbn [map]; by left).
    assert (Hk1 : knownRenamed c1 (ComplexType_Name ct :: known) final).
    { eapply (knownRenamed_register cw c1); [reflexivity | exact Hname |].
      eapply knownRenamed_same; [exact Hwmap | exact Hk]. }
    cbn [refsResolved]. split.
    + apply (messageOf_resolved c0 c1); [| |exact Hk1].
      * change (typeMapper c1) with (typeMapper cw). by rewrite Hwtm.
      * change (currentSchema c1) with (currentSchema cw). by rewrite Hwsch.
    + eapply (IH (S i) c1' c3 ms1); [exact Hrest| | | |].
      * change (typeMapper c1') with (typeMapper cw). by rewrite Hwtm.
      * change (currentSchema c1') with (currentSchema cw). by rewrite Hwsch.
      * eapply knownRenamed_same; [|exact Hk1]. reflexivity.
      * intros x Hx. apply Hfin. cbn [map]. by right.
Qed.

End References.

(** X14. References to declarations processed earlier never dangle: in every
    message of the file, a member whose declared type is not built-in, does
    not collapse to the inner type of an array wrapper, and names an
    enumerated simple type of the schema, the complex type of the message
    itself, or a complex type converted before it, becomes a field whose
    type is the name of a message or an enum of the file. *)
Theorem Convert_backward_references (schema : Schema) (c : Converter) :
  exists pf c',
    Convert schema c = (Ok pf, c')
    /\ refsResolved (with_currentSchema (Some schema) c)
         (map SimpleType_Name (emittedSimpleTypes schema)) (typeNames pf)
         (ProtoFile_Messages pf) (emittedTypes c schema).
Proof.
  destruct (Convert_run schema c) as (pf & c' & Hrun & _).
  exists pf, c'. split; [exact Hrun|].
  unfold Convert in Hrun. unfold bind at 1, modify at 1 in Hrun.
  set (c0 := with_currentSchema (Some schema) c) in *.
  destruct (convertSimpleTypes_run (SimpleTypes schema) c0)
    as (enums & c1 & Hrun1 & (Htm1 & _ & _ & Hsch1) & _).
  unfold bind at 1 in Hrun. rewrite Hrun1 in Hrun.
  destruct (convertComplexTypes_run (ComplexTypes schema) c1)
    as (ms2 & c2 & Hrun2 & (Htm2 & _ & _ & Hsch2) & _).
  unfold bind at 1 in Hrun. rewrite Hrun2 in Hrun.
  unfold bind at 1 in Hrun.
  destruct (convertElements 0 (Elements schema) c2) as [[ms3|msg] c3] eqn:Hrun3;
    [|discriminate].
  unfold bind at 1, gets at 1, ret in Hrun. injection Hrun as <- <-.
  unfold typeNames, emittedTypes. cbn [ProtoFile_Enums ProtoFile_Messages].
  set (final := (map ProtoEnum_Name enums ++ map ProtoMessage_Name (ms2 ++ ms3))%list).
  assert (Hk0 : knownRenamed c0 [] final).
  { intros k Hk. by apply elem_of_nil in Hk. }
  pose proof (convertSimpleTypes_renamed _ _ _ _ _ final Hrun1 Hk0) as Hk1.
  specialize (Hk1 ltac:(intros x Hx; unfold final; apply elem_of_app; by left)).
  destruct (convertComplexTypes_resolved c0 _ _ _ _ _ final Hrun2 Htm1 Hsch1 Hk1)
    as [Hres2 Hk2].
  { intros x Hx. unfold final. apply elem_of_app. right.
    rewrite map_app. apply elem_of_app. by left. }
  match type of Hk2 with
  | knownRenamed _ ?known _ =>
      pose proof (convertElements_resolved c0 _ _ _ _ _ known final Hrun3) as Hres3
  end.
  specialize (Hres3 ltac:(by rewrite Htm2) ltac:(by rewrite Hsch2) Hk2).
  specialize (Hres3 ltac:(intros x Hx; unfold final; apply elem_of_app; right;
                          rewrite map_app; apply elem_of_app; by right)).
  eapply refsResolved_weaken; [|eapply refsResolved_app; [exact Hres2 | exact Hres3]].
  intros x Hx. apply elem_of_app. left. by apply elem_of_reverse.
Qed.

(** ** The array-wrapper pattern and the test of the converter *)

Section WrapperPattern.

Lemma pretty_N_go_nonempty (x : N) (s : string) :
  s <> "" -> pretty_N_go x s <> "".
Proof.
  revert s. induction (N.lt_wf_0 x) as [x _ IH]; intros s Hs.
  assert (x = 0 \/ 0 < x)%N as [->|Hx] by lia.
  - by rewrite pretty_N_go_0.
  - rewrite pretty_N_go_step by done. apply IH; [by apply N.div_lt | done].
Qed.

Lemma pretty_nat_nonempty (n : nat) : pretty n <> "".
Proof.
  unfold pretty, pretty_nat, pretty, pretty_N.
  destruct (decide (N.of_nat n = 0%N)); [done|].
  destruct (N.of_nat n) as [|p] eqn:E; [done|].
  rewrite pretty_N_go_step by lia. by apply pretty_N_go_nonempty.
Qed.

(** A bound above one is a bound the converter takes for repeated. *)
Lemma boundAboveOne_repeated (maxOccurs : string) :
  boundAboveOne maxOccurs ->
  maxOccurs = "unbounded" \/ (maxOccurs <> "" /\ maxOccurs <> "1").
Proof.
  intros [->|(n & Hn & ->)]; [by left|]. right. split.
  - apply pretty_nat_nonempty.
  - change "1" with (pretty 1%nat). intros H.
    apply (inj pretty) in H. lia.
Qed.

(** The test of the code is the test in words. *)
Lemma isArrayOfPattern_wrapperTest (c : Converter) (ct : ComplexType) :
  isArrayOfPattern c ct = true <-> wrapperTest ct.
Proof.
  unfold isArrayOfPattern, wrapperTest, sequenceElements. cbv zeta.
  destruct (strings.HasPrefix _ "ArrayOf"); cbn [negb];
    [|split; [discriminate | by intros [? _]]].
  destruct (ComplexType_Sequence ct) as [sq|];
    [|split; [discriminate | by intros [_ ?]]].
  destruct (Sequence_Elements sq) as [|inner [|second rest]];
    cbn [length lookup list_lookup]; try (split; [discriminate | by intros [_ ?]]).
  rewrite bool_decide_eq_true_2 by done. cbn [negb].
  unfold nonEmpty.
  destruct (bool_decide_reflect (Element_MaxOccurs inner = "unbounded")) as [H1|H1];
    destruct (bool_decide_reflect (Element_MaxOccurs inner = "")) as [H2|H2];
    destruct (bool_decide_reflect (Element_MaxOccurs inner = "1")) as [H3|H3];
    cbn [orb andb negb]; split; try done; try (intros _; split; [done|]);
    try (intros [_ H]); intuition congruence.
Qed.

Lemma arrayWrapperPattern_wrapperTest (ct : ComplexType) :
  arrayWrapperPattern ct -> wrapperTest ct.
Proof.
  intros (Hp & _ & _ & inner & Hs & Hb). split; [exact Hp|].
  rewrite Hs. by apply boundAboveOne_repeated.
Qed.

Lemma emittedTypes_convertedTypes (c : Converter) (schema : Schema) :
  emittedTypes c schema = convertedTypes schema.
Proof.
  unfold emittedTypes, convertedTypes. f_equal.
  apply list_filter_iff. intros ct.
  rewrite <- (isArrayOfPattern_wrapperTest c ct).
  by destruct (isArrayOfPattern c ct).
Qed.

Lemma wrapperOf_firstWrapper (c : Converter) (schema : Schema) (t : string) :
  wrapperOf c schema t = firstWrapper schema t.
Proof.
  unfold wrapperOf, firstWrapper. f_equal.
  apply list_filter_iff. intros w.
  by rewrite (isArrayOfPattern_wrapperTest c w).
Qed.

Lemma collapsedType_firstWrapper (c : Converter) (schema : Schema)
  (t : string) (w : ComplexType) :
  firstWrapper schema t = Some w ->
  innerTypeOf (typeMapper c) w <> "" ->
  collapsedType c schema t = Some (innerTypeOf (typeMapper c) w).
Proof.
  intros Hw Hne. unfold collapsedType.
  rewrite wrapperOf_firstWrapper, Hw. unfold nonEmpty.
  by rewrite bool_decide_eq_false_2.
Qed.

Lemma determineAttributeLabel_not_repeated (use : string) :
  determineAttributeLabel use <> FieldLabelRepeated.
Proof. unfold determineAttributeLabel. by destruct (bool_decide _). Qed.

End WrapperPattern.

(** C4 (as amended).  Every complex type with the array-wrapper pattern
    passes the test the converter makes, which looks at the name and the
    sequence only.  The messages of the file are, in order, the conversions
    of the top-level complex types that do not pass the test and of the
    inline types of the top-level elements, wrappers or not, each under the
    PascalCase name of its type, with a counter when that name is taken: no
    message is converted from a top-level wrapper.  In each message the
    fields follow the members; a sequence element whose declared type has,
    after namespace stripping, the cleaned name of a top-level type passing
    the test is a repeated field of the inner type of the first such type,
    when that inner type has a non-empty name; a choice element is optional
    and gets that type as well; an attribute is never repeated. *)
Theorem Convert_array_collapsing (schema : Schema) (c : Converter) :
  (forall complexType, arrayWrapperPattern complexType -> wrapperTest complexType)
  /\ exists pf c',
       Convert schema c = (Ok pf, c')
       /\ Forall2
            (fun message complexType =>
               exists sequencePart choicePart attributePart,
                 derivedName (ComplexType_Name complexType)
                   (ProtoMessage_Name message)
                 /\ ProtoMessage_Fields message
                    = (sequencePart ++ choicePart ++ attributePart)%list
                 /\ Forall2
                      (fun field element =>
                         forall w,
                           firstWrapper schema (Element_Type element) = Some w ->
                           innerTypeOf (typeMapper c) w <> "" ->
                           ProtoField_Label field = FieldLabelRepeated
                           /\ ProtoField_Type field = innerTypeOf (typeMapper c) w)
                      sequencePart (sequenceElements complexType)
                 /\ Forall2
                      (fun field element =>
                         ProtoField_Label field = FieldLabelOptional
                         /\ forall w,
                              firstWrapper schema (Element_Type element) = Some w ->
                              innerTypeOf (typeMapper c) w <> "" ->
                              ProtoField_Type field = innerTypeOf (typeMapper c) w)
                      choicePart (choiceElements complexType)
                 /\ Forall2
                      (fun field attribute =>
                         ProtoField_Label field <> FieldLabelRepeated)
                      attributePart (ComplexType_Attributes complexType))
            (ProtoFile_Messages pf) (convertedTypes schema).
Proof.
  split; [exact arrayWrapperPattern_wrapperTest|].
  destruct (Convert_run schema c) as (pf & c' & Hrun & _ & _ & Hconv & _).
  exists pf, c'. split; [exact Hrun|].
  rewrite <- (emittedTypes_convertedTypes c schema).
  eapply Forall2_impl; [exact Hconv|].
  intros m ct' Hm. pose proof (converted_name _ _ _ Hm) as Hd.
  apply converted_fields in Hm as (c1 & Henv & ->).
  eexists _, _, _. split; [exact Hd|]. split; [reflexivity|].
  split; [|split].
  - apply fields_imap. intros i e w Hw Hne.
    pose proof (fieldOfElement_collapse c c1 schema (1 + i) e Henv) as H.
    by rewrite (collapsedType_firstWrapper c schema _ w Hw Hne) in H.
  - apply fields_imap. intros i e. split; [reflexivity|]. intros w Hw Hne.
    pose proof (fieldOfElement_collapse c c1 schema
                  (1 + length (sequenceElements ct') + i) e Henv) as H.
    rewrite (collapsedType_firstWrapper c schema _ w Hw Hne) in H.
    exact (proj2 H).
  - apply fields_imap. intros i a. apply determineAttributeLabel_not_repeated.
Qed.

(** C4 as stated fails, in five ways.  A choice element whose declared type
    is a wrapper is optional, and an attribute whose declared type is a
    wrapper keeps the name of the wrapper as its type.  A wrapper that is
    the inline type of a top-level element is converted to a message.  A
    reference to a wrapper whose inner element declares no type is not
    collapsed, although the wrapper is not converted.  And a reference
    resolves to the first top-level type of its name that passes the test of
    the converter, here a type that is no wrapper by the pattern, which is
    not converted either. *)
Lemma array_wrapper_exceptions :
  (arrayWrapperPattern arrayOfFoo
   /\ digest (Convert choiceSchema New)
      = Some ([],
              [("Foo", [(FieldLabelRequired, "string", "id", 1%nat)]);
               ("Bar", [(FieldLabelOptional, "Foo", "items", 1%nat)])])
   /\ digest (Convert attributeSchema New)
      = Some ([],
              [("Foo", [(FieldLabelRequired, "string", "id", 1%nat)]);
               ("Bar", [(FieldLabelOptional, "ArrayOfFoo", "items", 1%nat)])]))
  /\ digest (Convert inlineWrapperSchema New)
     = Some ([],
             [("Foo", [(FieldLabelRequired, "string", "id", 1%nat)]);
              ("ArrayOfFoo", [(FieldLabelRepeated, "Foo", "foo", 1%nat)])])
  /\ (arrayWrapperPattern arrayOfAny
      /\ digest (Convert untypedWrapperSchema New)
         = Some ([],
                 [("Bar", [(FieldLabelRequired, "ArrayOfAny", "items", 1%nat)])]))
  /\ ((arrayWrapperPattern countedArrayOfFoo -> False)
      /\ wrapperTest countedArrayOfFoo
      /\ innerTypeOf NewTypeMapper arrayOfFoo = "Foo"
      /\ digest (Convert shadowedWrapperSchema New)
         = Some ([],
                 [("Holder", [(FieldLabelRepeated, "Bar", "items", 1%nat)])])).
Proof.
  assert (Hfoo : arrayWrapperPattern arrayOfFoo).
  { repeat split. exists (el "Foo" "tns:Foo" "0" "unbounded").
    split; [reflexivity | by left]. }
  assert (Hany : arrayWrapperPattern arrayOfAny).
  { repeat split. exists (el "item" "" "0" "unbounded").
    split; [reflexivity | by left]. }
  split; [split; [exact Hfoo | split; vm_compute; reflexivity]|].
  split; [vm_compute; reflexivity|].
  split; [split; [exact Hany | vm_compute; reflexivity]|].
  split; [intros (_ & _ & Ha & _); discriminate|].
  split; [split; [reflexivity | right; split; discriminate]|].
  split; vm_compute; reflexivity.
Qed.

(** ** The declaration a reference resolves to *)

Section LastDeclaration.

Lemma recorded_register (c c1 : Converter) (original name : string)
  (declared : list (string * string)) :
  typeRenameMap c1 = <[original := name]> (typeRenameMap c) ->
  recorded c declared -> recorded c1 ((original, name) :: declared).
Proof.
  intros Hmap Hrec k n. cbn [lastDeclared]. rewrite Hmap.
  destruct (decide (original = k)) as [->|Hne].
  - intros [= ->]. apply lookup_insert_eq.
  - intros Hk. rewrite lookup_insert_ne by done. by apply Hrec.
Qed.

Lemma recorded_same (c c1 : Converter) (declared : list (string * string)) :
  typeRenameMap c1 = typeRenameMap c ->
  recorded c declared -> recorded c1 declared.
Proof. intros Hmap Hrec k n Hk. rewrite Hmap. by apply Hrec. Qed.

Lemma refsToLast_length (c : Converter) (schema : Schema)
  (ms : list ProtoMessage) :
  forall (cts : list ComplexType) (declared : list (string * string)),
    refsToLast c schema declared ms cts -> length ms = length cts.
Proof.
  induction ms as [|m ms IH]; intros [|ct cts] declared; cbn [refsToLast];
    try done.
  intros [_ H]. cbn [length]. f_equal. by eapply IH.
Qed.

Lemma refsToLast_app (c : Converter) (schema : Schema)
  (ms ms' : list ProtoMessage) (cts' : list ComplexType) :
  forall (cts : list ComplexType) (declared : list (string * string)),
    refsToLast c schema declared ms cts ->
    refsToLast c schema
      (reverse (zip (map ComplexType_Name cts) (map ProtoMessage_Name ms))
       ++ declared) ms' cts' ->
    refsToLast c schema declared (ms ++ ms') (cts ++ cts').
Proof.
  induction ms as [|m ms IH]; intros [|ct cts] declared; cbn [refsToLast];
    try done.
  intros [Hm Hms] Hrest. cbn [app refsToLast]. split; [exact Hm|].
  apply IH; [exact Hms|]. cbn [map zip zip_with] in Hrest.
  by rewrite reverse_cons, <- app_assoc in Hrest.
Qed.

(** A declared type that does not collapse, in a state that agrees with
    the converter on the type mapper and on the schema. *)
Lemma getArrayOfElementType_not_collapsed (c c1 : Converter) (schema : Schema)
  (t : string) :
  typeMapper c1 = typeMapper c ->
  ComplexTypes <$> currentSchema c1 = Some (ComplexTypes schema) ->
  collapsedType c schema t = None ->
  nonEmpty (getArrayOfElementType c1 t) = false.
Proof.
  intros Htm Hsch Hnone.
  rewrite (getArrayOfElementType_env (with_currentSchema (Some schema) c) c1 t
             Htm Hsch).
  rewrite (getArrayOfElementType_wrapperOf (with_currentSchema (Some schema) c)
             schema t eq_refl).
  unfold collapsedType in Hnone.
  change (wrapperOf (with_currentSchema (Some schema) c) schema t)
    with (wrapperOf c schema t).
  change (typeMapper (with_currentSchema (Some schema) c)) with (typeMapper c).
  destruct (wrapperOf c schema t) as [w|]; [|reflexivity].
  by destruct (nonEmpty (innerTypeOf (typeMapper c) w)).
Qed.

(** The fields of one message, converted in a state [c1] whose rename map
    holds the declarations [declared]. *)
Lemma messageOf_last (c c1 : Converter) (schema : Schema) (name : string)
  (ct : ComplexType) (declared : list (string * string)) :
  typeMapper c1 = typeMapper c ->
  ComplexTypes <$> currentSchema c1 = Some (ComplexTypes schema) ->
  recorded c1 declared ->
  exists elementPart attributePart,
    ProtoMessage_Fields (messageOf c1 name ct)
    = (elementPart ++ attributePart)%list
    /\ Forall2
         (fun field element =>
            TM.IsBuiltInType (typeMapper c) (Element_Type element) = false ->
            collapsedType c schema (Element_Type element) = None ->
            forall n,
              lastDeclared declared (TM.CleanTypeName (Element_Type element))
              = Some n ->
              ProtoField_Type field = n)
         elementPart (sequenceElements ct ++ choiceElements ct)%list
    /\ Forall2
         (fun field attribute =>
            TM.IsBuiltInType (typeMapper c) (Attribute_Type attribute) = false ->
            forall n,
              lastDeclared declared (TM.CleanTypeName (Attribute_Type attribute))
              = Some n ->
              ProtoField_Type field = n)
         attributePart (ComplexType_Attributes ct).
Proof.
  intros Htm Hsch Hrec.
  assert (He : forall k e,
    TM.IsBuiltInType (typeMapper c) (Element_Type e) = false ->
    collapsedType c schema (Element_Type e) = None ->
    forall n,
      lastDeclared declared (TM.CleanTypeName (Element_Type e)) = Some n ->
      ProtoField_Type (fieldOfElement c1 k e) = n).
  { intros k e Hb Hc n Hn. unfold fieldOfElement.
    rewrite (getArrayOfElementType_not_collapsed c c1 schema _ Htm Hsch Hc).
    cbn [ProtoField_Type].
    apply renamedType_lookup; [by rewrite Htm | by apply Hrec]. }
  exists (sequenceFields c1 ct ++ choiceFields c1 ct)%list, (attributeFields c1 ct).
  split; [unfold messageOf; cbn [ProtoMessage_Fields]; by rewrite app_assoc|].
  split.
  - apply Forall2_app.
    + apply fields_imap. intros i e. exact (He _ e).
    + apply fields_imap. intros i e.
      change (ProtoField_Type (with_Label FieldLabelOptional ?f))
        with (ProtoField_Type f). exact (He _ e).
  - apply fields_imap. intros i a Hb n Hn.
    unfold fieldOfAttribute. cbn [ProtoField_Type].
    apply renamedType_lookup; [by rewrite Htm | by apply Hrec].
Qed.

(** First pass: every enum is recorded under the name of its simple type. *)
Lemma convertSimpleTypes_recorded (simpleTypes : list SimpleType) :
  forall (c c1 : Converter) (enums : list ProtoEnum)
    (declared : list (string * string)),
    convertSimpleTypes simpleTypes c = (Ok enums, c1) ->
    recorded c declared ->
    recorded c1
      (reverse (zip (map SimpleType_Name
                       (filter (fun st => hasEnumerations st = true) simpleTypes))
                    (map ProtoEnum_Name enums))
       ++ declared)
    /\ length enums
       = length (filter (fun st => hasEnumerations st = true) simpleTypes).
Proof.
  induction simpleTypes as [|st sts IH]; intros c c1 enums declared Hrun Hrec.
  - cbn [convertSimpleTypes] in Hrun. unfold ret in Hrun.
    injection Hrun as <- <-. by split.
  - cbn [convertSimpleTypes] in Hrun.
    destruct (hasEnumerations st) eqn:Hhas.
    2:{ rewrite filter_cons_False by (rewrite Hhas; done). by eapply IH. }
    rewrite filter_cons_True by done.
    destruct (convertSimpleTypeToEnum_run st c Hhas)
      as (enum & u & m & Hone & _).
    unfold bind at 1 in Hrun. rewrite Hone in Hrun.
    set (c0 := with_enumValueCounters m _) in Hrun.
    unfold bind at 1 in Hrun.
    destruct (convertSimpleTypes sts c0) as [[enums1|msg] c2] eqn:Hrest;
      [|discriminate].
    unfold ret in Hrun. injection Hrun as <- <-.
    destruct (IH c0 c2 enums1 ((SimpleType_Name st, ProtoEnum_Name enum) :: declared)
                Hrest) as [Hrec2 Hlen].
    { eapply (recorded_register c c0); [reflexivity | exact Hrec]. }
    split; [|cbn [length]; by rewrite Hlen].
    cbn [map zip zip_with]. by rewrite reverse_cons, <- app_assoc.
Qed.

(** Second pass. *)
Lemma convertComplexTypes_last (c0 : Converter) (schema : Schema)
  (complexTypes : list ComplexType) :
  forall (c c2 : Converter) (ms : list ProtoMessage)
    (declared : list (string * string)),
    convertComplexTypes complexTypes c = (Ok ms, c2) ->
    typeMapper c = typeMapper c0 ->
    ComplexTypes <$> currentSchema c = Some (ComplexTypes schema) ->
    recorded c declared ->
    refsToLast c0 schema declared ms
      (filter (fun ct => isArrayOfPattern c0 ct = false) complexTypes)
    /\ recorded c2
         (reverse (zip (map ComplexType_Name
                          (filter (fun ct => isArrayOfPattern c0 ct = false)
                             complexTypes))
                       (map ProtoMessage_Name ms))
          ++ declared)
    /\ typeMapper c2 = typeMapper c0
    /\ ComplexTypes <$> currentSchema c2 = Some (ComplexTypes schema).
Proof.
  induction complexTypes as [|ct cts IH];
    intros c c2 ms declared Hrun Htm Hsch Hrec.
  - cbn [convertComplexTypes] in Hrun. unfold ret in Hrun.
    injection Hrun as <- <-. by repeat split.
  - cbn [convertComplexTypes] in Hrun. unfold bind at 1, gets at 1 in Hrun.
    change (isArrayOfPattern c ct) with (isArrayOfPattern c0 ct) in Hrun.
    destruct (isArrayOfPattern c0 ct) eqn:Hw.
    { rewrite filter_cons_False by (rewrite Hw; done). by eapply IH. }
    rewrite filter_cons_True by done.
    destruct (convertComplexType_run ct c) as (name & _ & Hone).
    unfold bind at 1, wrapErr in Hrun. rewrite Hone in Hrun.
    set (c1 := registerMessage (ComplexType_Name ct) name c) in Hrun.
    set (c1' := with_fieldCounter _ c1) in Hrun.
    unfold bind at 1 in Hrun.
    destruct (convertComplexTypes cts c1') as [[ms1|msg] c3] eqn:Hrest;
      [|discriminate].
    unfold ret in Hrun. injection Hrun as <- <-.
    assert (Hrec1 : recorded c1 ((ComplexType_Name ct, name) :: declared)).
    { eapply (recorded_register c c1); [reflexivity | exact Hrec]. }
    destruct (IH c1' c3 ms1 ((ComplexType_Name ct, name) :: declared) Hrest)
      as (Hres & Hrec3 & Htm3 & Hsch3); [exact Htm | exact Hsch | |].
    { eapply recorded_same; [|exact Hrec1]. reflexivity. }
    split; [|split; [|by split]].
    + cbn [refsToLast]. cbv zeta. cbn [ProtoMessage_Name messageOf].
      split; [|exact Hres].
      apply (messageOf_last c0 c1 schema); [exact Htm | exact Hsch | exact Hrec1].
    + cbn [map zip zip_with ProtoMessage_Name messageOf].
      by rewrite reverse_cons, <- app_assoc.
Qed.

(** Third pass. *)
Lemma convertElements_last (c0 : Converter) (schema : Schema)
  (elements : list Element) :
  forall (i : nat) (c c2 : Converter) (ms : list ProtoMessage)
    (declared : list (string * string)),
    convertElements i elements c = (Ok ms, c2) ->
    typeMapper c = typeMapper c0 ->
    ComplexTypes <$> currentSchema c = Some (ComplexTypes schema) ->
    recorded c declared ->
    refsToLast c0 schema declared ms (omap namedInline elements)
    /\ recorded c2
         (reverse (zip (map ComplexType_Name (omap namedInline elements))
                       (map ProtoMessage_Name ms))
          ++ declared).
Proof.
  induction elements as [|e es IH];
    intros i c c2 ms declared Hrun Htm Hsch Hrec.
  - cbn [convertElements] in Hrun. unfold ret in Hrun.
    injection Hrun as <- <-. by split.
  - cbn [convertElements] in Hrun. cbn [omap list_omap].
    fold (@omap list _ _ _ namedInline es).
    destruct (Element_ComplexType e) as [inline|] eqn:Hin.
    2:{ assert (Hni : namedInline e = None)
          by (unfold namedInline; rewrite Hin; reflexivity).
        rewrite Hni. by eapply IH. }
    set (messageName := if nonEmpty (ComplexType_Name inline)
                         then ComplexType_Name inline else Element_Name e).
    assert (Hni : namedInline e = Some (with_ComplexType_Name messageName inline))
      by (unfold namedInline; rewrite Hin; reflexivity).
    rewrite Hni.
    unfold bind at 1, wrapErr, convertElementToMessage in Hrun.
    rewrite Hin in Hrun. fold messageName in Hrun.
    unfold bind at 1, modify at 1 in Hrun.
    set (cw := writeInlineName i messageName c) in Hrun.
    destruct (convertComplexType_run (with_ComplexType_Name messageName inline) cw)
      as (name & _ & Hone).
    rewrite Hone in Hrun.
    set (ct := with_ComplexType_Name messageName inline) in *.
    set (c1 := registerMessage (ComplexType_Name ct) name cw) in Hrun.
    set (c1' := with_fieldCounter _ c1) in Hrun.
    unfold bind at 1 in Hrun.
    destruct (convertElements (S i) es c1') as [[ms1|msg] c3] eqn:Hrest;
      [|discriminate].
    unfold ret in Hrun. injection Hrun as <- <-.
    assert (Hwm : typeRenameMap cw = typeRenameMap c
                  /\ typeMapper cw = typeMapper c
                  /\ ComplexTypes <$> currentSchema cw
                     = ComplexTypes <$> currentSchema c).
    { unfold cw, writeInlineName. destruct (currentSchema c) as [s|] eqn:Es.
      - by repeat split.
      - rewrite Es. by repeat split. }
    destruct Hwm as (Hwmap & Hwtm & Hwsch).
    assert (Htm1 : typeMapper c1 = typeMapper c0).
    { change (typeMapper c1) with (typeMapper cw). by rewrite Hwtm. }
    assert (Hsch1 : ComplexTypes <$> currentSchema c1 = Some (ComplexTypes schema)).
    { change (currentSchema c1) with (currentSchema cw). by rewrite Hwsch. }
    assert (Hrec1 : recorded c1 ((ComplexType_Name ct, name) :: declared)).
    { eapply (recorded_register cw c1); [reflexivity|].
      eapply recorded_same; [exact Hwmap | exact Hrec]. }
    destruct (IH (S i) c1' c3 ms1 ((ComplexType_Name ct, name) :: declared) Hrest)
      as (Hres & Hrec3); [exact Htm1 | exact Hsch1 | |].
    { eapply recorded_same; [|exact Hrec1]. reflexivity. }
    split.
    + cbn [refsToLast]. cbv zeta. cbn [ProtoMessage_Name messageOf].
      split; [|exact Hres].
      apply (messageOf_last c0 c1 schema); [exact Htm1 | exact Hsch1 | exact Hrec1].
    + cbn [map zip zip_with ProtoMessage_Name messageOf].
      by rewrite reverse_cons, <- app_assoc.
Qed.

End LastDeclaration.

(** C10 (as amended).  Every declaration overwrites the rename-map entry of
    its original name with the name it is emitted under: when [Convert]
    returns, the map holds for every declared name the emitted name of the
    last declaration of that name, in processing order (enums, complex
    types, inline types of elements).  A field is resolved when its message
    is converted: its type is the emitted name of the declaration of its
    cleaned declared type processed last up to then, among the enums, the
    complex types converted before and that of the message itself, provided
    the declared type is not built-in and, for an element, does not collapse
    to the inner type of an array wrapper. *)
Theorem Convert_references_last_declaration (schema : Schema) (c : Converter) :
  exists pf c',
    Convert schema c = (Ok pf, c')
    /\ refsToLast c schema
         (reverse (zip (map SimpleType_Name (emittedSimpleTypes schema))
                       (map ProtoEnum_Name (ProtoFile_Enums pf))))
         (ProtoFile_Messages pf) (emittedTypes c schema)
    /\ recorded c' (reverse (zip (declaredNames c schema) (typeNames pf))).
Proof.
  destruct (Convert_run schema c) as (pf & c' & Hrun & _).
  exists pf, c'. split; [exact Hrun|].
  unfold Convert in Hrun. unfold bind at 1, modify at 1 in Hrun.
  set (c0 := with_currentSchema (Some schema) c) in *.
  destruct (convertSimpleTypes_run (SimpleTypes schema) c0)
    as (enums & c1 & Hrun1 & (Htm1 & _ & _ & Hsch1) & _).
  unfold bind at 1 in Hrun. rewrite Hrun1 in Hrun.
  unfold bind at 1 in Hrun.
  destruct (convertComplexTypes (ComplexTypes schema) c1)
    as [[ms2|msg2] c2] eqn:Hrun2; [|discriminate].
  unfold bind at 1 in Hrun.
  destruct (convertElements 0 (Elements schema) c2) as [[ms3|msg3] c3] eqn:Hrun3;
    [|discriminate].
  unfold bind at 1, gets at 1, ret in Hrun. injection Hrun as <- <-.
  unfold typeNames, declaredNames, emittedTypes, emittedSimpleTypes.
  cbn [ProtoFile_Enums ProtoFile_Messages].
  assert (Hrec0 : recorded c0 []) by (intros k n Hk; discriminate).
  destruct (convertSimpleTypes_recorded _ _ _ _ _ Hrun1 Hrec0) as [Hrec1 Hlen1].
  rewrite app_nil_r in Hrec1.
  destruct (convertComplexTypes_last c schema _ _ _ _ _ Hrun2 Htm1 Hsch1 Hrec1)
    as (Hres2 & Hrec2 & Htm2 & Hsch2).
  destruct (convertElements_last c schema _ _ _ _ _ _ Hrun3 Htm2 Hsch2 Hrec2)
    as (Hres3 & Hrec3).
  pose proof (refsToLast_length _ _ _ _ _ Hres2) as Hlen2.
  split.
  - by apply refsToLast_app.
  - rewrite !map_app. rewrite zip_with_app by (by rewrite !length_map).
    rewrite zip_with_app by (by rewrite !length_map).
    rewrite !reverse_app, <- app_assoc. exact Hrec3.
Qed.

